(** * The embedding-backed indexing and retrieval engine

    A shallow embedding of three JavaScript classes and the properties their
    specification states about them:

    - [VectorStore] (src/services/vector-store.js): the in-memory store with its
      dimension lock-in and its cosine-similarity search;
    - [EmbeddingService] (src/unnamed/part_003): preprocessing and batching of
      embedding requests;
    - [FileAgent] (src/unnamed/part_002) with [ViewTool] (src/unnamed/part_000):
      the read-through cache and the batched indexing loop.

    JavaScript numbers are IEEE 754 binary64 values, here the kernel's
    primitive floats, and [Math.sqrt] is the correctly rounded square root.
    Strings are sequences of code units below 256.  A thrown [Error] is its
    message.  What a method awaits from outside its class (the file system,
    the glob tool, the embedding backend, the memory engine) is a parameter. *)

From Stdlib Require Import ZArith List String Ascii Bool Floats Permutation Sorted Lia DecimalString.
From stdpp Require Import gmap strings.
Import ListNotations.

Set Warnings "-inexact-float,-register-all,-abstract-large-number".
Open Scope string_scope.

(** ** Values shared by the three classes *)

(** How a call ends: it returns a value or it throws an [Error] with a
    message.  For a promise these are "fulfilled" and "rejected". *)
Inductive outcome (A : Type) : Type :=
| Return (value : A)
| Throw (message : string).
Arguments Return {A} value.
Arguments Throw {A} message.

(** JavaScript values, as far as the three classes tell them apart. *)
Inductive jsval : Type :=
| JUndefined
| JNull
| JBool (b : bool)
| JNum (x : float)
| JStr (s : string)
| JArr (items : list jsval)
| JObj (fields : list (string * jsval)).

(** Template literals print a length or a size in decimal. *)
Definition show_nat (n : nat) : string := NilZero.string_of_uint (Nat.to_uint n).

(** [Date.now()] is a whole number of milliseconds. *)
Definition num_of_Z (z : Z) : float := PrimFloat.of_uint63 (Uint63.of_Z z).

(** A JavaScript [Map] (and an object's own keys) iterates in insertion order;
    [set] on a present key keeps the key's place. *)
Section OrderedMap.
Context {V : Type}.

Fixpoint map_get (k : string) (m : list (string * V)) : option V :=
  match m with
  | [] => None
  | (k', v) :: rest => if String.eqb k k' then Some v else map_get k rest
  end.

Definition map_has (k : string) (m : list (string * V)) : bool :=
  match map_get k m with Some _ => true | None => false end.

Fixpoint map_set (k : string) (v : V) (m : list (string * V)) : list (string * V) :=
  match m with
  | [] => [(k, v)]
  | (k', v') :: rest =>
      if String.eqb k k' then (k, v) :: rest else (k', v') :: map_set k v rest
  end.

Fixpoint map_delete (k : string) (m : list (string * V)) : list (string * V) :=
  match m with
  | [] => []
  | (k', v') :: rest =>
      if String.eqb k k' then rest else (k', v') :: map_delete k rest
  end.

End OrderedMap.

(** [arr.slice(start, stop)] for indices that are natural numbers. *)
Definition slice {A : Type} (start stop : nat) (l : list A) : list A :=
  firstn (stop - start) (skipn start l).

(** [Array.prototype.sort] is stable.  It is modelled by insertion from the
    left: an element is placed before the first already placed element that
    the comparator puts it strictly ahead of (a negative result); a zero, a
    positive or a NaN result leaves it behind that element. *)
Section ArraySort.
Context {A : Type}.
Variable comparefn : A -> A -> float.

Fixpoint sort_insert (x : A) (placed : list A) : list A :=
  match placed with
  | [] => [x]
  | y :: rest =>
      if PrimFloat.ltb (comparefn x y) 0 then x :: y :: rest
      else y :: sort_insert x rest
  end.

Definition array_sort (l : list A) : list A :=
  fold_left (fun placed x => sort_insert x placed) l [].

End ArraySort.

(** ** Binary64 numbers *)
Module Binary64.

(** [x] is a number: not NaN. *)
Definition number (x : float) : Prop := PrimFloat.leb x x = true.

(** The least exponent of a binary64 mantissa. *)
Definition emin : Z := -1074.

End Binary64.

(** ** The vector store (src/services/vector-store.js) *)
Module VectorStore.

(** [config.similarityThreshold], [None] when the configuration has none. *)
Record config := { similarityThreshold : option float }.

(** The fields of a [VectorStore] instance.  [vectors] and [metadata] are the
    two [Map]s, in insertion order. *)
Record t := {
  cfg : config;
  dimensions : option nat;
  vectors : list (string * list float);
  metadata : list (string * list (string * jsval));
  initialized : bool
}.

(** The constructor. *)
Definition create (c : config) : t :=
  {| cfg := c; dimensions := None; vectors := []; metadata := []; initialized := false |}.

(** [this.vectors.size] *)
Definition size (st : t) : nat := length (vectors st).

(** [initialize]: [_loadFromPersistence] loads nothing and returns. *)
Definition initialize (st : t) : outcome unit * t :=
  if initialized st then (Return tt, st)
  else (Return tt,
        {| cfg := cfg st; dimensions := dimensions st; vectors := vectors st;
           metadata := metadata st; initialized := true |}).

(** The message of both dimension checks. *)
Definition dimension_mismatch (what : string) (expected got : nat) : string :=
  what ++ " dimension mismatch: expected " ++ show_nat expected ++ ", got " ++ show_nat got.

(** [{id, success: true}] *)
Record store_result := { stored_id : string; stored_success : bool }.

(** [storeVector(id, vector, metadata)] at clock reading [now].  The id is a
    string and the vector an array of numbers, as the JSDoc types them; what
    is left of the validation is emptiness.  [_persistVector] only logs. *)
Definition storeVector (id : string) (vector : list float) (meta : list (string * jsval))
    (now : Z) (st : t) : outcome store_result * t :=
  if negb (initialized st) then (Throw "Vector store not initialized", st)
  else if String.eqb id "" then (Throw "Invalid id: must be a non-empty string", st)
  else if Nat.eqb (length vector) 0
  then (Throw "Invalid vector: must be a non-empty array of numbers", st)
  else
    let d := match dimensions st with None => length vector | Some d => d end in
    let st1 := {| cfg := cfg st; dimensions := Some d; vectors := vectors st;
                  metadata := metadata st; initialized := initialized st |} in
    if negb (Nat.eqb (length vector) d)
    then (Throw (dimension_mismatch "Vector" d (length vector)), st1)
    else
      (Return {| stored_id := id; stored_success := true |},
       {| cfg := cfg st1; dimensions := dimensions st1;
          vectors := map_set id vector (vectors st1);
          metadata := map_set id (map_set "timestamp" (JNum (num_of_Z now)) meta) (metadata st1);
          initialized := initialized st1 |}).

(** [{id, success: true, deleted}] *)
Record delete_result := { deleted_id : string; deleted_success : bool; deleted : bool }.

(** [deleteVector(id)]; [_deletePersistedVector] only logs. *)
Definition deleteVector (id : string) (st : t) : outcome delete_result * t :=
  if negb (initialized st) then (Throw "Vector store not initialized", st)
  else
    let exists_ := map_has id (vectors st) in
    (Return {| deleted_id := id; deleted_success := true; deleted := exists_ |},
     if exists_
     then {| cfg := cfg st; dimensions := dimensions st;
             vectors := map_delete id (vectors st);
             metadata := map_delete id (metadata st);
             initialized := initialized st |}
     else st).

(** [{id, vector, metadata}] *)
Record record := {
  record_id : string;
  record_vector : list float;
  record_metadata : list (string * jsval)
}.

(** [this.metadata.get(id) || {}] *)
Definition metadata_of (st : t) (id : string) : list (string * jsval) :=
  match map_get id (metadata st) with Some m => m | None => [] end.

(** [getAllVectors()] *)
Definition getAllVectors (st : t) : outcome (list record) :=
  if negb (initialized st) then Throw "Vector store not initialized"
  else Return (map (fun e => {| record_id := fst e; record_vector := snd e;
                                record_metadata := metadata_of st (fst e) |})
                   (vectors st)).

(** [_calculateCosineSimilarity]: one loop over the shorter length carrying
    the three accumulators. *)
Fixpoint cosine_loop (vectorA vectorB : list float) (dotProduct normA normB : float)
  : float * float * float :=
  match vectorA, vectorB with
  | a :: restA, b :: restB =>
      cosine_loop restA restB (dotProduct + a * b)%float (normA + a * a)%float
                  (normB + b * b)%float
  | _, _ => (dotProduct, normA, normB)
  end.

Definition _calculateCosineSimilarity (vectorA vectorB : list float) : float :=
  let '(dotProduct, normA, normB) := cosine_loop vectorA vectorB 0%float 0%float 0%float in
  let normA := PrimFloat.sqrt normA in
  let normB := PrimFloat.sqrt normB in
  if (PrimFloat.eqb normA 0 || PrimFloat.eqb normB 0)%bool then 0%float
  else (dotProduct / (normA * normB))%float.

(** [{id, similarity, metadata}] *)
Record scored := {
  scored_id : string;
  similarity : float;
  scored_metadata : list (string * jsval)
}.

(** [similarity >= threshold]; a comparison with [undefined] is false. *)
Definition at_least (threshold : option float) (s : scored) : bool :=
  match threshold with
  | Some t => PrimFloat.leb t (similarity s)
  | None => false
  end.

(** The comparator handed to [sort]: [(a, b) => b.similarity - a.similarity]. *)
Definition by_similarity (a b : scored) : float := (similarity b - similarity a)%float.

(** What the loop of [findSimilar] builds for one entry of [vectors]. *)
Definition score (queryVector : list float) (st : t) (e : string * list float) : scored :=
  {| scored_id := fst e;
     similarity := _calculateCosineSimilarity queryVector (snd e);
     scored_metadata := metadata_of st (fst e) |}.

(** The loop of [findSimilar] over [this.vectors.entries()]. *)
Definition similarities (queryVector : list float) (threshold : option float) (st : t)
  : list scored :=
  List.filter (at_least threshold) (map (score queryVector st) (vectors st)).

(** What [findSimilar] does with the retained entries: sort, then cut. *)
Definition rank (limit : nat) (retained : list scored) : list scored :=
  slice 0 limit (array_sort by_similarity retained).

(** The defaults of the parameters [limit = 10] and
    [threshold = this.config.similarityThreshold]: [None] is an omitted
    argument. *)
Definition limit_or_default (limit : option nat) : nat :=
  match limit with Some n => n | None => 10 end.

Definition threshold_or_default (st : t) (threshold : option float) : option float :=
  match threshold with Some x => Some x | None => similarityThreshold (cfg st) end.

(** [findSimilar(queryVector, limit, threshold)]; the limit is a count. *)
Definition findSimilar (queryVector : list float) (limit : option nat)
    (threshold : option float) (st : t) : outcome (list scored) :=
  let limit := limit_or_default limit in
  let threshold := threshold_or_default st threshold in
  if negb (initialized st) then Throw "Vector store not initialized"
  else if Nat.eqb (length queryVector) 0
  then Throw "Invalid query vector: must be a non-empty array of numbers"
  else
    match dimensions st with
    | Some d =>
        if negb (Nat.eqb (length queryVector) d)
        then Throw (dimension_mismatch "Query vector" d (length queryVector))
        else Return (rank limit (similarities queryVector threshold st))
    | None => Return (rank limit (similarities queryVector threshold st))
    end.

(** The states a store goes through: built by the constructor, then changed
    by its three mutating methods only. *)
Inductive reachable : t -> Prop :=
| reach_create (c : config) : reachable (create c)
| reach_initialize (st : t) : reachable st -> reachable (snd (initialize st))
| reach_storeVector (st : t) id vector meta now :
    reachable st -> reachable (snd (storeVector id vector meta now st))
| reach_deleteVector (st : t) id :
    reachable st -> reachable (snd (deleteVector id st)).

(** What holds of a store in every reachable state: before the first stored
    vector both maps are empty; afterwards the store is initialized and every
    stored vector has the fixed length. *)
Definition consistent (st : t) : Prop :=
  match dimensions st with
  | None => vectors st = [] /\ metadata st = []
  | Some d => initialized st = true /\ Forall (fun e => length (snd e) = d) (vectors st)
  end.

(** The scenario of the dimension lock-in: a fresh store is initialized and
    one vector is stored. *)
Definition after_first_store (c : config) (id : string) (vector : list float)
    (meta : list (string * jsval)) (now : Z) : t :=
  snd (storeVector id vector meta now (snd (initialize (create c)))).

(** A list of scored entries in descending order of similarity. *)
Definition descending (l : list scored) : Prop :=
  StronglySorted (fun a b => PrimFloat.leb (similarity b) (similarity a) = true) l.

(** Every similarity of the list is a number. *)
Definition numbers (l : list scored) : Prop :=
  Forall (fun s => Binary64.number (similarity s)) l.

(** The entries of a list whose similarity equals [v], in the order of the list. *)
Definition tied_at (v : float) (l : list scored) : list scored :=
  List.filter (fun s => PrimFloat.eqb (similarity s) v) l.

(** The scenario of the top-K ordering: four vectors stored one after the
    other, whose similarities to the query [1, 0] are 0.9, 0.95, 0.2, 0.95. *)
Definition four_vectors : t :=
  let st0 := snd (initialize (create {| similarityThreshold := Some 0.8%float |})) in
  let st1 := snd (storeVector "v1" [0.9; 0.4358898943540672]%float [] 1 st0) in
  let st2 := snd (storeVector "v2" [0.95; 0.3122498999199199]%float [] 2 st1) in
  let st3 := snd (storeVector "v3" [0.2; 0.9797958971132712]%float [] 3 st2) in
  snd (storeVector "v4" [19; 6.244997998398392]%float [] 4 st3).

(** The formula as the specification words it, [dot(a,b) / (|a| * |b|)] and 0
    when a norm is zero, each sum taken from the left starting at 0. *)
Definition dot (a b : list float) : float :=
  fold_left PrimFloat.add (map (fun p => (fst p * snd p)%float) (combine a b)) 0%float.

Definition norm (a : list float) : float :=
  PrimFloat.sqrt (fold_left PrimFloat.add (map (fun x => (x * x)%float) a) 0%float).

Definition cosine_formula (a b : list float) : float :=
  if (PrimFloat.eqb (norm a) 0 || PrimFloat.eqb (norm b) 0)%bool then 0%float
  else (dot a b / (norm a * norm b))%float.

(** Two numbers no further apart than a tolerance. *)
Definition within (tolerance x y : float) : bool :=
  PrimFloat.leb (PrimFloat.abs (x - y)%float) tolerance.

(** The ids of the stored vectors, in insertion order. *)
Definition ids (st : t) : list string := map fst (vectors st).

(** The two maps hold the same ids in the same order, each id once, and
    every metadata object has the [timestamp] that [storeVector] adds. *)
Definition aligned (st : t) : Prop :=
  List.NoDup (ids st)
  /\ map fst (metadata st) = ids st
  /\ Forall (fun e => map_has "timestamp" (snd e) = true) (metadata st).

(** [later st st']: the store gets from [st] to [st'] by calls of its
    methods. *)
Inductive later (st : t) : t -> Prop :=
| later_now : later st st
| later_initialize st' : later st st' -> later st (snd (initialize st'))
| later_storeVector st' id vector meta now :
    later st st' -> later st (snd (storeVector id vector meta now st'))
| later_deleteVector st' id : later st st' -> later st (snd (deleteVector id st')).

(** A vector whose entries all equal zero. *)
Definition all_zero (v : list float) : Prop :=
  Forall (fun x => PrimFloat.eqb x 0 = true) v.

End VectorStore.

(** ** The embedding service (src/unnamed/part_003) *)
Module EmbeddingService.

(** [\s] of a regular expression and the white space [trim] removes, among
    the code units below 256: TAB, LF, VT, FF, CR, SPACE and NBSP. *)
Definition is_whitespace (c : ascii) : bool :=
  let n := nat_of_ascii c in
  ((9 <=? n) && (n <=? 13) || (n =? 32) || (n =? 160))%nat.

(** The two halves of [trim]. *)
Fixpoint trimStart (s : string) : string :=
  match s with
  | EmptyString => EmptyString
  | String c rest => if is_whitespace c then trimStart rest else s
  end.

Fixpoint trimEnd (s : string) : string :=
  match s with
  | EmptyString => EmptyString
  | String c rest =>
      match trimEnd rest with
      | EmptyString => if is_whitespace c then EmptyString else String c EmptyString
      | kept => String c kept
      end
  end.

(** [s.trim()] *)
Definition trim (s : string) : string := trimEnd (trimStart s).

(** [s.replace(/\s+/g, ' ')], scanning from the left; [in_run] tells that the
    code unit before was white space, already replaced. *)
Fixpoint replace_runs (in_run : bool) (s : string) : string :=
  match s with
  | EmptyString => EmptyString
  | String c rest =>
      if is_whitespace c
      then if in_run then replace_runs true rest else String " " (replace_runs true rest)
      else String c (replace_runs false rest)
  end.

(** A string in which white space occurs only as single spaces; [after_ws]
    tells that the code unit before the string is white space. *)
Fixpoint single_spaced (after_ws : bool) (s : string) : Prop :=
  match s with
  | EmptyString => True
  | String c rest =>
      if is_whitespace c
      then c = " "%char /\ after_ws = false /\ single_spaced true rest
      else single_spaced false rest
  end.

(** A string that does not start with white space. *)
Definition starts_clean (s : string) : Prop :=
  match s with
  | EmptyString => True
  | String c _ => is_whitespace c = false
  end.

(** The fields of an [EmbeddingService] instance that its methods read. *)
Record t := {
  maxBatchSize : nat;
  requestTimeout : nat;
  maxTextLength : nat;
  initialized : bool
}.

(** The constructor: [maxTextLength] is the constant 8192. *)
Definition create (batchSize timeout : nat) : t :=
  {| maxBatchSize := batchSize; requestTimeout := timeout; maxTextLength := 8192;
     initialized := false |}.

(** [_preprocessText(text)] *)
Definition _preprocessText (svc : t) (text : jsval) : string :=
  match text with
  | JStr s =>
      let truncated := String.substring 0 (maxTextLength svc) s in
      replace_runs false (trim truncated)
  | _ => ""
  end.

(** What [_callApi] is asked to embed: one text or an array of texts. *)
Inductive api_input : Type :=
| One (text : string)
| Many (texts : list string).

(** How [fetch] and the reading of the response end.  A body is a JSON array,
    as the JSDoc of [_callApi] types it. *)
Inductive fetch_outcome : Type :=
| Answered (body : list jsval)
| NotOk (status : nat) (errorText : string)
| Aborted
| Failed (message : string).

(** [!text || typeof text !== 'string'] *)
Definition not_a_text (text : jsval) : bool :=
  match text with
  | JStr s => String.eqb s ""
  | _ => true
  end.

(** The two messages of the input checks. *)
Definition invalid_text : string := "Invalid input: text must be a non-empty string".
Definition invalid_texts : string := "Invalid input: texts must be a non-empty array".

Section Backend.

(** The embedding backend: its answer to a request, given the requests made
    before. *)
Variable backend : list api_input -> api_input -> fetch_outcome.

(** [_callApi(input)]; the state is the list of requests sent so far. *)
Definition _callApi (svc : t) (input : api_input) (sent : list api_input)
  : outcome (list jsval) * list api_input :=
  (match backend sent input with
   | Answered body => Return body
   | NotOk status errorText =>
       Throw ("API request failed with status " ++ show_nat status ++ ": " ++ errorText)
   | Aborted =>
       Throw ("API request timed out after " ++ show_nat (requestTimeout svc) ++ "ms")
   | Failed message => Throw message
   end,
   (sent ++ [input])%list).

(** [generateEmbedding(text)] *)
Definition generateEmbedding (svc : t) (text : jsval) (sent : list api_input)
  : outcome (list jsval) * list api_input :=
  if negb (initialized svc) then (Throw "Embedding service not initialized", sent)
  else if not_a_text text
  then (Throw invalid_text, sent)
  else
    let processedText := _preprocessText svc text in
    match _callApi svc (One processedText) sent with
    | (Return embedding, sent') => (Return embedding, sent')
    | (Throw message, sent') => (Throw ("Failed to generate embedding: " ++ message), sent')
    end.

(** The [for] loop of [generateBatchEmbeddings] over the chunks, from index
    [i].  [self] is the recursive call; [budget] bounds the iterations, and
    [None] is a budget used up. *)
Fixpoint chunk_loop
    (self : jsval -> list api_input -> option (outcome (list jsval) * list api_input))
    (step : nat) (texts : list jsval) (budget : nat) (i : nat) (results : list jsval)
    (sent : list api_input) : option (outcome (list jsval) * list api_input) :=
  if (i <? length texts)%nat then
    match budget with
    | O => None
    | S budget' =>
        let chunk := slice i (i + step) texts in
        match self (JArr chunk) sent with
        | Some (Return chunkResults, sent') =>
            chunk_loop self step texts budget' (i + step) (results ++ chunkResults)%list sent'
        | Some (Throw message, sent') => Some (Throw message, sent')
        | None => None
        end
    end
  else Some (Return results, sent).

(** [generateBatchEmbeddings(texts)]; [depth] bounds the nesting of the
    recursive calls, and the length of the array bounds the loop. *)
Fixpoint generateBatchEmbeddings (depth : nat) (svc : t) (texts : jsval)
    (sent : list api_input) : option (outcome (list jsval) * list api_input) :=
  match depth with
  | O => None
  | S depth' =>
      if negb (initialized svc) then Some (Throw "Embedding service not initialized", sent)
      else
        match texts with
        | JArr items =>
            if Nat.eqb (length items) 0
            then Some (Throw invalid_texts, sent)
            else if (maxBatchSize svc <? length items)%nat
            then chunk_loop (generateBatchEmbeddings depth' svc) (maxBatchSize svc)
                            items (length items) 0 [] sent
            else
              let processedTexts := map (_preprocessText svc) items in
              match _callApi svc (Many processedTexts) sent with
              | (Return embeddings, sent') => Some (Return embeddings, sent')
              | (Throw message, sent') =>
                  Some (Throw ("Failed to generate batch embeddings: " ++ message), sent')
              end
        | _ => Some (Throw invalid_texts, sent)
        end
  end.

(** The branch of [generateBatchEmbeddings] that sends one request. *)
Definition one_request (svc : t) (items : list jsval) (sent : list api_input)
  : outcome (list jsval) * list api_input :=
  match _callApi svc (Many (map (_preprocessText svc) items)) sent with
  | (Return embeddings, sent') => (Return embeddings, sent')
  | (Throw message, sent') =>
      (Throw ("Failed to generate batch embeddings: " ++ message), sent')
  end.

End Backend.

(** An outcome that is not a throw from an input check of the service: it
    returns, or it throws what the sending of a request threw. *)
Definition past_the_checks (o : outcome (list jsval)) : Prop :=
  match o with
  | Return _ => True
  | Throw message => exists cause, message = "Failed to generate batch embeddings: " ++ cause
  end.

(** A backend that answers every request: for one text the vector [emb]
    gives, for an array of texts the array of their vectors. *)
Definition answering (emb : string -> jsval) (sent : list api_input) (input : api_input)
  : fetch_outcome :=
  match input with
  | One text => Answered (match emb text with JArr vector => vector | _ => [] end)
  | Many texts => Answered (map emb texts)
  end.

(** A vector that tells the texts apart by their length. *)
Definition length_vector (text : string) : jsval :=
  JArr [JNum (num_of_Z (Z.of_nat (String.length text)))].

(** [initialize()]; [apiKey] is [config.apiKey], [None] when the
    configuration has none.  The answer to the probe is a JSON array, which
    passes the check of [testResult]. *)
Definition initialize (backend : list api_input -> api_input -> fetch_outcome)
    (apiKey : option string) (svc : t) (sent : list api_input)
  : outcome unit * t * list api_input :=
  if initialized svc then (Return tt, svc, sent)
  else if match apiKey with Some key => String.eqb key "" | None => true end
  then (Throw "Hugging Face API key not configured", svc, sent)
  else
    match _callApi backend svc (One "test connection") sent with
    | (Return testResult, sent') =>
        (Return tt,
         {| maxBatchSize := maxBatchSize svc; requestTimeout := requestTimeout svc;
            maxTextLength := maxTextLength svc; initialized := true |},
         sent')
    | (Throw message, sent') =>
        (Throw ("Embedding service initialization failed: " ++ message), svc, sent')
    end.

(** The code units of a string that are not white space, in their order. *)
Fixpoint non_whitespace (s : string) : list ascii :=
  match s with
  | EmptyString => []
  | String c rest => if is_whitespace c then non_whitespace rest else c :: non_whitespace rest
  end.

(** A string of white space only. *)
Fixpoint blank (s : string) : bool :=
  match s with
  | EmptyString => true
  | String c rest => (is_whitespace c && blank rest)%bool
  end.

(** A list cut into pieces of [step] elements, the last one shorter when the
    length is no multiple of [step]; [budget] bounds the number of pieces. *)
Fixpoint chunks_of {A : Type} (budget step : nat) (l : list A) : list (list A) :=
  match budget, l with
  | S budget', _ :: _ => firstn step l :: chunks_of budget' step (skipn step l)
  | _, _ => []
  end.

Definition chunked {A : Type} (step : nat) (l : list A) : list (list A) :=
  chunks_of (length l) step l.

(** Requests for the given arrays of texts made one after the other, up to
    the first that fails; the vectors answered are appended to [results]. *)
Fixpoint send_chunks (backend : list api_input -> api_input -> fetch_outcome) (svc : t)
    (chunks : list (list string)) (results : list jsval) (sent : list api_input)
  : outcome (list jsval) * list api_input :=
  match chunks with
  | [] => (Return results, sent)
  | chunk :: rest =>
      match _callApi backend svc (Many chunk) sent with
      | (Return embeddings, sent') =>
          send_chunks backend svc rest (results ++ embeddings)%list sent'
      | (Throw message, sent') =>
          (Throw ("Failed to generate batch embeddings: " ++ message), sent')
      end
  end.

(** A backend that answers its first [n] requests as [answering] does and
    refuses every later one. *)
Definition fails_after (n : nat) (emb : string -> jsval) (sent : list api_input)
    (input : api_input) : fetch_outcome :=
  if (length sent <? n)%nat then answering emb sent input
  else NotOk 503 "Service Unavailable".

End EmbeddingService.

(** ** The file agent (src/unnamed/part_002) and its view tool (src/unnamed/part_000) *)
Module FileAgent.

(** The [metadata] object [ViewTool.execute] builds. *)
Record file_metadata := { size : nat; encoding : string; viewed_at : Z }.

(** An entry of [details]: [{path, success: true, size, timestamp}] or
    [{path, success: false, error}]. *)
Inductive detail : Type :=
| Indexed (path : string) (size : nat) (timestamp : Z)
| NotIndexed (path : string) (error : string).

(** What the run of an indexing call leaves in the log: an operation is
    launched when [_indexSingleFile] is called, and settles when its promise
    is fulfilled with a value or rejected with an error. *)
Inductive event : Type :=
| Launch (path : string)
| Settle (path : string) (result : outcome detail).

(** An entry of [fileCache]. *)
Record cacheEntry := { content : string; cached_metadata : file_metadata; timestamp : Z }.

(** The mutable state around an agent: the clock [Date.now()] reads, the
    agent's [fileCache], the paths handed to the file system, the requests
    sent to the embedding backend, the keys kept by the memory engine, and
    the log of launches and settlements.  No time passes inside a call. *)
Record world := {
  clock : Z;
  fileCache : gmap string cacheEntry;
  reads : list string;
  sent : list EmbeddingService.api_input;
  memories : list string;
  events : list event
}.

(** The state with one component replaced. *)
Definition with_clock (now : Z) (w : world) : world :=
  {| clock := now; fileCache := fileCache w; reads := reads w; sent := sent w;
     memories := memories w; events := events w |}.

Definition with_fileCache (c : gmap string cacheEntry) (w : world) : world :=
  {| clock := clock w; fileCache := c; reads := reads w; sent := sent w;
     memories := memories w; events := events w |}.

Definition with_reads (r : list string) (w : world) : world :=
  {| clock := clock w; fileCache := fileCache w; reads := r; sent := sent w;
     memories := memories w; events := events w |}.

Definition with_sent (s : list EmbeddingService.api_input) (w : world) : world :=
  {| clock := clock w; fileCache := fileCache w; reads := reads w; sent := s;
     memories := memories w; events := events w |}.

Definition with_memories (m : list string) (w : world) : world :=
  {| clock := clock w; fileCache := fileCache w; reads := reads w; sent := sent w;
     memories := m; events := events w |}.

Definition log_event (e : event) (w : world) : world :=
  {| clock := clock w; fileCache := fileCache w; reads := reads w; sent := sent w;
     memories := memories w; events := (events w ++ [e])%list |}.

(** The fields of a [FileAgent]: which of the two tools it asks the registry
    for are registered, the embedding service and the memory engine it was
    given (if any), and the time to live of a cache entry. *)
Record t := {
  view_registered : bool;
  glob_registered : bool;
  embeddingService : option EmbeddingService.t;
  memoryEngine : bool;
  cacheTTL : Z
}.

(** The constructor sets [cacheTTL] to 30 minutes. *)
Definition create (view glob : bool) (svc : option EmbeddingService.t) (memory : bool) : t :=
  {| view_registered := view; glob_registered := glob; embeddingService := svc;
     memoryEngine := memory; cacheTTL := 1800000 |}.

(** Results of the collaborators. *)
Inductive fs_result : Type :=
| FileContent (text : string)
| FileError (message : string).

Inductive tool_result (A : Type) : Type :=
| Success (data : A)
| Failure (error : string).
Arguments Success {A} data.
Arguments Failure {A} error.

(** [{path, content, metadata}] *)
Record view_data := { view_path : string; view_content : string; view_metadata : file_metadata }.

(** [{success: true, data: {path, content, metadata, fromCache}, timestamp}] *)
Record read_result := {
  read_path : string;
  read_content : string;
  read_metadata : file_metadata;
  fromCache : bool;
  read_timestamp : Z
}.

(** The fields [path] and [success] of an entry of [details]. *)
Definition detail_path (d : detail) : string :=
  match d with Indexed p _ _ => p | NotIndexed p _ => p end.

Definition detail_success (d : detail) : bool :=
  match d with Indexed _ _ _ => true | NotIndexed _ _ => false end.

(** The [results] object of [indexFiles]. *)
Record report := {
  pattern : string;
  totalFiles : nat;
  processedFiles : nat;
  failedFiles : nat;
  details : list detail
}.

(** An operation between its launch and its settlement: the promise of
    [readFile] is settled already, or [ViewTool.execute] is under way with the
    answer the file system will give. *)
Inductive pending : Type :=
| ReadSettled (r : outcome read_result)
| Reading (answer : tool_result view_data).

Section Collaborators.

(** The file system primitive behind [ViewTool._readFile], by path and time. *)
Variable fs_readFile : string -> Z -> fs_result.
(** [GlobTool.execute(pattern)], by pattern and time. *)
Variable glob_execute : string -> Z -> tool_result (list string).
(** The embedding backend, as in [EmbeddingService]. *)
Variable backend :
  list EmbeddingService.api_input -> EmbeddingService.api_input -> EmbeddingService.fetch_outcome.
(** [memoryEngine.storeMemory(key, ...)], given the keys kept so far: it
    resolves ([None]) or rejects with a message. *)
Variable storeMemory : list string -> string -> option string.

(** [ViewTool.execute(filePath)] with the default options. *)
Definition viewTool_execute (filePath : string) (w : world)
  : tool_result view_data * world :=
  if String.eqb filePath ""
  then (Failure "Invalid file path: must be a non-empty string", w)
  else
    let w' := with_reads (reads w ++ [filePath])%list w in
    match fs_readFile filePath (clock w) with
    | FileContent text =>
        (Success {| view_path := filePath; view_content := text;
                    view_metadata := {| size := String.length text; encoding := "utf8";
                                        viewed_at := clock w |} |}, w')
    | FileError message => (Failure ("Failed to read file: " ++ message), w')
    end.

(** [readFile(path)] up to the point where it waits for the view tool: the
    argument check, the cache lookup with the eviction of an expired entry,
    the registry lookup and the call of the tool. *)
Definition readFile_launch (agent : t) (path : string) (w : world) : pending * world :=
  if String.eqb path "" then (ReadSettled (Throw "Missing required parameter: path"), w)
  else
    let lookup :=
      match fileCache w !! path with
      | Some cachedFile =>
          if (clock w - timestamp cachedFile <? cacheTTL agent)%Z
          then (Some cachedFile, w)
          else (None, with_fileCache (delete path (fileCache w)) w)
      | None => (None, w)
      end in
    match lookup with
    | (Some cachedFile, w1) =>
        (ReadSettled (Return {| read_path := path; read_content := content cachedFile;
                                read_metadata := cached_metadata cachedFile;
                                fromCache := true; read_timestamp := clock w1 |}), w1)
    | (None, w1) =>
        if negb (view_registered agent) then (ReadSettled (Throw "Tool not found: view"), w1)
        else
          let '(answer, w2) := viewTool_execute path w1 in
          (Reading answer, w2)
    end.

(** The rest of [readFile(path)], once the view tool has answered. *)
Definition readFile_resume (path : string) (p : pending) (w : world)
  : outcome read_result * world :=
  match p with
  | ReadSettled r => (r, w)
  | Reading (Failure error) => (Throw ("Failed to read file " ++ path ++ ": " ++ error), w)
  | Reading (Success data) =>
      let w' :=
        with_fileCache
          (<[path := {| content := view_content data; cached_metadata := view_metadata data;
                        timestamp := clock w |}]> (fileCache w)) w in
      (Return {| read_path := path; read_content := view_content data;
                 read_metadata := view_metadata data;
                 fromCache := false; read_timestamp := clock w' |}, w')
  end.

(** [readFile(path)] *)
Definition readFile (agent : t) (path : string) (w : world) : outcome read_result * world :=
  let '(p, w1) := readFile_launch agent path w in
  readFile_resume path p w1.

(** [searchFiles(pattern)]: the matches of the glob tool. *)
Definition searchFiles (agent : t) (pattern : string) (w : world)
  : outcome (list string) * world :=
  if String.eqb pattern "" then (Throw "Missing required parameter: pattern", w)
  else if negb (glob_registered agent) then (Throw "Tool not found: glob", w)
  else
    match glob_execute pattern (clock w) with
    | Success matches => (Return matches, w)
    | Failure error =>
        (Throw ("Failed to search for files matching " ++ pattern ++ ": " ++ error), w)
    end.

(** [_indexSingleFile(path)] after the read: embed the content, keep it in
    the memory engine, and report. *)
Definition index_content (svc : EmbeddingService.t) (path : string) (r : read_result)
    (w : world) : outcome detail * world :=
  let text := read_content r in
  match EmbeddingService.generateEmbedding backend svc (JStr text) (sent w) with
  | (Throw message, sent') => (Throw message, with_sent sent' w)
  | (Return embedding, sent') =>
      let w1 := with_sent sent' w in
      let key := "file_content:" ++ path in
      match storeMemory (memories w1) key with
      | Some message => (Throw message, w1)
      | None =>
          let w2 := with_memories (memories w1 ++ [key])%list w1 in
          (Return (Indexed path (String.length text) (clock w2)), w2)
      end
  end.

(** [_indexSingleFile(path)] from its call to its first wait. *)
Definition _indexSingleFile_launch (agent : t) (path : string) (w : world) : pending * world :=
  readFile_launch agent path (log_event (Launch path) w).

(** [_indexSingleFile(path)] from there to the settlement of its promise. *)
Definition _indexSingleFile_resume (svc : EmbeddingService.t) (path : string) (p : pending)
    (w : world) : outcome detail * world :=
  let '(settled, w') :=
    match readFile_resume path p w with
    | (Throw message, w1) => (Throw message, w1)
    | (Return readResult, w1) => index_content svc path readResult w1
    end in
  (settled, log_event (Settle path settled) w').

(** [batch.map(file => this._indexSingleFile(file))]: every call runs up to
    its first wait before the next one is made. *)
Fixpoint launch_all (agent : t) (batch : list string) (w : world) : list pending * world :=
  match batch with
  | [] => ([], w)
  | file :: rest =>
      let '(p, w1) := _indexSingleFile_launch agent file w in
      let '(ps, w2) := launch_all agent rest w1 in
      (p :: ps, w2)
  end.

(** [await Promise.allSettled(batchPromises)]: every operation runs to its
    settlement, here one after the other in the order of the batch; the
    outcomes are in the order of the batch whatever the order of settling. *)
Fixpoint settle_all (svc : EmbeddingService.t) (batch : list string) (ps : list pending)
    (w : world) : list (outcome detail) * world :=
  match batch, ps with
  | file :: rest, p :: ps' =>
      let '(r, w1) := _indexSingleFile_resume svc file p w in
      let '(rs, w2) := settle_all svc rest ps' w1 in
      (r :: rs, w2)
  | _, _ => ([], w)
  end.

(** The inner loop of [indexFiles] over [batchResults]. *)
Fixpoint collect (batch : list string) (batchResults : list (outcome detail))
    (results : report) : report :=
  match batch, batchResults with
  | filePath :: batch', result :: batchResults' =>
      collect batch' batchResults'
        (match result with
         | Return value =>
             {| pattern := pattern results; totalFiles := totalFiles results;
                processedFiles := S (processedFiles results);
                failedFiles := failedFiles results;
                details := (details results ++ [value])%list |}
         | Throw message =>
             {| pattern := pattern results; totalFiles := totalFiles results;
                processedFiles := processedFiles results;
                failedFiles := S (failedFiles results);
                details :=
                  (details results
                   ++ [NotIndexed filePath
                         (if String.eqb message "" then "Unknown error" else message)])%list |}
         end)
  | _, _ => results
  end.

(** [const batchSize = 10] *)
Definition batchSize : nat := 10.

(** The outer loop of [indexFiles] from index [i]; [budget] bounds the
    iterations, and [None] is a budget used up. *)
Fixpoint batch_loop (agent : t) (svc : EmbeddingService.t) (files : list string)
    (budget : nat) (i : nat) (results : report) (w : world) : option (report * world) :=
  if (i <? length files)%nat then
    match budget with
    | O => None
    | S budget' =>
        let batch := slice i (i + batchSize) files in
        let '(batchPromises, w1) := launch_all agent batch w in
        let '(batchResults, w2) := settle_all svc batch batchPromises w1 in
        batch_loop agent svc files budget' (i + batchSize) (collect batch batchResults results) w2
    end
  else Some (results, w).

(** [{success: true, data: results, timestamp}] *)
Record index_response := { index_data : report; index_timestamp : Z }.

(** [indexFiles(pattern)]; the loop is given as many iterations as there are
    files.  A failure to keep the report in the memory engine is only logged. *)
Definition indexFiles (agent : t) (pattern : string) (w : world)
  : option (outcome index_response * world) :=
  if String.eqb pattern "" then Some (Throw "Missing required parameter: pattern", w)
  else
    match embeddingService agent with
    | None => Some (Throw "Embedding service required for file indexing", w)
    | Some svc =>
        if negb (memoryEngine agent)
        then Some (Throw "Memory engine required for file indexing", w)
        else
          match searchFiles agent pattern w with
          | (Throw message, w1) => Some (Throw message, w1)
          | (Return files, w1) =>
              let results :=
                {| pattern := pattern; totalFiles := length files; processedFiles := 0;
                   failedFiles := 0; details := [] |} in
              match batch_loop agent svc files (length files) 0 results w1 with
              | None => None
              | Some (results', w2) =>
                  let key := "file_indexing:" ++ pattern in
                  let w3 :=
                    match storeMemory (memories w2) key with
                    | None => with_memories (memories w2 ++ [key])%list w2
                    | Some _ => w2
                    end in
                  Some (Return {| index_data := results'; index_timestamp := clock w3 |}, w3)
              end
          end
    end.

End Collaborators.


(** The entry of [details] for a settled operation: the value of a
    fulfilled promise, or the path with [reason.message || 'Unknown error']. *)
Definition detail_of (settled : string * outcome detail) : detail :=
  match settled with
  | (_, Return value) => value
  | (filePath, Throw message) =>
      NotIndexed filePath (if String.eqb message "" then "Unknown error" else message)
  end.

(** What one batch leaves in the log: the launches of its operations, then
    their settlements. *)
Definition round_log (round : list (string * outcome detail)) : list event :=
  (map (fun s => Launch (fst s)) round ++ map (fun s => Settle (fst s) (snd s)) round)%list.

(** The value of a fulfilled operation on a file is an entry for that file
    marked as a success. *)
Definition reports (path : string) (result : outcome detail) : Prop :=
  forall d, result = Return d -> detail_path d = path /\ detail_success d = true.

(** The two ways an operation settles. *)
Definition fulfilled (settled : string * outcome detail) : bool :=
  match snd settled with Return _ => true | Throw _ => false end.

Definition rejected (settled : string * outcome detail) : bool :=
  negb (fulfilled settled).

(** The entry [readFile] caches for a text read at a clock reading. *)
Definition entry_of (text : string) (now : Z) : cacheEntry :=
  {| content := text;
     cached_metadata := {| size := String.length text; encoding := "utf8"; viewed_at := now |};
     timestamp := now |}.

(** The state after a read of the file system that was cached. *)
Definition after_fresh_read (path text : string) (w : world) : world :=
  with_fileCache (<[path := entry_of text (clock w)]> (fileCache w))
                 (with_reads (reads w ++ [path])%list w).

(** The state after a read of the file system that failed. *)
Definition after_failed_read (path : string) (w : world) : world :=
  with_reads (reads w ++ [path])%list (with_fileCache (delete path (fileCache w)) w).

(** No entry for the path, or one as old as the time to live or older. *)
Definition stale (agent : t) (path : string) (w : world) : Prop :=
  match fileCache w !! path with
  | None => True
  | Some e => (cacheTTL agent <= clock w - timestamp e)%Z
  end.


(** A world with an empty cache and empty logs. *)
Definition fresh_world (now : Z) : world :=
  {| clock := now; fileCache := ∅; reads := []; sent := []; memories := []; events := [] |}.


(** A file system in which "f3" cannot be read and every other path can. *)
Definition third_unreadable (path : string) (now : Z) : fs_result :=
  if String.eqb path "f3" then FileError "ENOENT: no such file"
  else FileContent ("text of " ++ path).



(** A memory engine that keeps whatever it is given. *)
Definition keeps_all (kept : list string) (key : string) : option string := None.

(** An agent with both tools, an initialized embedding service and a memory
    engine. *)
Definition indexing_agent : t :=
  create true true
    (Some {| EmbeddingService.maxBatchSize := 64; EmbeddingService.requestTimeout := 30000;
             EmbeddingService.maxTextLength := 8192; EmbeddingService.initialized := true |})
    true.

(** Every entry of the cache is the one [readFile] stores for a text that
    the file system gave for the path at the time of the entry. *)
Definition cache_sound (fs_readFile : string -> Z -> fs_result) (w : world) : Prop :=
  forall path e,
    fileCache w !! path = Some e ->
    path <> ""
    /\ fs_readFile path (timestamp e) = FileContent (content e)
    /\ e = entry_of (content e) (timestamp e).

(** [_indexSingleFile(path)] from its call to its settlement, when nothing
    else runs in between. *)
Definition _indexSingleFile (fs_readFile : string -> Z -> fs_result)
    (backend : list EmbeddingService.api_input -> EmbeddingService.api_input
               -> EmbeddingService.fetch_outcome)
    (storeMemory : list string -> string -> option string)
    (agent : t) (svc : EmbeddingService.t) (path : string) (w : world)
  : outcome detail * world :=
  let '(p, w1) := _indexSingleFile_launch fs_readFile agent path w in
  _indexSingleFile_resume backend storeMemory svc path p w1.


(** A file system in which every file is empty. *)
Definition all_empty (path : string) (now : Z) : fs_result := FileContent "".

(** [content.split('\n').length] *)
Fixpoint count_lines (content : string) : nat :=
  match content with
  | EmptyString => 1
  | String c rest => if Ascii.eqb c "010"%char then S (count_lines rest) else count_lines rest
  end.

(** The [analysis] object of [analyzeFile]; the types of the last three
    fields are those of the results of the three heuristics. *)
Record analysis (Keywords FileType Summary : Type) := {
  analysis_path : string;
  analysis_size : nat;
  lineCount : nat;
  hasEmbedding : bool;
  topKeywords : Keywords;
  fileType : FileType;
  summary : Summary
}.
Arguments analysis_path {Keywords FileType Summary} _.
Arguments analysis_size {Keywords FileType Summary} _.
Arguments lineCount {Keywords FileType Summary} _.
Arguments hasEmbedding {Keywords FileType Summary} _.
Arguments topKeywords {Keywords FileType Summary} _.
Arguments fileType {Keywords FileType Summary} _.
Arguments summary {Keywords FileType Summary} _.

Section Analysis.
Context {Keywords FileType Summary : Type}.

Variable fs_readFile : string -> Z -> fs_result.
Variable backend :
  list EmbeddingService.api_input -> EmbeddingService.api_input -> EmbeddingService.fetch_outcome.
Variable storeMemory : list string -> string -> option string.
(** The three heuristics, which read nothing but their arguments. *)
Variable _extractKeywords : string -> Keywords.
Variable _determineFileType : string -> string -> FileType.
Variable _summarizeContent : string -> Summary.

(** [analyzeFile(path)]: the [data] of the object it returns.  A failure to
    embed the content or to keep the analysis is only logged. *)
Definition analyzeFile (agent : t) (path : string) (w : world)
  : outcome (analysis Keywords FileType Summary) * world :=
  if String.eqb path "" then (Throw "Missing required parameter: path", w)
  else
    match readFile fs_readFile agent path w with
    | (Throw message, w1) => (Throw message, w1)
    | (Return readResult, w1) =>
        let content := read_content readResult in
        let '(embedding, w2) :=
          match embeddingService agent with
          | Some svc =>
              match EmbeddingService.generateEmbedding backend svc (JStr content) (sent w1) with
              | (Return vector, sent') => (Some vector, with_sent sent' w1)
              | (Throw _, sent') => (None, with_sent sent' w1)
              end
          | None => (None, w1)
          end in
        let result :=
          {| analysis_path := path;
             analysis_size := String.length content;
             lineCount := count_lines content;
             hasEmbedding := match embedding with Some _ => true | None => false end;
             topKeywords := _extractKeywords content;
             fileType := _determineFileType path content;
             summary := _summarizeContent content |} in
        let key := "file_analysis:" ++ path in
        let w3 :=
          if memoryEngine agent
          then match storeMemory (memories w2) key with
               | None => with_memories (memories w2 ++ [key])%list w2
               | Some _ => w2
               end
          else w2 in
        (Return result, w3)
    end.

End Analysis.

End FileAgent.

(** ** The tool registry (src/tools/tool-registry.js) *)
Module ToolRegistry.

(** A tool as the registry uses it: the name [getName()] gives, and the
    description [getDescription()] gives when the tool has that method. *)
Record tool := { getName : string; getDescription : option string }.

(** What [registerTool] is handed: an object with the methods [getName] and
    [execute], or anything else. *)
Inductive candidate : Type :=
| IsTool (tool : tool)
| NotATool.

(** [this.tools], a [Map] from names to tools. *)
Definition t : Type := list (string * tool).

(** The constructor. *)
Definition create : t := [].

(** [registerTool(tool)]; a name already taken is overwritten, with a warning. *)
Definition registerTool (c : candidate) (reg : t) : outcome unit * t :=
  match c with
  | NotATool =>
      (Throw "Invalid tool implementation: must have getName() and execute() methods", reg)
  | IsTool tool => (Return tt, map_set (getName tool) tool reg)
  end.

(** [getTool(name)] *)
Definition getTool (name : string) (reg : t) : outcome tool :=
  match map_get name reg with
  | Some tool => Return tool
  | None => Throw ("Tool not found: " ++ name)
  end.

(** [hasTool(name)] *)
Definition hasTool (name : string) (reg : t) : bool := map_has name reg.

(** [getToolNames()] *)
Definition getToolNames (reg : t) : list string := map fst reg.

(** [{name, description}] *)
Record tool_info := { info_name : string; info_description : option string }.

(** [getToolInfo()] *)
Definition getToolInfo (reg : t) : list tool_info :=
  map (fun e => {| info_name := fst e; info_description := getDescription (snd e) |}) reg.

(** The registries that calls of [registerTool] build from an empty one. *)
Inductive reachable : t -> Prop :=
| reach_create : reachable create
| reach_registerTool reg c : reachable reg -> reachable (snd (registerTool c reg)).

(** The two tools of src/unnamed/part_000. *)
Definition viewTool : tool :=
  {| getName := "view"; getDescription := Some "View the contents of a file" |}.

Definition globTool : tool :=
  {| getName := "glob"; getDescription := Some "Find files matching a pattern" |}.

End ToolRegistry.

(** ** The glob tool (src/unnamed/part_000) *)
Module GlobTool.

(** The entry [maxResults] of the options handed to [execute]: the options
    have no such entry, or one that is [undefined], or one that is a count. *)
Inductive maxResults_option : Type :=
| Absent
| Undefined
| Count (n : nat).

(** [resolvedOptions.maxResults]: the default [options.maxResults || 1000]
    is replaced by the entry of [options], when they have one, since
    [...options] comes last in the object literal.  [None] is [undefined]. *)
Definition resolved_maxResults (o : maxResults_option) : option nat :=
  match o with
  | Absent => Some 1000
  | Undefined => None
  | Count n => Some n
  end.

(** [{success: true, data, metadata: {count, truncated, ...}}] or
    [{success: false, error, ...}] *)
Inductive result : Type :=
| Found (data : list string) (count : nat) (truncated : bool)
| NotFound (error : string).

Section Matcher.

(** [_findMatches(pattern, resolvedOptions)], which does not read
    [maxResults]: the matches, or the error thrown. *)
Variable _findMatches : string -> outcome (list string).

(** [execute(pattern, options)] *)
Definition execute (pattern : string) (o : maxResults_option) : result :=
  if String.eqb pattern "" then NotFound "Invalid pattern: must be a non-empty string"
  else
    match _findMatches pattern with
    | Throw message => NotFound ("Failed to match files: " ++ message)
    | Return matches =>
        let limitedMatches :=
          match resolved_maxResults o with
          | Some maxResults => slice 0 maxResults matches
          | None => matches
          end in
        Found limitedMatches (length limitedMatches)
              (length limitedMatches <? length matches)%nat
    end.

(** The glob tool as [FileAgent.searchFiles] calls it: [execute(pattern)],
    without options; [searchFiles] reads [success], [data] and [error]. *)
Definition glob_execute (pattern : string) (now : Z) : FileAgent.tool_result (list string) :=
  match execute pattern Absent with
  | Found data _ _ => FileAgent.Success data
  | NotFound error => FileAgent.Failure error
  end.

End Matcher.

(** A matcher that finds the same [n] files for every pattern. *)
Definition finds_many (n : nat) (pattern : string) : outcome (list string) :=
  Return (map show_nat (seq 0 n)).

End GlobTool.

(** * Properties *)

(** ** Order and subtraction of binary64 numbers *)
Module FloatFacts.
Import Binary64.

Local Open Scope Z_scope.

Ltac compare_cases :=
  repeat match goal with
  | |- context [Z.compare ?a ?b] => destruct (Z.compare_spec a b)
  | H : context [Z.compare ?a ?b] |- _ => destruct (Z.compare_spec a b)
  | |- context [Pos.compare_cont Eq ?a ?b] =>
      change (Pos.compare_cont Eq a b) with (Pos.compare a b);
      destruct (Pos.compare_spec a b)
  | H : context [Pos.compare_cont Eq ?a ?b] |- _ =>
      change (Pos.compare_cont Eq a b) with (Pos.compare a b) in H;
      destruct (Pos.compare_spec a b)
  end.

Ltac by_cases_on_floats :=
  simpl; try congruence; try reflexivity;
  intros; compare_cases; simpl in *; try congruence; try reflexivity; try lia.

Lemma SFleb_trans x y z : SFleb x y = true -> SFleb y z = true -> SFleb x z = true.
Proof.
  unfold SFleb, SFcompare.
  destruct x as [sx | sx | | sx mx ex], y as [sy | sy | | sy my ey],
           z as [sz | sz | | sz mz ez];
    try destruct sx; try destruct sy; try destruct sz; by_cases_on_floats.
Qed.

Lemma SFltb_negb_SFleb x y :
  SFleb x x = true -> SFleb y y = true -> SFltb x y = negb (SFleb y x).
Proof.
  unfold SFleb, SFltb, SFcompare.
  destruct x as [sx | sx | | sx mx ex], y as [sy | sy | | sy my ey];
    try destruct sx; try destruct sy; by_cases_on_floats.
Qed.

Lemma SFleb_numbers x y : SFleb x y = true -> SFleb x x = true /\ SFleb y y = true.
Proof.
  unfold SFleb, SFcompare.
  destruct x as [sx | sx | | sx mx ex], y as [sy | sy | | sy my ey];
    try destruct sx; try destruct sy; simpl; try congruence; try (split; reflexivity);
    intros _; split; rewrite ?Z.compare_refl, ?Pos.compare_cont_refl; reflexivity.
Qed.

Lemma SFeqb_both_SFleb x y : SFeqb x y = (SFleb x y && SFleb y x)%bool.
Proof.
  unfold SFleb, SFeqb, SFcompare.
  destruct x as [sx | sx | | sx mx ex], y as [sy | sy | | sy my ey];
    try destruct sx; try destruct sy; by_cases_on_floats.
Qed.

Lemma leb_trans (x y z : float) :
  PrimFloat.leb x y = true -> PrimFloat.leb y z = true -> PrimFloat.leb x z = true.
Proof. rewrite !FloatAxioms.leb_spec. apply SFleb_trans. Qed.

Lemma leb_numbers (x y : float) : PrimFloat.leb x y = true -> number x /\ number y.
Proof. unfold number. rewrite !FloatAxioms.leb_spec. apply SFleb_numbers. Qed.

Lemma ltb_negb_leb (x y : float) :
  number x -> number y -> PrimFloat.ltb x y = negb (PrimFloat.leb y x).
Proof. unfold number. rewrite FloatAxioms.ltb_spec, !FloatAxioms.leb_spec. apply SFltb_negb_SFleb. Qed.

Lemma ltb_leb (x y : float) : PrimFloat.ltb x y = true -> PrimFloat.leb x y = true.
Proof.
  rewrite FloatAxioms.ltb_spec, FloatAxioms.leb_spec. unfold SFltb, SFleb.
  destruct (SFcompare _ _) as [[| |] |]; congruence.
Qed.

Lemma eqb_both_leb (x y : float) :
  PrimFloat.eqb x y = (PrimFloat.leb x y && PrimFloat.leb y x)%bool.
Proof. rewrite FloatAxioms.eqb_spec, !FloatAxioms.leb_spec. apply SFeqb_both_SFleb. Qed.

(** The binary digits of a mantissa. *)
Lemma digits2_pos_bounds (m : positive) :
  2 ^ (Zpos (digits2_pos m) - 1) <= Zpos m < 2 ^ Zpos (digits2_pos m).
Proof.
  induction m as [m IH | m IH |]; simpl digits2_pos.
  - rewrite Pos2Z.inj_succ.
    replace (Z.succ (Zpos (digits2_pos m)) - 1) with (Z.succ (Zpos (digits2_pos m) - 1)) by lia.
    rewrite !Z.pow_succ_r by lia. lia.
  - rewrite Pos2Z.inj_succ.
    replace (Z.succ (Zpos (digits2_pos m)) - 1) with (Z.succ (Zpos (digits2_pos m) - 1)) by lia.
    rewrite !Z.pow_succ_r by lia. lia.
  - simpl. lia.
Qed.

Lemma shr_1_mantissa mrs : 0 <= shr_m mrs -> shr_m (shr_1 mrs) = shr_m mrs / 2.
Proof.
  destruct mrs as [m r s]. simpl. intros Hm.
  destruct m as [| p | p]; [reflexivity | | lia].
  destruct p as [p | p |]; simpl shr_m.
  - apply Z.div_unique with 1; lia.
  - apply Z.div_unique with 0; lia.
  - reflexivity.
Qed.

Lemma pow2_xO p : 2 ^ Zpos p~0 = 2 ^ Zpos p * 2 ^ Zpos p.
Proof. rewrite <- Z.pow_add_r by lia. f_equal. lia. Qed.

Lemma pow2_xI p : 2 ^ Zpos p~1 = 2 * (2 ^ Zpos p * 2 ^ Zpos p).
Proof.
  replace (Zpos p~1) with (Z.succ (Zpos p~0)) by lia.
  rewrite Z.pow_succ_r by lia. now rewrite pow2_xO.
Qed.

Lemma iter_shr_1_mantissa (p : positive) : forall mrs,
  0 <= shr_m mrs -> shr_m (SpecFloat.iter_pos shr_1 p mrs) = shr_m mrs / 2 ^ Zpos p.
Proof.
  induction p as [p IH | p IH |]; intros mrs Hm; simpl SpecFloat.iter_pos.
  - assert (H1 : 0 <= shr_m (shr_1 mrs))
      by (rewrite shr_1_mantissa by lia; apply Z.div_pos; lia).
    assert (H2 : 0 <= shr_m (SpecFloat.iter_pos shr_1 p (shr_1 mrs)))
      by (rewrite IH by lia; apply Z.div_pos; lia).
    rewrite IH by lia. rewrite IH by lia. rewrite shr_1_mantissa by lia.
    rewrite !Z.div_div by lia. now rewrite pow2_xI, Z.mul_assoc.
  - assert (H2 : 0 <= shr_m (SpecFloat.iter_pos shr_1 p mrs))
      by (rewrite IH by lia; apply Z.div_pos; lia).
    rewrite IH by lia. rewrite IH by lia.
    rewrite !Z.div_div by lia. now rewrite pow2_xO.
  - rewrite shr_1_mantissa by lia. reflexivity.
Qed.

(** A positive mantissa at an exponent not below [emin] is positive still
    after the shift of [shr_fexp]. *)
Lemma shr_fexp_positive (m : positive) e l :
  emin <= e ->
  exists m', shr_m (fst (shr_fexp FloatOps.prec FloatOps.emax (Zpos m) e l)) = Zpos m'
             /\ emin <= snd (shr_fexp FloatOps.prec FloatOps.emax (Zpos m) e l).
Proof.
  intros He. unfold shr_fexp, shr, fexp, SpecFloat.emin. simpl Zdigits2.
  change FloatOps.prec with 53. change FloatOps.emax with 1024. unfold emin in *.
  pose proof (digits2_pos_bounds m) as [Hlo Hhi].
  set (d := Zpos (digits2_pos m)) in *.
  assert (Hm : shr_m (shr_record_of_loc (Zpos m) l) = Zpos m)
    by (destruct l as [| []]; reflexivity).
  destruct (Z.max (d + e - 53) (3 - 1024 - 53) - e) as [| p | p] eqn:Hn.
  - exists m. split; [exact Hm | simpl; lia].
  - simpl fst. simpl snd.
    rewrite iter_shr_1_mantissa by lia. rewrite Hm.
    assert (Hq : 0 < Zpos m / 2 ^ Zpos p).
    { apply Z.div_str_pos. split; [apply Z.pow_pos_nonneg; lia |].
      eapply Z.le_trans; [| exact Hlo]. apply Z.pow_le_mono_r; lia. }
    destruct (Zpos m / 2 ^ Zpos p) as [| q | q]; try lia.
    exists q. split; [reflexivity | lia].
  - exists m. split; [exact Hm | simpl; lia].
Qed.

Lemma round_nearest_even_positive (q : positive) l :
  exists q', round_nearest_even (Zpos q) l = Zpos q'.
Proof.
  destruct l as [| []]; unfold round_nearest_even.
  - now exists q.
  - destruct (Z.even (Zpos q)); [now exists q | now exists (q + 1)%positive].
  - now exists q.
  - now exists (q + 1)%positive.
Qed.

(** Rounding keeps the sign and never gives a zero. *)
Lemma binary_round_aux_sign s (m : positive) e l :
  emin <= e ->
  match binary_round_aux FloatOps.prec FloatOps.emax s (Zpos m) e l with
  | S754_finite s' _ _ | S754_infinity s' => s' = s
  | _ => False
  end.
Proof.
  intros He. unfold binary_round_aux.
  destruct (shr_fexp_positive m e l He) as [q [Hq He']].
  destruct (shr_fexp FloatOps.prec FloatOps.emax (Zpos m) e l) as [mrs' e'].
  simpl in Hq, He'. rewrite Hq.
  destruct (round_nearest_even_positive q (loc_of_shr_record mrs')) as [q' ->].
  destruct (shr_fexp_positive q' e' loc_Exact He') as [q'' [Hq'' _]].
  destruct (shr_fexp FloatOps.prec FloatOps.emax (Zpos q') e' loc_Exact) as [mrs'' e''].
  simpl in Hq''. rewrite Hq''.
  destruct (e'' <=? FloatOps.emax - FloatOps.prec); reflexivity.
Qed.

Lemma binary_round_sign s (m : positive) e :
  emin <= e ->
  match binary_round FloatOps.prec FloatOps.emax s m e with
  | S754_finite s' _ _ | S754_infinity s' => s' = s
  | _ => False
  end.
Proof.
  intros He. unfold binary_round.
  destruct (shl_align m e _) as [mz ez] eqn:Hal.
  apply binary_round_aux_sign.
  unfold shl_align in Hal.
  destruct (fexp FloatOps.prec FloatOps.emax (Zpos (digits2_pos m) + e) - e) eqn:Hd;
    injection Hal as _ <-; try exact He.
  unfold fexp, SpecFloat.emin. change FloatOps.prec with 53. change FloatOps.emax with 1024.
  unfold emin. lia.
Qed.

Lemma binary_normalize_negative D e :
  emin <= e ->
  SFltb (binary_normalize FloatOps.prec FloatOps.emax D e false) (S754_zero false) = (D <? 0).
Proof.
  intros He. destruct D as [| p | p]; simpl binary_normalize.
  - reflexivity.
  - pose proof (binary_round_sign false p e He) as Hs.
    destruct (binary_round _ _ false p e) as [s | s | | s m' e'];
      try contradiction; subst s; reflexivity.
  - pose proof (binary_round_sign true p e He) as Hs.
    destruct (binary_round _ _ true p e) as [s | s | | s m' e'];
      try contradiction; subst s; reflexivity.
Qed.

Lemma iter_xO_value (m d : positive) : Zpos (Pos.iter xO m d) = Zpos m * 2 ^ Zpos d.
Proof.
  induction d as [| d IH] using Pos.peano_ind.
  - simpl. lia.
  - rewrite Pos.iter_succ.
    rewrite Pos2Z.inj_xO, IH, Pos2Z.inj_succ, Z.pow_succ_r by lia. lia.
Qed.

Lemma shl_align_value m e ez :
  ez <= e -> Zpos (fst (shl_align m e ez)) = Zpos m * 2 ^ (e - ez).
Proof.
  intros Hle. unfold shl_align.
  destruct (ez - e) as [| d | d] eqn:Hd; simpl fst.
  - replace (e - ez) with 0 by lia. lia.
  - lia.
  - rewrite iter_xO_value. f_equal. f_equal. lia.
Qed.

Lemma bounded_digits m e :
  bounded FloatOps.prec FloatOps.emax m e = true ->
  emin <= e /\ Zpos (digits2_pos m) <= 53 /\ (emin < e -> Zpos (digits2_pos m) = 53).
Proof.
  unfold bounded, canonical_mantissa, fexp, SpecFloat.emin.
  change FloatOps.prec with 53. change FloatOps.emax with 1024. unfold emin.
  intros H. apply andb_prop in H as [H _]. apply Z.eqb_eq in H. lia.
Qed.

(** Of two valid mantissas, the one at the larger exponent is the larger
    number. *)
Lemma bounded_exponent_lt m1 e1 m2 e2 :
  bounded FloatOps.prec FloatOps.emax m1 e1 = true -> bounded FloatOps.prec FloatOps.emax m2 e2 = true ->
  e1 < e2 -> Zpos m1 < Zpos m2 * 2 ^ (e2 - e1).
Proof.
  intros H1 H2 Hlt.
  apply bounded_digits in H1 as [He1 [Hd1 _]]. apply bounded_digits in H2 as [He2 [_ Hd2]].
  specialize (Hd2 ltac:(lia)).
  pose proof (digits2_pos_bounds m1) as [_ Hhi].
  pose proof (digits2_pos_bounds m2) as [Hlo _].
  rewrite Hd2 in Hlo.
  assert (Hpow : Zpos m1 < 2 ^ 53).
  { eapply Z.lt_le_trans; [exact Hhi |]. apply Z.pow_le_mono_r; lia. }
  assert (H2p : 2 ^ 1 <= 2 ^ (e2 - e1)) by (apply Z.pow_le_mono_r; lia).
  change (2 ^ 1) with 2 in H2p. change (53 - 1) with 52 in Hlo.
  assert (2 ^ 53 = 2 * 2 ^ 52) by reflexivity. nia.
Qed.

(** The difference of two valid numbers is negative exactly when the first
    is the smaller one. *)
Lemma SFsub_negative y x :
  valid_binary y = true -> valid_binary x = true ->
  SFltb (SFsub FloatOps.prec FloatOps.emax y x) (S754_zero false) = SFltb y x.
Proof.
  intros Hy Hx.
  destruct y as [sy | sy | | sy my ey], x as [sx | sx | | sx mx ex];
    try (destruct sy; try destruct sx; reflexivity);
    try (destruct sx; reflexivity); try reflexivity.
  simpl in Hy, Hx.
  pose proof (bounded_digits _ _ Hy) as [Hey _].
  pose proof (bounded_digits _ _ Hx) as [Hex _].
  unfold SFsub. rewrite binary_normalize_negative by lia.
  rewrite !shl_align_value by lia.
  unfold SFltb, SFcompare.
  assert (Hpy : 0 < Zpos my * 2 ^ (ey - Z.min ey ex))
    by (apply Z.mul_pos_pos; [lia | apply Z.pow_pos_nonneg; lia]).
  assert (Hpx : 0 < Zpos mx * 2 ^ (ex - Z.min ey ex))
    by (apply Z.mul_pos_pos; [lia | apply Z.pow_pos_nonneg; lia]).
  destruct sy, sx; unfold cond_Zopp;
    match goal with |- (?D <? 0) = _ => destruct (Z.ltb_spec D 0) as [HD | HD] end;
    destruct (Z.compare_spec ey ex) as [Heq | Hlt | Hgt];
    try (subst ex; rewrite Z.min_id, Z.sub_diag, Z.pow_0_r in *;
         change (Pos.compare_cont Eq my mx) with (Pos.compare my mx);
         destruct (Pos.compare_spec my mx); simpl; try reflexivity; lia);
    try (pose proof (bounded_exponent_lt _ _ _ _ Hy Hx Hlt);
         rewrite Z.min_l in * by lia; rewrite Z.sub_diag, Z.pow_0_r in *;
         simpl; try reflexivity; lia);
    try (pose proof (bounded_exponent_lt _ _ _ _ Hx Hy ltac:(lia));
         rewrite Z.min_r in * by lia; rewrite Z.sub_diag, Z.pow_0_r in *;
         simpl; try reflexivity; lia).
Qed.

(** [y - x < 0] is [y < x], for all binary64 values. *)
Lemma sub_negative (y x : float) :
  PrimFloat.ltb (y - x)%float 0%float = PrimFloat.ltb y x.
Proof.
  rewrite !FloatAxioms.ltb_spec, FloatAxioms.sub_spec.
  change (Prim2SF 0) with (S754_zero false).
  apply SFsub_negative; apply Prim2SF_valid.
Qed.

End FloatFacts.

(** ** The vector store *)
Module VectorStoreFacts.
Import VectorStore.

Lemma map_set_Forall {V : Type} (P : string * V -> Prop) k v (m : list (string * V)) :
  P (k, v) -> Forall P m -> Forall P (map_set k v m).
Proof.
  intros Hkv Hm. induction Hm as [| [k' v'] rest Hx Hrest IH]; simpl.
  - constructor; [exact Hkv | constructor].
  - destruct (String.eqb k k'); constructor; assumption.
Qed.

Lemma map_delete_Forall {V : Type} (P : string * V -> Prop) k (m : list (string * V)) :
  Forall P m -> Forall P (map_delete k m).
Proof.
  intros Hm. induction Hm as [| [k' v'] rest Hx Hrest IH]; simpl.
  - constructor.
  - destruct (String.eqb k k'); [assumption | constructor; assumption].
Qed.

Lemma initialize_consistent st : consistent st -> consistent (snd (initialize st)).
Proof.
  destruct st as [c d vs ms i]. unfold consistent, initialize. simpl.
  destruct i; simpl; [tauto |]. destruct d; [| tauto]. intros [Hf _]. discriminate.
Qed.

Lemma storeVector_consistent st id vector meta now :
  consistent st -> consistent (snd (storeVector id vector meta now st)).
Proof.
  destruct st as [c d vs ms i]. intros Hc. unfold storeVector. simpl.
  destruct i; simpl; [| exact Hc].
  destruct (String.eqb id ""); [exact Hc |].
  destruct (Nat.eqb (length vector) 0); [exact Hc |].
  unfold consistent in *. simpl in *.
  destruct d as [d |]; simpl.
  - destruct (Nat.eqb (length vector) d) eqn:Hlen; simpl; [| exact Hc].
    destruct Hc as [_ Hall]. split; [reflexivity |].
    apply map_set_Forall; [simpl; now apply Nat.eqb_eq | exact Hall].
  - rewrite Nat.eqb_refl. simpl. destruct Hc as [-> _]. split; [reflexivity |].
    simpl. repeat constructor.
Qed.

Lemma deleteVector_consistent st id : consistent st -> consistent (snd (deleteVector id st)).
Proof.
  destruct st as [c d vs ms i]. intros Hc. unfold deleteVector. simpl.
  destruct i; simpl; [| exact Hc].
  destruct (map_has id vs) eqn:Hhas; [| exact Hc].
  unfold consistent in *. simpl in *.
  destruct d as [d |].
  - destruct Hc as [_ Hall]. split; [reflexivity | now apply map_delete_Forall].
  - destruct Hc as [Hv _]. rewrite Hv in Hhas. discriminate.
Qed.

(** Every reachable state of the store is consistent. *)
Lemma reachable_consistent st : reachable st -> consistent st.
Proof.
  induction 1.
  - unfold consistent, create. simpl. split; reflexivity.
  - now apply initialize_consistent.
  - now apply storeVector_consistent.
  - now apply deleteVector_consistent.
Qed.

(** A filled store rejects a vector of another length and stays as it was. *)
Lemma storeVector_mismatch st D id vector meta now :
  initialized st = true -> dimensions st = Some D ->
  id <> "" -> vector <> [] -> length vector <> D ->
  storeVector id vector meta now st
  = (Throw (dimension_mismatch "Vector" D (length vector)), st).
Proof.
  destruct st as [c d vs ms i]. simpl. intros -> -> Hid Hv Hlen.
  unfold storeVector. simpl.
  apply String.eqb_neq in Hid. rewrite Hid.
  destruct vector as [| x rest]; [contradiction |].
  change (Nat.eqb (length (x :: rest)) 0) with false. cbv iota.
  apply Nat.eqb_neq in Hlen. rewrite Hlen. reflexivity.
Qed.

(** The first vector stored in a fresh, initialized store is kept. *)
Lemma after_first_store_state c id vector meta now :
  id <> "" -> vector <> [] ->
  after_first_store c id vector meta now
  = {| cfg := c; dimensions := Some (length vector); vectors := [(id, vector)];
       metadata := [(id, map_set "timestamp" (JNum (num_of_Z now)) meta)];
       initialized := true |}.
Proof.
  intros Hid Hv. unfold after_first_store, storeVector. simpl.
  apply String.eqb_neq in Hid. rewrite Hid.
  destruct vector as [| x rest]; [contradiction |].
  change (Nat.eqb (length (x :: rest)) 0) with false. cbv iota.
  rewrite Nat.eqb_refl. reflexivity.
Qed.

Lemma after_first_store_reachable c id vector meta now :
  reachable (after_first_store c id vector meta now).
Proof. unfold after_first_store. repeat constructor. Qed.

(** C1.  In every reachable state of a store whose dimension D is fixed,
    [storeVector] with a non-empty id and a non-empty vector whose length is
    not D throws the dimension-mismatch error and returns the store as it
    was: records, vectors, metadata and D.  In particular, after a vector of
    length 3 is stored in a fresh store, storing one of length 5 throws,
    the store still has size 1 and [getAllVectors] returns the one record
    with the first vector. *)
Theorem storeVector_dimension_lock_in :
  (forall st D id vector meta now,
      reachable st -> dimensions st = Some D ->
      id <> "" -> vector <> [] -> length vector <> D ->
      storeVector id vector meta now st
      = (Throw (dimension_mismatch "Vector" D (length vector)), st))
  /\
  (forall c id1 v1 m1 t1 id2 v2 m2 t2,
      id1 <> "" -> id2 <> "" -> length v1 = 3 -> length v2 = 5 ->
      let st1 := after_first_store c id1 v1 m1 t1 in
      storeVector id2 v2 m2 t2 st1
      = (Throw "Vector dimension mismatch: expected 3, got 5", st1)
      /\ size st1 = 1
      /\ getAllVectors st1
         = Return [{| record_id := id1; record_vector := v1;
                      record_metadata := map_set "timestamp" (JNum (num_of_Z t1)) m1 |}]).
Proof.
  split.
  - intros st D id vector meta now Hr Hd Hid Hv Hlen.
    pose proof (reachable_consistent st Hr) as Hc. unfold consistent in Hc.
    rewrite Hd in Hc. destruct Hc as [Hi _].
    now apply storeVector_mismatch.
  - intros c id1 v1 m1 t1 id2 v2 m2 t2 Hid1 Hid2 Hl1 Hl2 st1.
    assert (Hv1 : v1 <> []) by (intros ->; discriminate).
    assert (Hv2 : v2 <> []) by (intros ->; discriminate).
    assert (Hst : st1 = _) by (apply after_first_store_state; assumption).
    split; [| split].
    + rewrite (storeVector_mismatch st1 3 id2 v2 m2 t2).
      * rewrite Hl2. reflexivity.
      * rewrite Hst. reflexivity.
      * rewrite Hst. simpl. now rewrite Hl1.
      * exact Hid2.
      * exact Hv2.
      * rewrite Hl2. discriminate.
    + rewrite Hst. reflexivity.
    + rewrite Hst. unfold getAllVectors, metadata_of. simpl.
      rewrite String.eqb_refl. reflexivity.
Qed.

(** The first vector of the scenario is [1, 2, 3], the second has length 5. *)
Lemma storeVector_dimension_lock_in_witness :
  let c := {| similarityThreshold := Some 0.8%float |} in
  let st1 := after_first_store c "a" [1; 2; 3]%float [] 1000 in
  (reachable st1 /\ dimensions st1 = Some 3)
  /\ storeVector "b" [1; 2; 3; 4; 5]%float [] 2000 st1
     = (Throw "Vector dimension mismatch: expected 3, got 5", st1)
  /\ size st1 = 1
  /\ getAllVectors st1
     = Return [{| record_id := "a"; record_vector := [1; 2; 3]%float;
                  record_metadata := [("timestamp", JNum (num_of_Z 1000))] |}].
Proof.
  split; [split; [apply after_first_store_reachable | reflexivity] |].
  split.
  - exact (proj1 storeVector_dimension_lock_in
             (after_first_store {| similarityThreshold := Some 0.8%float |}
                                "a" [1; 2; 3]%float [] 1000)
             3 "b" [1; 2; 3; 4; 5]%float [] 2000%Z
             (after_first_store_reachable _ _ _ _ _) eq_refl
             ltac:(discriminate) ltac:(discriminate) ltac:(simpl; lia)).
  - split; reflexivity.
Defined.

(** The loop of [_calculateCosineSimilarity] over two arrays of one length
    adds up, in its three accumulators, the three sums of the formula. *)
Lemma cosine_loop_sums (a : list float) :
  forall (b : list float) (d na nb : float),
    length a = length b ->
    cosine_loop a b d na nb
    = (fold_left PrimFloat.add (map (fun p => (fst p * snd p)%float) (combine a b)) d,
       fold_left PrimFloat.add (map (fun x => (x * x)%float) a) na,
       fold_left PrimFloat.add (map (fun x => (x * x)%float) b) nb).
Proof.
  induction a as [| x a IH]; intros [| y b] d na nb Hlen; try discriminate.
  - reflexivity.
  - simpl. apply IH. now injection Hlen.
Qed.

Lemma cosine_is_formula a b :
  length a = length b -> _calculateCosineSimilarity a b = cosine_formula a b.
Proof.
  intros Hlen. unfold _calculateCosineSimilarity, cosine_formula, dot, norm.
  rewrite (cosine_loop_sums a b _ _ _ Hlen). reflexivity.
Qed.

(** C2.  For two vectors of one length the similarity the store computes is
    [dot(a,b) / (|a| * |b|)], the sums taken from the left in binary64
    arithmetic, and it is 0 as soon as one of the norms is zero.  The
    similarity of [1,0] with itself is 1 and with [0,1] it is 0, exactly and
    so within 1e-9. *)
Theorem cosine_similarity_correct :
  (forall a b, length a = length b ->
     _calculateCosineSimilarity a b
     = if (PrimFloat.eqb (norm a) 0 || PrimFloat.eqb (norm b) 0)%bool then 0%float
       else (dot a b / (norm a * norm b))%float)
  /\ (forall a b, length a = length b ->
       PrimFloat.eqb (norm a) 0 = true \/ PrimFloat.eqb (norm b) 0 = true ->
       _calculateCosineSimilarity a b = 0%float)
  /\ _calculateCosineSimilarity [1; 0]%float [1; 0]%float = 1%float
  /\ _calculateCosineSimilarity [1; 0]%float [0; 1]%float = 0%float
  /\ within 1e-9 (_calculateCosineSimilarity [1; 0]%float [1; 0]%float) 1 = true
  /\ within 1e-9 (_calculateCosineSimilarity [1; 0]%float [0; 1]%float) 0 = true.
Proof.
  split; [| split].
  - intros a b Hlen. now apply cosine_is_formula.
  - intros a b Hlen Hzero. rewrite (cosine_is_formula a b Hlen). unfold cosine_formula.
    destruct Hzero as [-> | ->]; [reflexivity |]. now rewrite orb_true_r.
  - repeat split; vm_compute; reflexivity.
Qed.

(** Two vectors of length 3, neither of norm zero, and one of norm zero. *)
Lemma cosine_similarity_correct_witness :
  _calculateCosineSimilarity [3; 0; 4]%float [0; 5; 12]%float
  = (dot [3; 0; 4]%float [0; 5; 12]%float
     / (norm [3; 0; 4]%float * norm [0; 5; 12]%float))%float
  /\ _calculateCosineSimilarity [0; 0; 0]%float [0; 5; 12]%float = 0%float.
Proof.
  split.
  - exact (proj1 cosine_similarity_correct [3; 0; 4]%float [0; 5; 12]%float eq_refl).
  - exact (proj1 (proj2 cosine_similarity_correct) [0; 0; 0]%float [0; 5; 12]%float
             eq_refl (or_introl eq_refl)).
Defined.

(** C9.  An initialized store in which no vector was ever stored, so that
    its dimension is not fixed, takes a query vector of any positive length:
    [findSimilar] does not throw and returns the empty list. *)
Theorem findSimilar_before_any_store st queryVector limit threshold :
  reachable st -> initialized st = true -> dimensions st = None ->
  queryVector <> [] ->
  findSimilar queryVector limit threshold st = Return [].
Proof.
  intros Hr Hi Hd Hq.
  pose proof (reachable_consistent st Hr) as Hc. unfold consistent in Hc.
  rewrite Hd in Hc. destruct Hc as [Hv _].
  unfold findSimilar. rewrite Hi, Hd. simpl.
  destruct queryVector as [| x rest]; [contradiction |].
  change (Nat.eqb (length (x :: rest)) 0) with false. cbv iota.
  unfold similarities, rank, slice. rewrite Hv. simpl.
  now rewrite firstn_nil.
Qed.

(** A fresh store, initialized, asked with a query of length 7. *)
Lemma findSimilar_before_any_store_witness :
  findSimilar [1; 2; 3; 4; 5; 6; 7]%float (Some 5) (Some 0.5%float)
    (snd (initialize (create {| similarityThreshold := None |}))) = Return [].
Proof.
  apply findSimilar_before_any_store.
  - repeat constructor.
  - reflexivity.
  - reflexivity.
  - discriminate.
Defined.

(** *** Ranking *)

Import Binary64 FloatFacts.

(** The comparator puts [a] strictly ahead of [b] exactly when [b] is less
    similar than [a]. *)
Lemma by_similarity_negative a b :
  PrimFloat.ltb (by_similarity a b) 0 = PrimFloat.ltb (similarity b) (similarity a).
Proof. apply sub_negative. Qed.

Lemma sort_insert_Permutation {A : Type} (cmp : A -> A -> float) x l :
  Permutation (sort_insert cmp x l) (x :: l).
Proof.
  induction l as [| y rest IH]; simpl.
  - apply Permutation_refl.
  - destruct (PrimFloat.ltb (cmp x y) 0).
    + apply Permutation_refl.
    + apply perm_trans with (y :: x :: rest); [now apply perm_skip | apply perm_swap].
Qed.

Lemma sort_insert_numbers x l :
  number (similarity x) -> numbers l -> numbers (sort_insert by_similarity x l).
Proof.
  intros Hx Hl. unfold numbers.
  apply (Permutation_Forall (Permutation_sym (sort_insert_Permutation by_similarity x l))).
  now constructor.
Qed.

Lemma sort_insert_descending x l :
  number (similarity x) -> numbers l -> descending l ->
  descending (sort_insert by_similarity x l).
Proof.
  unfold descending. intros Hx Hl Hsorted.
  induction l as [| y rest IH]; simpl.
  - constructor; constructor.
  - inversion Hl as [| ? ? Hy Hrest]; subst.
    inversion Hsorted as [| ? ? Hsrest Hall]; subst.
    rewrite by_similarity_negative.
    destruct (PrimFloat.ltb (similarity y) (similarity x)) eqn:Hlt.
    + constructor; [exact Hsorted |].
      apply ltb_leb in Hlt. constructor; [exact Hlt |].
      eapply List.Forall_impl; [| exact Hall]. intros z Hz. simpl in Hz.
      now apply leb_trans with (similarity y).
    + constructor; [now apply IH |].
      apply (Permutation_Forall (Permutation_sym (sort_insert_Permutation by_similarity x rest))).
      constructor; [| exact Hall].
      rewrite (ltb_negb_leb _ _ Hy Hx) in Hlt. apply negb_false_iff in Hlt. exact Hlt.
Qed.

Lemma tied_at_cons v x l : tied_at v (x :: l) = (tied_at v [x] ++ tied_at v l)%list.
Proof. unfold tied_at. simpl. now destruct (PrimFloat.eqb (similarity x) v). Qed.

(** Nothing below a less similar entry ties with a more similar one. *)
Lemma tied_at_below v x y l :
  PrimFloat.ltb (similarity y) (similarity x) = true ->
  PrimFloat.eqb (similarity x) v = true ->
  Forall (fun z => PrimFloat.leb (similarity z) (similarity y) = true) l ->
  tied_at v l = [].
Proof.
  intros Hlt Heq Hall. unfold tied_at.
  induction Hall as [| z rest Hz Hrest IH]; [reflexivity |]. simpl.
  destruct (PrimFloat.eqb (similarity z) v) eqn:Hzv; [exfalso | exact IH].
  rewrite eqb_both_leb in Heq, Hzv.
  apply andb_prop in Heq as [Hxv _]. apply andb_prop in Hzv as [_ Hvz].
  assert (Hxy : PrimFloat.leb (similarity x) (similarity y) = true).
  { apply leb_trans with v; [exact Hxv |]. now apply leb_trans with (similarity z). }
  destruct (leb_numbers _ _ Hxy) as [Hx Hy].
  rewrite (ltb_negb_leb _ _ Hy Hx), Hxy in Hlt. discriminate.
Qed.

(** An entry is placed behind the entries it ties with. *)
Lemma sort_insert_tied_at v x l :
  number (similarity x) -> numbers l -> descending l ->
  tied_at v (sort_insert by_similarity x l) = (tied_at v l ++ tied_at v [x])%list.
Proof.
  unfold descending. intros Hx Hl Hsorted.
  induction l as [| y rest IH]; [reflexivity |]. simpl sort_insert.
  - inversion Hl as [| ? ? Hy Hrest]; subst.
    inversion Hsorted as [| ? ? Hsrest Hall]; subst.
    rewrite by_similarity_negative.
    destruct (PrimFloat.ltb (similarity y) (similarity x)) eqn:Hlt.
    + rewrite (tied_at_cons v x (y :: rest)).
      destruct (PrimFloat.eqb (similarity x) v) eqn:Heq.
      * rewrite (tied_at_below v x y (y :: rest) Hlt Heq); [now rewrite app_nil_r |].
        constructor; [exact Hy | exact Hall].
      * assert (Hx0 : tied_at v [x] = []) by (unfold tied_at; simpl; now rewrite Heq).
        rewrite Hx0. now rewrite app_nil_r.
    + rewrite (tied_at_cons v y (sort_insert by_similarity x rest)).
      rewrite (tied_at_cons v y rest). rewrite IH by assumption.
      now rewrite app_assoc.
Qed.

(** [sort] with the comparator of [findSimilar], on numbers: a stable sort
    in descending order. *)
Lemma fold_sort_insert l : forall placed,
  numbers placed -> numbers l -> descending placed ->
  let sorted := fold_left (fun placed x => sort_insert by_similarity x placed) l placed in
  Permutation sorted (placed ++ l)
  /\ descending sorted
  /\ forall v, tied_at v sorted = (tied_at v placed ++ tied_at v l)%list.
Proof.
  induction l as [| x l IH]; intros placed Hp Hl Hd; cbv zeta; simpl fold_left.
  - rewrite app_nil_r. split; [apply Permutation_refl | split; [exact Hd |]].
    intros v. unfold tied_at at 3. simpl. now rewrite app_nil_r.
  - inversion Hl as [| ? ? Hx Hl']; subst.
    destruct (IH (sort_insert by_similarity x placed)) as [Hperm [Hdesc Htied]].
    + now apply sort_insert_numbers.
    + exact Hl'.
    + now apply sort_insert_descending.
    + split; [| split; [exact Hdesc |]].
      * eapply perm_trans; [exact Hperm |].
        eapply perm_trans;
          [apply Permutation_app_tail, sort_insert_Permutation | apply Permutation_middle].
      * intros v. rewrite Htied, sort_insert_tied_at by assumption.
        rewrite (tied_at_cons v x l). now rewrite app_assoc.
Qed.

Lemma array_sort_by_similarity l :
  numbers l ->
  Permutation (array_sort by_similarity l) l
  /\ descending (array_sort by_similarity l)
  /\ forall v, tied_at v (array_sort by_similarity l) = tied_at v l.
Proof.
  intros Hl. unfold array_sort.
  destruct (fold_sort_insert l [] ltac:(constructor) Hl ltac:(constructor)) as [Hp [Hd Ht]].
  split; [exact Hp | split; [exact Hd | exact Ht]].
Qed.

(** What passes the threshold is a number. *)
Lemma similarities_numbers queryVector threshold st :
  numbers (similarities queryVector threshold st).
Proof.
  unfold numbers, similarities. apply List.Forall_forall. intros s Hs.
  apply filter_In in Hs as [_ Hs]. unfold at_least in Hs.
  destruct threshold as [t |]; [| discriminate].
  now apply leb_numbers in Hs.
Qed.

Lemma findSimilar_returns st queryVector limit threshold :
  initialized st = true -> queryVector <> [] ->
  dimensions st = None \/ dimensions st = Some (length queryVector) ->
  findSimilar queryVector limit threshold st
  = Return (rank (limit_or_default limit)
                 (similarities queryVector (threshold_or_default st threshold) st)).
Proof.
  intros Hi Hq Hd. unfold findSimilar. rewrite Hi. simpl.
  destruct queryVector as [| x rest]; [contradiction |].
  change (Nat.eqb (length (x :: rest)) 0) with false. cbv iota.
  destruct Hd as [-> | ->]; [reflexivity |]. now rewrite Nat.eqb_refl.
Qed.

(** C3, amended.  [findSimilar] on an initialized store returns the first
    [limit] entries of a list [sorted] that holds exactly the stored records
    whose cosine similarity to the query is at least the threshold, in
    descending order of similarity, entries of equal similarity in their
    insertion order.  For four vectors of similarities 0.9, 0.95, 0.2, 0.95,
    threshold 0.5 and limit 2, the result is the two 0.95 entries, the one
    inserted first ahead; the 0.9 entry follows them once the limit is 3. *)
Theorem findSimilar_ranking :
  (forall st queryVector limit threshold,
      initialized st = true -> queryVector <> [] ->
      dimensions st = None \/ dimensions st = Some (length queryVector) ->
      exists sorted,
        findSimilar queryVector limit threshold st
        = Return (firstn (limit_or_default limit) sorted)
        /\ (length (firstn (limit_or_default limit) sorted) <= limit_or_default limit)%nat
        /\ (forall s, In s sorted <->
                      In s (map (score queryVector st) (vectors st))
                      /\ at_least (threshold_or_default st threshold) s = true)
        /\ Permutation sorted
             (similarities queryVector (threshold_or_default st threshold) st)
        /\ descending sorted
        /\ (forall v, tied_at v sorted
                      = tied_at v (similarities queryVector
                                     (threshold_or_default st threshold) st)))
  /\ map (fun e => _calculateCosineSimilarity [1; 0]%float (snd e)) (vectors four_vectors)
     = [0.9; 0.95; 0.2; 0.95]%float
  /\ findSimilar [1; 0]%float (Some 2) (Some 0.5%float) four_vectors
     = Return [ {| scored_id := "v2"; similarity := 0.95;
                   scored_metadata := [("timestamp", JNum (num_of_Z 2))] |};
                {| scored_id := "v4"; similarity := 0.95;
                   scored_metadata := [("timestamp", JNum (num_of_Z 4))] |} ]
  /\ findSimilar [1; 0]%float (Some 3) (Some 0.5%float) four_vectors
     = Return [ {| scored_id := "v2"; similarity := 0.95;
                   scored_metadata := [("timestamp", JNum (num_of_Z 2))] |};
                {| scored_id := "v4"; similarity := 0.95;
                   scored_metadata := [("timestamp", JNum (num_of_Z 4))] |};
                {| scored_id := "v1"; similarity := 0.9;
                   scored_metadata := [("timestamp", JNum (num_of_Z 1))] |} ].
Proof.
  split; [| repeat split; vm_compute; reflexivity].
  intros st queryVector limit threshold Hi Hq Hd.
  set (retained := similarities queryVector (threshold_or_default st threshold) st).
  destruct (array_sort_by_similarity retained (similarities_numbers _ _ _))
    as [Hperm [Hdesc Htied]].
  exists (array_sort by_similarity retained).
  split; [| split; [| split; [| split; [| split]]]].
  - rewrite (findSimilar_returns st queryVector limit threshold Hi Hq Hd).
    unfold rank, slice. simpl. now rewrite Nat.sub_0_r.
  - apply firstn_le_length.
  - intros s. split.
    + intros Hs. apply (Permutation_in _ Hperm) in Hs.
      unfold retained, similarities in Hs. now apply filter_In in Hs.
    + intros Hs. apply (Permutation_in _ (Permutation_sym Hperm)).
      unfold retained, similarities. now apply filter_In.
  - exact Hperm.
  - exact Hdesc.
  - exact Htied.
Qed.

(** The store of the four vectors, asked for its default ten results at its
    configured threshold 0.8. *)
Lemma findSimilar_ranking_witness :
  exists sorted,
    findSimilar [1; 0]%float None None four_vectors = Return (firstn 10 sorted)
    /\ Permutation sorted (similarities [1; 0]%float (Some 0.8%float) four_vectors)
    /\ descending sorted.
Proof.
  destruct (proj1 findSimilar_ranking four_vectors [1; 0]%float None None
              eq_refl ltac:(discriminate) (or_intror eq_refl))
    as [sorted [Hret [_ [_ [Hperm [Hdesc _]]]]]].
  exists sorted. split; [exact Hret | split; [exact Hperm | exact Hdesc]].
Defined.

(** C3 as worded has the 0.9 entry among the results at limit 2: it is not
    there, the results are the two 0.95 entries alone. *)
Lemma findSimilar_limit_two_drops_the_lower_tier :
  map (fun e => _calculateCosineSimilarity [1; 0]%float (snd e)) (vectors four_vectors)
  = [0.9; 0.95; 0.2; 0.95]%float
  /\ exists result,
       findSimilar [1; 0]%float (Some 2) (Some 0.5%float) four_vectors = Return result
       /\ map scored_id result = ["v2"; "v4"]
       /\ map similarity result = [0.95; 0.95]%float
       /\ ~ In "v1" (map scored_id result).
Proof.
  split; [vm_compute; reflexivity |].
  eexists. split; [vm_compute; reflexivity |].
  split; [reflexivity | split; [reflexivity |]].
  simpl. intros [H | [H | []]]; discriminate.
Qed.

End VectorStoreFacts.

(** ** The embedding service *)
Module EmbeddingServiceFacts.
Import EmbeddingService.

(** *** Preprocessing *)

Lemma substring_0_length n s : String.length (String.substring 0 n s) <= n.
Proof.
  revert s. induction n as [| n IH]; intros [| c s]; simpl; try lia.
  specialize (IH s). lia.
Qed.

Lemma substring_0_short n s : String.length s <= n -> String.substring 0 n s = s.
Proof.
  revert s. induction n as [| n IH]; intros [| c s]; simpl; intros Hlen;
    try reflexivity; try lia.
  f_equal. apply IH. lia.
Qed.

Lemma trimStart_length s : String.length (trimStart s) <= String.length s.
Proof.
  induction s as [| c s IH]; simpl; [lia |].
  destruct (is_whitespace c); simpl; lia.
Qed.

Lemma trimEnd_length s : String.length (trimEnd s) <= String.length s.
Proof.
  induction s as [| c s IH]; simpl; [lia |].
  destruct (trimEnd s); [destruct (is_whitespace c) |]; simpl in *; lia.
Qed.

Lemma replace_runs_length b s : String.length (replace_runs b s) <= String.length s.
Proof.
  revert b. induction s as [| c s IH]; intros b; simpl; [lia |].
  destruct (is_whitespace c); [destruct b |]; simpl;
    [specialize (IH true) | specialize (IH true) | specialize (IH false)]; lia.
Qed.

Lemma replace_runs_single_spaced s : forall b, single_spaced b (replace_runs b s).
Proof.
  induction s as [| c s IH]; intros b; simpl; [exact I |].
  destruct (is_whitespace c) eqn:Hc.
  - destruct b; [apply IH |]. simpl. repeat split. apply IH.
  - simpl. rewrite Hc. apply IH.
Qed.

Lemma replace_runs_fixes_single_spaced s :
  forall b, single_spaced b s -> replace_runs b s = s.
Proof.
  induction s as [| c s IH]; intros b Hs; simpl in *; [reflexivity |].
  destruct (is_whitespace c).
  - destruct Hs as [-> [-> Hs]]. f_equal. now apply IH.
  - f_equal. now apply IH.
Qed.

Lemma trimStart_starts_clean s : starts_clean (trimStart s).
Proof.
  induction s as [| c s IH]; simpl; [exact I |].
  destruct (is_whitespace c) eqn:Hc; [exact IH | exact Hc].
Qed.

Lemma trimStart_fixes s : starts_clean s -> trimStart s = s.
Proof. destruct s as [| c s]; simpl; [reflexivity |]. now intros ->. Qed.

Lemma trimEnd_starts_clean s : starts_clean s -> starts_clean (trimEnd s).
Proof.
  destruct s as [| c s]; simpl; [exact id |]. intros Hc.
  destruct (trimEnd s); [rewrite Hc |]; exact Hc.
Qed.

(** What it is for [trimEnd] to leave a non-empty string alone. *)
Lemma trimEnd_fixes_cons c s :
  trimEnd (String c s) = String c s <->
  (s = EmptyString /\ is_whitespace c = false) \/ (s <> EmptyString /\ trimEnd s = s).
Proof.
  simpl. split.
  - intros H. destruct (trimEnd s) as [| c' kept] eqn:Hs.
    + destruct (is_whitespace c); [discriminate |].
      injection H as <-. now left.
    + injection H as <-. right. split; [discriminate | reflexivity].
  - intros [[-> Hc] | [Hne Hs]].
    + simpl. now rewrite Hc.
    + rewrite Hs. destruct s; [contradiction | reflexivity].
Qed.

Lemma trimEnd_idempotent s : trimEnd (trimEnd s) = trimEnd s.
Proof.
  induction s as [| c s IH]; simpl; [reflexivity |].
  destruct (trimEnd s) as [| c' kept] eqn:Hs.
  - destruct (is_whitespace c) eqn:Hc; simpl; [reflexivity | now rewrite Hc].
  - apply trimEnd_fixes_cons. right. split; [discriminate | exact IH].
Qed.

Lemma replace_runs_nonempty s :
  forall b, trimEnd s = s -> s <> EmptyString -> replace_runs b s <> EmptyString.
Proof.
  induction s as [| c s IH]; intros b Hs Hne; [contradiction |].
  simpl. destruct (is_whitespace c) eqn:Hc.
  - apply trimEnd_fixes_cons in Hs as [[_ Hc'] | [Hne' Hs']]; [congruence |].
    destruct b; [now apply IH | discriminate].
  - discriminate.
Qed.

Lemma trimEnd_fixes_replace_runs s :
  forall b, trimEnd s = s -> trimEnd (replace_runs b s) = replace_runs b s.
Proof.
  induction s as [| c s IH]; intros b Hs; [reflexivity |].
  apply trimEnd_fixes_cons in Hs as [[-> Hc] | [Hne Hs]].
  - simpl. rewrite Hc. simpl. now rewrite Hc.
  - simpl replace_runs. destruct (is_whitespace c); [destruct b |].
    + now apply IH.
    + apply trimEnd_fixes_cons. right. split; [now apply replace_runs_nonempty | now apply IH].
    + apply trimEnd_fixes_cons. right. split; [now apply replace_runs_nonempty | now apply IH].
Qed.

Lemma starts_clean_replace_runs s : starts_clean s -> starts_clean (replace_runs false s).
Proof. destruct s as [| c s]; simpl; [exact id |]. intros Hc. rewrite Hc. exact Hc. Qed.

(** The text a string is preprocessed to is left as it is by each of the
    three steps. *)
Lemma preprocessed_is_fixed n s :
  let t := replace_runs false (trim (String.substring 0 n s)) in
  String.substring 0 n t = t /\ trim t = t /\ replace_runs false t = t.
Proof.
  intros t. subst t. set (u := String.substring 0 n s).
  split; [| split].
  - apply substring_0_short.
    pose proof (replace_runs_length false (trim u)).
    pose proof (trimEnd_length (trimStart u)). pose proof (trimStart_length u).
    pose proof (substring_0_length n s). unfold trim, u in *. lia.
  - unfold trim at 1. rewrite trimStart_fixes.
    + apply trimEnd_fixes_replace_runs. unfold trim. apply trimEnd_idempotent.
    + apply starts_clean_replace_runs. unfold trim.
      apply trimEnd_starts_clean, trimStart_starts_clean.
  - apply replace_runs_fixes_single_spaced, replace_runs_single_spaced.
Qed.

(** C6.  The preprocessing of the embedding service, which truncates to
    the maximum length, trims both ends and replaces every run of white
    space by one space, depends on nothing but the text and that maximum
    length, and preprocessing its own result changes nothing. *)
Theorem _preprocessText_idempotent :
  (forall svc svc' x,
      maxTextLength svc = maxTextLength svc' ->
      _preprocessText svc x = _preprocessText svc' x)
  /\ (forall svc x,
        _preprocessText svc (JStr (_preprocessText svc x)) = _preprocessText svc x).
Proof.
  split.
  - intros svc svc' x Hmax. unfold _preprocessText. now rewrite Hmax.
  - intros svc x.
    assert (Hempty : _preprocessText svc (JStr "") = "").
    { unfold _preprocessText. rewrite substring_0_short by (simpl; lia). reflexivity. }
    destruct x as [| | b | f | s | items | fields]; try exact Hempty.
    unfold _preprocessText.
    destruct (preprocessed_is_fixed (maxTextLength svc) s) as [Hcut [Htrim Hruns]].
    rewrite Hcut, Htrim, Hruns. reflexivity.
Qed.

(** The constructor's limit of 8192 code units, on a text with white space
    at both ends and inside. *)
Lemma _preprocessText_idempotent_witness :
  let svc := create 64 30000 in
  _preprocessText svc (JStr "  two   words ") = "two words"
  /\ _preprocessText svc (JStr "  two   words ")
     = _preprocessText {| maxBatchSize := 1; requestTimeout := 5; maxTextLength := 8192;
                          initialized := true |} (JStr "  two   words ")
  /\ _preprocessText svc (JStr (_preprocessText svc (JStr "  two   words ")))
     = _preprocessText svc (JStr "  two   words ").
Proof.
  split; [vm_compute; reflexivity |]. split.
  - exact (proj1 _preprocessText_idempotent (create 64 30000)
             {| maxBatchSize := 1; requestTimeout := 5; maxTextLength := 8192;
                initialized := true |} (JStr "  two   words ") eq_refl).
  - exact (proj2 _preprocessText_idempotent (create 64 30000) (JStr "  two   words ")).
Defined.

(** *** Batches *)

Section Batches.
Variable backend : list api_input -> api_input -> fetch_outcome.
Variable svc : t.
Hypothesis Hinitialized : initialized svc = true.

(** An array that is not empty and not longer than the maximum batch size
    goes out as one request, whatever its elements are. *)
Lemma generateBatchEmbeddings_one_request depth items sent :
  items <> [] -> length items <= maxBatchSize svc ->
  generateBatchEmbeddings backend (S depth) svc (JArr items) sent
  = Some (one_request backend svc items sent).
Proof.
  intros Hne Hlen. cbn [generateBatchEmbeddings]. rewrite Hinitialized. cbn [negb].
  destruct items as [| x rest]; [contradiction |].
  change (Nat.eqb (length (x :: rest)) 0) with false. cbv iota.
  apply Nat.ltb_ge in Hlen. rewrite Hlen. unfold one_request.
  destruct (_callApi backend svc _ sent) as [[e | m] sent']; reflexivity.
Qed.

(** The chunk the loop cuts at index [i]. *)
Lemma slice_chunk (items : list jsval) i step :
  i < length items -> 1 <= step ->
  slice i (i + step) items = firstn step (skipn i items)
  /\ slice i (i + step) items <> []
  /\ length (slice i (i + step) items) <= step.
Proof.
  intros Hi Hstep. unfold slice. replace (i + step - i) with step by lia.
  split; [reflexivity |]. split.
  - intros Hnil. apply (f_equal (@length jsval)) in Hnil.
    rewrite length_firstn, length_skipn in Hnil. simpl in Hnil. lia.
  - rewrite length_firstn. lia.
Qed.

Lemma skipn_past_chunk (items : list jsval) i step :
  (firstn step (skipn i items) ++ skipn (i + step) items)%list = skipn i items.
Proof.
  rewrite (Nat.add_comm i step), <- skipn_skipn. apply firstn_skipn.
Qed.

(** The loop over the chunks when every request is answered with one vector
    per text: the requests are the chunks, one after the other, and the
    results are the vectors of all the texts from [i] on. *)
Lemma chunk_loop_answered (emb : string -> jsval) depth items :
  (forall sent ps, backend sent (Many ps) = Answered (map emb ps)) ->
  1 <= maxBatchSize svc ->
  forall budget i results sent,
    length items - i <= budget ->
    exists chunks,
      chunk_loop (generateBatchEmbeddings backend (S depth) svc) (maxBatchSize svc)
                 items budget i results sent
      = Some (Return (results ++ map emb (concat chunks))%list,
              (sent ++ map Many chunks)%list)
      /\ concat chunks = map (_preprocessText svc) (skipn i items)
      /\ Forall (fun c => 1 <= length c <= maxBatchSize svc) chunks.
Proof.
  intros Hbackend Hmax.
  induction budget as [| budget IH]; intros i results sent Hbudget.
  - exists []. cbn [chunk_loop map concat]. assert (Hi : (i <? length items)%nat = false) by (apply Nat.ltb_ge; lia).
    rewrite Hi, !app_nil_r. split; [reflexivity |]. split; [| constructor].
    rewrite skipn_all2 by lia. reflexivity.
  - cbn [chunk_loop]. destruct (i <? length items)%nat eqn:Hi.
    + apply Nat.ltb_lt in Hi.
      destruct (slice_chunk items i (maxBatchSize svc) Hi Hmax) as [Hchunk [Hne Hlen]].
      rewrite (generateBatchEmbeddings_one_request depth _ sent Hne Hlen).
      unfold one_request, _callApi. rewrite Hbackend.
      set (chunk := slice i (i + maxBatchSize svc) items) in *.
      destruct (IH (i + maxBatchSize svc)
                   (results ++ map emb (map (_preprocessText svc) chunk))%list
                   (sent ++ [Many (map (_preprocessText svc) chunk)])%list
                   ltac:(lia)) as [chunks [Hloop [Hconcat Hall]]].
      exists (map (_preprocessText svc) chunk :: chunks).
      rewrite Hloop. cbn [map concat]. split; [| split].
      * rewrite map_app, <- !app_assoc. reflexivity.
      * rewrite Hconcat, <- map_app. f_equal. rewrite Hchunk. apply skipn_past_chunk.
      * constructor; [| exact Hall]. rewrite length_map.
        split; [| exact Hlen]. destruct chunk; [contradiction | simpl; lia].
    + apply Nat.ltb_ge in Hi. exists []. cbn [map concat]. rewrite !app_nil_r.
      split; [reflexivity |]. split; [| constructor].
      rewrite skipn_all2 by lia. reflexivity.
Qed.

Lemma one_request_past_the_checks items sent :
  past_the_checks (fst (one_request backend svc items sent)).
Proof.
  unfold one_request. destruct (_callApi backend svc _ sent) as [[e | m] sent']; simpl.
  - exact I.
  - now exists m.
Qed.

(** The loop over the chunks, whatever the backend answers. *)
Lemma chunk_loop_past_the_checks depth items :
  1 <= maxBatchSize svc ->
  forall budget i results sent,
    length items - i <= budget ->
    exists o sent',
      chunk_loop (generateBatchEmbeddings backend (S depth) svc) (maxBatchSize svc)
                 items budget i results sent = Some (o, sent')
      /\ past_the_checks o.
Proof.
  intros Hmax.
  induction budget as [| budget IH]; intros i results sent Hbudget.
  - cbn [chunk_loop]. assert (Hi : (i <? length items)%nat = false) by (apply Nat.ltb_ge; lia).
    rewrite Hi. exists (Return results), sent. split; [reflexivity | exact I].
  - cbn [chunk_loop]. destruct (i <? length items)%nat eqn:Hi.
    + apply Nat.ltb_lt in Hi.
      destruct (slice_chunk items i (maxBatchSize svc) Hi Hmax) as [_ [Hne Hlen]].
      rewrite (generateBatchEmbeddings_one_request depth _ sent Hne Hlen).
      pose proof (one_request_past_the_checks (slice i (i + maxBatchSize svc) items) sent)
        as Hpast.
      destruct (one_request backend svc _ sent) as [[chunkResults | message] sent1]; simpl in Hpast.
      * apply IH. lia.
      * exists (Throw message), sent1. split; [reflexivity | exact Hpast].
    + exists (Return results), sent. split; [reflexivity | exact I].
Qed.

End Batches.

Lemma past_the_checks_not_invalid o :
  past_the_checks o -> o <> Throw invalid_texts /\ o <> Throw invalid_text.
Proof.
  destruct o as [v | message]; simpl.
  - intros _. split; discriminate.
  - intros [cause ->]. split; discriminate.
Qed.

Lemma chunks_of_one {A : Type} (chunks : list (list A)) :
  Forall (fun c => 1 <= length c <= 1) chunks ->
  chunks = map (fun x => [x]) (concat chunks).
Proof.
  induction 1 as [| c chunks Hc Hall IH]; [reflexivity |].
  destruct c as [| x [| y c]]; simpl in Hc; try lia.
  simpl. now rewrite <- IH.
Qed.

(** C5.  With a backend that answers a request for an array of texts with
    one vector per text, an initialized service and a maximum batch size of
    at least 1, an array longer than the maximum is sent as a sequence of
    requests, each a chunk of at least one and at most the maximum number of
    preprocessed texts, whose concatenation is the preprocessed array; the
    result is the array of the vectors in the order of the texts, the n-th
    for the n-th text.  With a maximum of 1 there is one request per text. *)
Theorem generateBatchEmbeddings_chunked backend emb svc items sent depth :
  (forall sent ps, backend sent (Many ps) = Answered (map emb ps)) ->
  initialized svc = true ->
  1 <= maxBatchSize svc ->
  maxBatchSize svc < length items ->
  (exists chunks,
      generateBatchEmbeddings backend (S (S depth)) svc (JArr items) sent
      = Some (Return (map emb (concat chunks)), (sent ++ map Many chunks)%list)
      /\ concat chunks = map (_preprocessText svc) items
      /\ Forall (fun c => 1 <= length c <= maxBatchSize svc) chunks
      /\ forall n,
           nth_error (map emb (concat chunks)) n
           = option_map (fun text => emb (_preprocessText svc text)) (nth_error items n))
  /\ (maxBatchSize svc = 1 ->
      generateBatchEmbeddings backend (S (S depth)) svc (JArr items) sent
      = Some (Return (map (fun text => emb (_preprocessText svc text)) items),
              (sent ++ map (fun text => Many [_preprocessText svc text]) items)%list)).
Proof.
  intros Hbackend Hinit Hmax Hlong.
  assert (Hrun : generateBatchEmbeddings backend (S (S depth)) svc (JArr items) sent
                 = chunk_loop (generateBatchEmbeddings backend (S depth) svc)
                              (maxBatchSize svc) items (length items) 0 [] sent).
  { cbn [generateBatchEmbeddings]. rewrite Hinit. cbn [negb].
    destruct items as [| x rest]; [simpl in Hlong; lia |].
    change (Nat.eqb (length (x :: rest)) 0) with false. cbv iota.
    apply Nat.ltb_lt in Hlong. now rewrite Hlong. }
  destruct (chunk_loop_answered backend svc Hinit emb depth items Hbackend Hmax
              (length items) 0 [] sent ltac:(lia)) as [chunks [Hloop [Hconcat Hall]]].
  change (skipn 0 items) with items in Hconcat.
  change ([] ++ map emb (concat chunks))%list with (map emb (concat chunks)) in Hloop.
  split.
  - exists chunks. rewrite Hrun, Hloop. split; [reflexivity |].
    split; [exact Hconcat |]. split; [exact Hall |].
    intros n. rewrite Hconcat, map_map. apply nth_error_map.
  - intros Hone. rewrite Hrun, Hloop, Hconcat. rewrite Hone in Hall.
    rewrite (chunks_of_one chunks Hall), Hconcat, !map_map. reflexivity.
Qed.

(** The texts "a", "b", "c" at a maximum batch size of 1. *)
Lemma generateBatchEmbeddings_chunked_witness :
  generateBatchEmbeddings (answering length_vector) 2
    {| maxBatchSize := 1; requestTimeout := 30000; maxTextLength := 8192;
       initialized := true |}
    (JArr [JStr "a"; JStr "b"; JStr "c"]) []
  = Some (Return [length_vector "a"; length_vector "b"; length_vector "c"],
          [Many ["a"]; Many ["b"]; Many ["c"]]).
Proof.
  exact (proj2 (generateBatchEmbeddings_chunked (answering length_vector) length_vector
                  {| maxBatchSize := 1; requestTimeout := 30000; maxTextLength := 8192;
                     initialized := true |}
                  [JStr "a"; JStr "b"; JStr "c"] [] 0
                  (fun _ _ => eq_refl) eq_refl (le_n 1) ltac:(simpl; lia))
               eq_refl).
Defined.

Lemma not_a_text_preprocessed svc x : not_a_text x = true -> _preprocessText svc x = "".
Proof.
  destruct x as [| | b | f | s | items | fields]; try reflexivity.
  simpl. intros Hs. apply String.eqb_eq in Hs. subst s.
  rewrite substring_0_short by (simpl; lia). reflexivity.
Qed.

(** C10.  Of its argument [generateBatchEmbeddings] checks only that it is
    a non-empty array.  Every element is preprocessed, an empty string and
    what is not a string to the empty string, and the array is sent; neither
    invalid-input error is thrown.  [generateEmbedding] throws its
    invalid-input error for an empty string and for what is not a string. *)
Theorem generateBatchEmbeddings_checks_no_element backend svc :
  initialized svc = true ->
  1 <= maxBatchSize svc ->
  (forall items sent depth,
      items <> [] -> length items <= maxBatchSize svc ->
      generateBatchEmbeddings backend (S depth) svc (JArr items) sent
      = Some (one_request backend svc items sent))
  /\ (forall x, not_a_text x = true -> _preprocessText svc x = "")
  /\ (forall items sent depth,
        items <> [] ->
        exists o sent',
          generateBatchEmbeddings backend (S (S depth)) svc (JArr items) sent = Some (o, sent')
          /\ o <> Throw invalid_texts /\ o <> Throw invalid_text)
  /\ (forall x sent,
        not_a_text x = true ->
        generateEmbedding backend svc x sent = (Throw invalid_text, sent)).
Proof.
  intros Hinit Hmax. split; [| split; [| split]].
  - intros items sent depth Hne Hlen.
    now apply generateBatchEmbeddings_one_request.
  - intros x. apply not_a_text_preprocessed.
  - intros items sent depth Hne.
    destruct (le_lt_dec (length items) (maxBatchSize svc)) as [Hshort | Hlong].
    + rewrite (generateBatchEmbeddings_one_request backend svc Hinit (S depth) items sent
                 Hne Hshort).
      pose proof (one_request_past_the_checks backend svc items sent) as Hpast.
      destruct (one_request backend svc items sent) as [o sent'].
      exists o, sent'. split; [reflexivity |]. now apply past_the_checks_not_invalid.
    + assert (Hrun : generateBatchEmbeddings backend (S (S depth)) svc (JArr items) sent
                     = chunk_loop (generateBatchEmbeddings backend (S depth) svc)
                                  (maxBatchSize svc) items (length items) 0 [] sent).
      { cbn [generateBatchEmbeddings]. rewrite Hinit. cbn [negb].
        destruct items as [| x rest]; [contradiction |].
        change (Nat.eqb (length (x :: rest)) 0) with false. cbv iota.
        apply Nat.ltb_lt in Hlong. now rewrite Hlong. }
      destruct (chunk_loop_past_the_checks backend svc Hinit depth items Hmax
                  (length items) 0 [] sent ltac:(lia)) as [o [sent' [Hloop Hpast]]].
      exists o, sent'. rewrite Hrun. split; [exact Hloop |].
      now apply past_the_checks_not_invalid.
  - intros x sent Hx. unfold generateEmbedding. rewrite Hinit, Hx. reflexivity.
Qed.

(** A batch of an empty string, a number and a text is sent as it is
    preprocessed; the empty string alone is refused by [generateEmbedding]. *)
Lemma generateBatchEmbeddings_checks_no_element_witness :
  let svc := {| maxBatchSize := 64; requestTimeout := 30000; maxTextLength := 8192;
                initialized := true |} in
  generateBatchEmbeddings (answering length_vector) 1 svc
    (JArr [JStr ""; JNum 1; JStr "x"]) []
  = Some (Return [length_vector ""; length_vector ""; length_vector "x"],
          [Many [""; ""; "x"]])
  /\ generateEmbedding (answering length_vector) svc (JStr "") [] = (Throw invalid_text, [])
  /\ generateEmbedding (answering length_vector) svc (JNum 1) [] = (Throw invalid_text, []).
Proof.
  pose proof (generateBatchEmbeddings_checks_no_element (answering length_vector)
                {| maxBatchSize := 64; requestTimeout := 30000; maxTextLength := 8192;
                   initialized := true |} eq_refl ltac:(simpl; lia))
    as [Hsent [_ [_ Hone]]].
  split; [| split].
  - exact (Hsent [JStr ""; JNum 1; JStr "x"] [] 0 ltac:(discriminate) ltac:(simpl; lia)).
  - exact (Hone (JStr "") [] eq_refl).
  - exact (Hone (JNum 1) [] eq_refl).
Defined.

End EmbeddingServiceFacts.

(** ** The file agent *)
Module FileAgentFacts.
Import FileAgent.

(** *** The read-through cache *)

Section Cache.
Variable fs_readFile : string -> Z -> fs_result.
Variable agent : t.

Lemma readFile_hit path e w :
  path <> "" -> fileCache w !! path = Some e ->
  (clock w - timestamp e < cacheTTL agent)%Z ->
  readFile fs_readFile agent path w
  = (Return {| read_path := path; read_content := content e;
               read_metadata := cached_metadata e; fromCache := true;
               read_timestamp := clock w |}, w).
Proof.
  intros Hpath Hget Hfresh. unfold readFile, readFile_launch.
  apply String.eqb_neq in Hpath. rewrite Hpath, Hget.
  apply Z.ltb_lt in Hfresh. rewrite Hfresh. reflexivity.
Qed.

Lemma readFile_stale path w :
  path <> "" -> stale agent path w -> view_registered agent = true ->
  readFile fs_readFile agent path w
  = match fs_readFile path (clock w) with
    | FileContent text =>
        (Return {| read_path := path; read_content := text;
                   read_metadata := cached_metadata (entry_of text (clock w));
                   fromCache := false; read_timestamp := clock w |},
         after_fresh_read path text w)
    | FileError message =>
        (Throw ("Failed to read file " ++ path ++ ": Failed to read file: " ++ message),
         after_failed_read path w)
    end.
Proof.
  intros Hpath Hstale Hview. unfold readFile, readFile_launch, stale in *.
  apply String.eqb_neq in Hpath. rewrite Hpath, Hview.
  destruct w as [now cache rds snt mem evs]. simpl in *.
  unfold after_fresh_read, after_failed_read, entry_of. simpl.
  destruct (cache !! path) as [e |] eqn:Hget.
  - apply Z.ltb_ge in Hstale. rewrite Hstale. simpl.
    unfold viewTool_execute. rewrite Hpath. simpl.
    destruct (fs_readFile path now) as [text | message]; simpl.
    + unfold with_fileCache. simpl. now rewrite insert_delete_eq.
    + reflexivity.
  - simpl. unfold viewTool_execute. rewrite Hpath. simpl.
    destruct (fs_readFile path now) as [text | message]; simpl.
    + reflexivity.
    + unfold with_reads, with_fileCache. simpl. now rewrite (delete_id _ _ Hget).
Qed.

End Cache.

(** C7.  For a non-empty path, [readFile] returns the cached content, with
    [fromCache: true] and no change of state, exactly when the cache holds an
    entry for the path and the clock minus the entry's [timestamp] is less
    than the time to live.  Otherwise the entry, if any, is deleted and the
    view tool reads the file: on success the text is cached at the clock
    reading and returned with [fromCache: false]; on failure [readFile]
    throws and the path is left without entry.  So after a first read at
    [clock w], a read at a clock reading less than the time to live later is
    served from the cache, and a read at a later one reads the file again. *)
Theorem readFile_cache_ttl fs_readFile agent path w :
  path <> "" -> view_registered agent = true ->
  (forall e, fileCache w !! path = Some e ->
             (clock w - timestamp e < cacheTTL agent)%Z ->
             readFile fs_readFile agent path w
             = (Return {| read_path := path; read_content := content e;
                          read_metadata := cached_metadata e; fromCache := true;
                          read_timestamp := clock w |}, w))
  /\ (stale agent path w ->
      readFile fs_readFile agent path w
      = match fs_readFile path (clock w) with
        | FileContent text =>
            (Return {| read_path := path; read_content := text;
                       read_metadata := cached_metadata (entry_of text (clock w));
                       fromCache := false; read_timestamp := clock w |},
             after_fresh_read path text w)
        | FileError message =>
            (Throw ("Failed to read file " ++ path ++ ": Failed to read file: " ++ message),
             after_failed_read path w)
        end)
  /\ (forall text,
        stale agent path w -> fs_readFile path (clock w) = FileContent text ->
        let w1 := snd (readFile fs_readFile agent path w) in
        (forall now,
            (now - clock w < cacheTTL agent)%Z ->
            exists r,
              readFile fs_readFile agent path (with_clock now w1)
              = (Return r, with_clock now w1)
              /\ fromCache r = true /\ read_content r = text)
        /\ (forall now text',
              (cacheTTL agent <= now - clock w)%Z ->
              fs_readFile path now = FileContent text' ->
              exists r w2,
                readFile fs_readFile agent path (with_clock now w1) = (Return r, w2)
                /\ fromCache r = false /\ read_content r = text'
                /\ reads w2 = (reads w1 ++ [path])%list
                /\ fileCache w2 !! path = Some (entry_of text' now))).
Proof.
  intros Hpath Hview. split; [| split].
  - intros e Hget Hfresh. now apply readFile_hit.
  - intros Hstale. now apply readFile_stale.
  - intros text Hstale Hread w1.
    assert (Hw1 : w1 = after_fresh_read path text w).
    { unfold w1. rewrite (readFile_stale fs_readFile agent path w Hpath Hstale Hview).
      now rewrite Hread. }
    assert (Hget : forall now,
               fileCache (with_clock now w1) !! path = Some (entry_of text (clock w))).
    { intros now. rewrite Hw1. simpl. apply lookup_insert_eq. }
    split.
    + intros now Hnow. eexists. split; [| split].
      * apply (readFile_hit fs_readFile agent path _ _ Hpath (Hget now)). simpl. exact Hnow.
      * reflexivity.
      * reflexivity.
    + intros now text' Hnow Hread'.
      assert (Hstale' : stale agent path (with_clock now w1)).
      { unfold stale. rewrite (Hget now). simpl. exact Hnow. }
      rewrite (readFile_stale fs_readFile agent path _ Hpath Hstale' Hview).
      simpl clock. rewrite Hread'.
      eexists. eexists. split; [reflexivity |].
      split; [reflexivity |]. split; [reflexivity |]. split; [reflexivity |].
      simpl. apply lookup_insert_eq.
Qed.

(** A file read at clock 0 by an agent with the 30 minutes of the
    constructor, read again one millisecond before they are over and once
    they are over. *)
Lemma readFile_cache_ttl_witness :
  let w1 := snd (readFile third_unreadable indexing_agent "f1" (fresh_world 0)) in
  (exists r,
      readFile third_unreadable indexing_agent "f1" (with_clock 1799999 w1)
      = (Return r, with_clock 1799999 w1)
      /\ fromCache r = true /\ read_content r = "text of f1")
  /\ (exists r w2,
        readFile third_unreadable indexing_agent "f1" (with_clock 1800000 w1) = (Return r, w2)
        /\ fromCache r = false /\ read_content r = "text of f1"
        /\ reads w2 = (reads w1 ++ ["f1"])%list
        /\ fileCache w2 !! "f1" = Some (entry_of "text of f1" 1800000)).
Proof.
  destruct (readFile_cache_ttl third_unreadable indexing_agent "f1" (fresh_world 0)
              ltac:(discriminate) eq_refl) as [_ [_ Hscenario]].
  destruct (Hscenario "text of f1" I eq_refl) as [Hhit Hmiss].
  split.
  - exact (Hhit 1799999%Z eq_refl).
  - exact (Hmiss 1800000%Z "text of f1" ltac:(discriminate) eq_refl).
Defined.

(** *** The indexing loop *)

Section Indexing.
Variable fs_readFile : string -> Z -> fs_result.
Variable backend :
  list EmbeddingService.api_input -> EmbeddingService.api_input -> EmbeddingService.fetch_outcome.
Variable storeMemory : list string -> string -> option string.
Variable agent : t.
Variable svc : EmbeddingService.t.

Lemma readFile_launch_events path w :
  events (snd (readFile_launch fs_readFile agent path w)) = events w.
Proof.
  unfold readFile_launch. destruct (String.eqb path ""); [reflexivity |].
  destruct (fileCache w !! path) as [e |].
  - destruct (clock w - timestamp e <? cacheTTL agent)%Z; [reflexivity |].
    destruct (view_registered agent); [| reflexivity]. simpl.
    unfold viewTool_execute. destruct (String.eqb path ""); [reflexivity |].
    simpl. destruct (fs_readFile path (clock w)); reflexivity.
  - destruct (view_registered agent); [| reflexivity]. simpl.
    unfold viewTool_execute. destruct (String.eqb path ""); [reflexivity |].
    destruct (fs_readFile path (clock w)); reflexivity.
Qed.

Lemma _indexSingleFile_launch_events path w :
  events (snd (_indexSingleFile_launch fs_readFile agent path w))
  = (events w ++ [Launch path])%list.
Proof. unfold _indexSingleFile_launch. now rewrite readFile_launch_events. Qed.

Lemma readFile_resume_events path p w :
  events (snd (readFile_resume path p w)) = events w.
Proof. destruct p as [r | [data | error]]; reflexivity. Qed.

Lemma index_content_spec path r w :
  events (snd (index_content backend storeMemory svc path r w)) = events w
  /\ reports path (fst (index_content backend storeMemory svc path r w)).
Proof.
  unfold index_content.
  destruct (EmbeddingService.generateEmbedding backend svc _ (sent w)) as [[e | m] sent'].
  - destruct (storeMemory _ _); simpl.
    + split; [reflexivity | intros d; discriminate].
    + split; [reflexivity |]. intros d Hd. injection Hd as <-. split; reflexivity.
  - simpl. split; [reflexivity | intros d; discriminate].
Qed.

Lemma _indexSingleFile_resume_spec path p w :
  let r := fst (_indexSingleFile_resume backend storeMemory svc path p w) in
  events (snd (_indexSingleFile_resume backend storeMemory svc path p w))
  = (events w ++ [Settle path r])%list
  /\ reports path r.
Proof.
  unfold _indexSingleFile_resume.
  pose proof (readFile_resume_events path p w) as Hread.
  destruct (readFile_resume path p w) as [[readResult | message] w1]; simpl in Hread.
  - pose proof (index_content_spec path readResult w1) as [Hev Hpath].
    destruct (index_content backend storeMemory svc path readResult w1) as [settled w2].
    simpl in *. rewrite Hev, Hread. split; [reflexivity | exact Hpath].
  - simpl. rewrite Hread. split; [reflexivity | intros d; discriminate].
Qed.

Lemma launch_all_spec batch : forall w,
  length (fst (launch_all fs_readFile agent batch w)) = length batch
  /\ events (snd (launch_all fs_readFile agent batch w))
     = (events w ++ map Launch batch)%list.
Proof.
  induction batch as [| file rest IH]; intros w; simpl.
  - now rewrite app_nil_r.
  - pose proof (_indexSingleFile_launch_events file w) as Hev.
    destruct (_indexSingleFile_launch fs_readFile agent file w) as [p w1].
    destruct (IH w1) as [Hlen Hevs].
    destruct (launch_all fs_readFile agent rest w1) as [ps w2]. simpl in *.
    rewrite Hlen, Hevs, Hev, <- app_assoc. split; reflexivity.
Qed.

Lemma settle_all_spec batch : forall ps w,
  length ps = length batch ->
  let rs := fst (settle_all backend storeMemory svc batch ps w) in
  length rs = length batch
  /\ events (snd (settle_all backend storeMemory svc batch ps w))
     = (events w ++ map (fun s => Settle (fst s) (snd s)) (combine batch rs))%list
  /\ Forall (fun s => reports (fst s) (snd s)) (combine batch rs).
Proof.
  induction batch as [| file rest IH]; intros [| p ps] w Hlen; try discriminate; simpl.
  - rewrite app_nil_r. repeat split. constructor.
  - pose proof (_indexSingleFile_resume_spec file p w) as [Hev Hpath].
    destruct (_indexSingleFile_resume backend storeMemory svc file p w) as [r w1].
    destruct (IH ps w1 ltac:(now injection Hlen)) as [Hlen' [Hevs Hpaths]].
    destruct (settle_all backend storeMemory svc rest ps w1) as [rs w2]. simpl in *.
    rewrite Hlen', Hevs, Hev, <- app_assoc. split; [reflexivity |].
    split; [reflexivity |]. constructor; [exact Hpath | exact Hpaths].
Qed.

Lemma collect_spec batch : forall rs results,
  let results' := collect batch rs results in
  pattern results' = pattern results
  /\ totalFiles results' = totalFiles results
  /\ processedFiles results'
     = processedFiles results + length (List.filter fulfilled (combine batch rs))
  /\ failedFiles results'
     = failedFiles results + length (List.filter rejected (combine batch rs))
  /\ details results' = (details results ++ map detail_of (combine batch rs))%list.
Proof.
  induction batch as [| file rest IH]; intros [| r rs] results; simpl;
    try (rewrite !Nat.add_0_r, app_nil_r; tauto).
  destruct r as [value | message];
    match goal with |- context [collect rest rs ?R] => destruct (IH rs R) as (Hp & Ht & Hok & Hko & Hd) end;
    simpl in *; rewrite Hp, Ht, Hok, Hko, Hd, <- app_assoc; simpl;
    unfold fulfilled, rejected; simpl; repeat split; lia.
Qed.

Lemma combine_fst {A B : Type} (l : list A) : forall (l' : list B),
  length l' = length l -> map fst (combine l l') = l.
Proof.
  induction l as [| x l IH]; intros [| y l'] Hlen; try discriminate; simpl.
  - reflexivity.
  - f_equal. apply IH. now injection Hlen.
Qed.

Lemma batch_of_files (files : list string) i :
  i < length files ->
  let batch := slice i (i + batchSize) files in
  1 <= length batch <= batchSize
  /\ (batch ++ skipn (i + batchSize) files)%list = skipn i files.
Proof.
  intros Hi batch. subst batch. unfold slice, batchSize.
  replace (i + 10 - i) with 10 by lia.
  split.
  - rewrite length_firstn, length_skipn. lia.
  - rewrite (Nat.add_comm i 10), <- skipn_skipn. apply firstn_skipn.
Qed.

(** The outer loop of [indexFiles]: it ends within as many iterations as
    there are files left; what it adds to the report and to the log is, batch
    after batch, the files from [i] on with the outcomes of their operations. *)
Lemma batch_loop_spec files : forall budget i results w,
  length files - i <= budget ->
  exists rounds results' w',
    batch_loop fs_readFile backend storeMemory agent svc files budget i results w
    = Some (results', w')
    /\ events w' = (events w ++ concat (map round_log rounds))%list
    /\ map fst (concat rounds) = skipn i files
    /\ Forall (fun round => 1 <= length round <= batchSize) rounds
    /\ Forall (fun s => reports (fst s) (snd s)) (concat rounds)
    /\ pattern results' = pattern results
    /\ totalFiles results' = totalFiles results
    /\ processedFiles results'
       = processedFiles results + length (List.filter fulfilled (concat rounds))
    /\ failedFiles results'
       = failedFiles results + length (List.filter rejected (concat rounds))
    /\ details results' = (details results ++ map detail_of (concat rounds))%list.
Proof.
  induction budget as [| budget IH]; intros i results w Hbudget.
  - exists [], results, w. cbn [batch_loop].
    assert (Hi : (i <? length files)%nat = false) by (apply Nat.ltb_ge; lia).
    rewrite Hi. simpl. rewrite !app_nil_r, !Nat.add_0_r, skipn_all2 by lia.
    repeat split; constructor.
  - cbn [batch_loop]. destruct (i <? length files)%nat eqn:Hi.
    + apply Nat.ltb_lt in Hi.
      destruct (batch_of_files files i Hi) as [Hsize Hrest].
      set (batch := slice i (i + batchSize) files) in *.
      destruct (launch_all_spec batch w) as [Hlen1 Hev1].
      destruct (launch_all fs_readFile agent batch w) as [ps w1]. simpl in Hlen1, Hev1.
      destruct (settle_all_spec batch ps w1 Hlen1) as [Hlen2 [Hev2 Hpaths]].
      destruct (settle_all backend storeMemory svc batch ps w1) as [rs w2].
      simpl in Hlen2, Hev2, Hpaths.
      destruct (collect_spec batch rs results) as (Hp & Ht & Hok & Hko & Hd).
      destruct (IH (i + batchSize) (collect batch rs results) w2 ltac:(unfold batchSize; lia))
        as (rounds & results' & w' & Hloop & Hev & Hfiles & Hsizes & Hpaths' & Hp' & Ht'
            & Hok' & Hko' & Hd').
      exists (combine batch rs :: rounds), results', w'.
      split; [exact Hloop |]. cbn [map concat].
      split; [| split; [| split; [| split; [| split; [| split; [| split; [| split]]]]]]].
      * rewrite Hev, Hev2, Hev1. unfold round_log.
        rewrite <- (map_map fst Launch), (combine_fst batch rs Hlen2), <- !app_assoc.
        reflexivity.
      * rewrite map_app, Hfiles, (combine_fst batch rs Hlen2). exact Hrest.
      * constructor; [| exact Hsizes]. rewrite length_combine, Hlen2, Nat.min_id. exact Hsize.
      * apply Forall_app. split; assumption.
      * now rewrite Hp'.
      * now rewrite Ht'.
      * rewrite Hok', Hok, List.filter_app, length_app. lia.
      * rewrite Hko', Hko, List.filter_app, length_app. lia.
      * rewrite Hd', Hd, map_app, <- app_assoc. reflexivity.
    + apply Nat.ltb_ge in Hi. exists [], results, w.
      simpl. rewrite !app_nil_r, !Nat.add_0_r, skipn_all2 by lia.
      repeat split; constructor.
Qed.

End Indexing.





(** What [indexFiles] does once its checks have passed and the glob tool
    has answered. *)
Lemma indexFiles_runs fs_readFile glob_execute backend storeMemory agent svc pattern w files :
  pattern <> "" ->
  embeddingService agent = Some svc -> memoryEngine agent = true ->
  glob_registered agent = true ->
  glob_execute pattern (clock w) = Success files ->
  exists response w' rounds,
    indexFiles fs_readFile glob_execute backend storeMemory agent pattern w
    = Some (Return response, w')
    /\ events w' = (events w ++ concat (map round_log rounds))%list
    /\ map fst (concat rounds) = files
    /\ Forall (fun round => 1 <= length round <= batchSize) rounds
    /\ Forall (fun s => reports (fst s) (snd s)) (concat rounds)
    /\ pattern = FileAgent.pattern (index_data response)
    /\ totalFiles (index_data response) = length files
    /\ processedFiles (index_data response) = length (List.filter fulfilled (concat rounds))
    /\ failedFiles (index_data response) = length (List.filter rejected (concat rounds))
    /\ details (index_data response) = map detail_of (concat rounds).
Proof.
  intros Hpattern Hsvc Hmemory Hglob Hfiles.
  unfold indexFiles, searchFiles.
  apply String.eqb_neq in Hpattern. rewrite Hpattern, Hsvc, Hmemory, Hglob, Hfiles.
  cbn [negb].
  destruct (batch_loop_spec fs_readFile backend storeMemory agent svc files (length files) 0
              {| pattern := pattern; totalFiles := length files; processedFiles := 0;
                 failedFiles := 0; details := [] |} w ltac:(lia))
    as (rounds & results' & w' & Hloop & Hev & Hmap & Hsizes & Hpaths & Hp & Ht & Hok & Hko
        & Hd).
  rewrite Hloop. simpl in *.
  eexists. eexists. exists rounds. split; [reflexivity |]. simpl.
  split; [destruct (storeMemory _ _); exact Hev |].
  repeat split; try assumption. now symmetry.
Qed.

Lemma detail_of_path (l : list (string * outcome detail)) :
  Forall (fun s => reports (fst s) (snd s)) l ->
  map detail_path (map detail_of l) = map fst l.
Proof.
  induction 1 as [| [file [value | message]] l Hs Hl IH]; [reflexivity | |]; simpl.
  - rewrite IH. f_equal. now apply (Hs value).
  - now rewrite IH.
Qed.




(** *** Operations in flight *)









End FileAgentFacts.

(** * Further properties *)

(** ** Insertion-ordered maps *)
Module OrderedMapFacts.

Section Lemmas.
Context {V : Type}.
Implicit Types (m : list (string * V)) (k : string) (v : V).

Lemma map_has_In k m : map_has k m = true <-> In k (map fst m).
Proof.
  unfold map_has. induction m as [| [k' v'] m IH]; simpl.
  - split; [discriminate | contradiction].
  - destruct (String.eqb_spec k k') as [-> | Hne].
    + split; [now left | reflexivity].
    + rewrite IH. split; [now right | intros [Heq | Hin]; [congruence | exact Hin]].
Qed.

Lemma map_has_false k m : map_has k m = false <-> ~ In k (map fst m).
Proof.
  rewrite <- map_has_In. destruct (map_has k m); split; congruence.
Qed.

Lemma map_get_set_eq k v m : map_get k (map_set k v m) = Some v.
Proof.
  induction m as [| [k' v'] m IH]; simpl.
  - now rewrite String.eqb_refl.
  - destruct (String.eqb k k') eqn:Hk; simpl; [now rewrite String.eqb_refl | now rewrite Hk].
Qed.

Lemma map_get_set_ne k k' v m : k <> k' -> map_get k' (map_set k v m) = map_get k' m.
Proof.
  intros Hne. induction m as [| [k0 v0] m IH]; simpl.
  - apply not_eq_sym, String.eqb_neq in Hne. now rewrite Hne.
  - destruct (String.eqb_spec k k0) as [-> | Hk]; simpl.
    + apply not_eq_sym in Hne. apply String.eqb_neq in Hne. now rewrite Hne.
    + now rewrite IH.
Qed.

(** [set] keeps the place of a present key and appends an absent one. *)
Lemma map_set_keys k v m :
  map fst (map_set k v m) = if map_has k m then map fst m else (map fst m ++ [k])%list.
Proof.
  unfold map_has. induction m as [| [k' v'] m IH]; simpl; [reflexivity |].
  destruct (String.eqb_spec k k') as [-> | Hne]; simpl; [reflexivity |].
  rewrite IH. now destruct (map_get k m).
Qed.

Lemma map_set_NoDup k v m : List.NoDup (map fst m) -> List.NoDup (map fst (map_set k v m)).
Proof.
  intros Hnd. rewrite map_set_keys. destruct (map_has k m) eqn:Hhas; [exact Hnd |].
  apply map_has_false in Hhas.
  apply (Permutation_NoDup (l := k :: map fst m)).
  - apply Permutation_cons_append.
  - now constructor.
Qed.

Lemma map_get_delete_ne k k' m : k <> k' -> map_get k' (map_delete k m) = map_get k' m.
Proof.
  intros Hne. induction m as [| [k0 v0] m IH]; simpl; [reflexivity |].
  destruct (String.eqb_spec k k0) as [-> | Hk]; simpl.
  - apply not_eq_sym in Hne. apply String.eqb_neq in Hne. now rewrite Hne.
  - now rewrite IH.
Qed.

Lemma map_get_None k m : ~ In k (map fst m) -> map_get k m = None.
Proof.
  intros Hnot. apply map_has_false in Hnot. unfold map_has in Hnot.
  now destruct (map_get k m).
Qed.

Lemma map_get_delete_eq k m : List.NoDup (map fst m) -> map_get k (map_delete k m) = None.
Proof.
  induction m as [| [k' v'] m IH]; simpl; intros Hnd; [reflexivity |].
  inversion Hnd as [| ? ? Hnot Hnd']; subst.
  destruct (String.eqb_spec k k') as [-> | Hne]; simpl.
  - now apply map_get_None.
  - apply String.eqb_neq in Hne. rewrite Hne. now apply IH.
Qed.

(** [delete] takes the key out and keeps the order of the others. *)
Lemma map_delete_keys k m :
  List.NoDup (map fst m) ->
  map fst (map_delete k m) = List.filter (fun k' => negb (String.eqb k k')) (map fst m).
Proof.
  induction m as [| [k' v'] m IH]; simpl; intros Hnd; [reflexivity |].
  inversion Hnd as [| ? ? Hnot Hnd']; subst.
  destruct (String.eqb_spec k k') as [-> | Hne]; simpl.
  - symmetry. apply List.forallb_filter_id. apply forallb_forall. intros x Hx.
    apply negb_true_iff, String.eqb_neq. intros ->. contradiction.
  - now rewrite IH.
Qed.

Lemma map_delete_absent k m : map_has k m = false -> map_delete k m = m.
Proof.
  unfold map_has. induction m as [| [k' v'] m IH]; simpl; [reflexivity |].
  destruct (String.eqb k k'); [discriminate |]. intros H. now rewrite IH.
Qed.

End Lemmas.

(** Whether a key is present depends on the keys alone. *)
Lemma map_has_keys {V W : Type} k (m : list (string * V)) (m' : list (string * W)) :
  map fst m = map fst m' -> map_has k m = map_has k m'.
Proof.
  intros Hkeys. destruct (map_has k m') eqn:H'.
  - apply map_has_In. rewrite Hkeys. now apply map_has_In.
  - apply map_has_false. rewrite Hkeys. now apply map_has_false.
Qed.

Lemma map_get_In {V : Type} k (m : list (string * V)) v :
  map_get k m = Some v -> In (k, v) m.
Proof.
  induction m as [| [k' v'] m IH]; simpl; [discriminate |].
  destruct (String.eqb_spec k k') as [-> | Hne].
  - intros H. injection H as ->. now left.
  - intros H. right. now apply IH.
Qed.

Lemma map_get_present {V : Type} k (m : list (string * V)) :
  In k (map fst m) -> exists v, map_get k m = Some v.
Proof.
  intros Hin. apply map_has_In in Hin. unfold map_has in Hin.
  destruct (map_get k m) as [v |]; [now exists v | discriminate].
Qed.

Lemma In_map_get {V : Type} k v (m : list (string * V)) :
  List.NoDup (map fst m) -> In (k, v) m -> map_get k m = Some v.
Proof.
  induction m as [| [k' v'] m IH]; simpl; [contradiction |].
  intros Hnd [Heq | Hin]; inversion Hnd as [| ? ? Hk Hm]; subst.
  - injection Heq as -> ->. now rewrite String.eqb_refl.
  - destruct (String.eqb_spec k k') as [-> | Hne]; [| now apply IH].
    exfalso. apply Hk. now apply (in_map fst _ (k', v)).
Qed.

Lemma NoDup_map_filter {A B : Type} (f : A -> B) p (l : list A) :
  List.NoDup (map f l) -> List.NoDup (map f (List.filter p l)).
Proof.
  induction l as [| x l IH]; simpl; intros H; [constructor |].
  inversion H as [| ? ? Hx Hl]; subst. destruct (p x); simpl; [| now apply IH].
  constructor; [| now apply IH]. intros Hin. apply Hx.
  apply in_map_iff in Hin as (y & Hy & Hin). apply filter_In in Hin as [Hin _].
  rewrite <- Hy. now apply in_map.
Qed.

Lemma NoDup_firstn {A : Type} k (l : list A) : List.NoDup l -> List.NoDup (firstn k l).
Proof.
  intros H. rewrite <- (firstn_skipn k l) in H. now apply NoDup_app_remove_r in H.
Qed.

Lemma In_firstn {A : Type} k (l : list A) x : In x (firstn k l) -> In x l.
Proof. intros H. rewrite <- (firstn_skipn k l). apply in_or_app. now left. Qed.

End OrderedMapFacts.

(** ** The vector store, continued *)
Module VectorStoreMore.
Import VectorStore OrderedMapFacts.

(** What a call of [storeVector] that passes every check does. *)
Lemma storeVector_success st id vector meta now :
  initialized st = true -> id <> "" -> vector <> [] ->
  dimensions st = None \/ dimensions st = Some (length vector) ->
  storeVector id vector meta now st
  = (Return {| stored_id := id; stored_success := true |},
     {| cfg := cfg st; dimensions := Some (length vector);
        vectors := map_set id vector (vectors st);
        metadata := map_set id (map_set "timestamp" (JNum (num_of_Z now)) meta) (metadata st);
        initialized := true |}).
Proof.
  destruct st as [c d vs ms i]. simpl. intros -> Hid Hv Hd.
  unfold storeVector. simpl. apply String.eqb_neq in Hid. rewrite Hid.
  destruct vector as [| x rest]; [contradiction |].
  change (Nat.eqb (length (x :: rest)) 0) with false. cbv iota.
  destruct Hd as [-> | ->]; rewrite Nat.eqb_refl; reflexivity.
Qed.

(** A call of [storeVector] either leaves both maps as they are or sets the
    id in both. *)
Lemma storeVector_maps st id vector meta now :
  let st' := snd (storeVector id vector meta now st) in
  (vectors st' = vectors st /\ metadata st' = metadata st)
  \/ (vectors st' = map_set id vector (vectors st)
      /\ metadata st'
         = map_set id (map_set "timestamp" (JNum (num_of_Z now)) meta) (metadata st)).
Proof.
  destruct st as [c d vs ms i]. unfold storeVector. simpl.
  destruct i; simpl; [| now left].
  destruct (String.eqb id ""); [now left |].
  destruct (Nat.eqb (length vector) 0); [now left |].
  destruct (Nat.eqb (length vector) _); simpl; [now right | now left].
Qed.

Lemma initialize_aligned st : aligned st -> aligned (snd (initialize st)).
Proof. destruct st as [c d vs ms i]. unfold initialize. now destruct i. Qed.

Lemma storeVector_aligned st id vector meta now :
  aligned st -> aligned (snd (storeVector id vector meta now st)).
Proof.
  intros (Hnd & Hkeys & Hstamp). unfold aligned, ids in *.
  destruct (storeVector_maps st id vector meta now) as [[-> ->] | [-> ->]].
  - now repeat split.
  - split; [now apply map_set_NoDup |]. split.
    + rewrite !map_set_keys, Hkeys.
      now rewrite (map_has_keys id (metadata st) (vectors st) Hkeys).
    + apply VectorStoreFacts.map_set_Forall; [| exact Hstamp].
      simpl. unfold map_has. now rewrite map_get_set_eq.
Qed.

Lemma deleteVector_aligned st id : aligned st -> aligned (snd (deleteVector id st)).
Proof.
  destruct st as [c d vs ms i]. unfold aligned, ids, deleteVector. simpl.
  intros (Hnd & Hkeys & Hstamp).
  destruct i; simpl; [| now repeat split].
  destruct (map_has id vs) eqn:Hhas; simpl; [| now repeat split].
  assert (Hnd' : List.NoDup (map fst ms)) by now rewrite Hkeys.
  split; [| split].
  - rewrite map_delete_keys by exact Hnd. now apply List.NoDup_filter.
  - rewrite !map_delete_keys by assumption. now rewrite Hkeys.
  - now apply VectorStoreFacts.map_delete_Forall.
Qed.

Lemma reachable_aligned st : reachable st -> aligned st.
Proof.
  induction 1.
  - unfold aligned, ids, create. simpl. repeat split; constructor.
  - now apply initialize_aligned.
  - now apply storeVector_aligned.
  - now apply deleteVector_aligned.
Qed.

(** X1.  In every state a store can reach, each id is stored once, the
    vector map and the metadata map hold the same ids in the same order,
    every stored id has a metadata object with a [timestamp], and every
    stored vector has the length the store's dimension is fixed to. *)
Theorem store_invariants st :
  reachable st ->
  List.NoDup (ids st)
  /\ map fst (metadata st) = ids st
  /\ (forall id, In id (ids st) ->
        exists stamp, map_get "timestamp" (metadata_of st id) = Some stamp)
  /\ (forall id vector,
        map_get id (vectors st) = Some vector -> dimensions st = Some (length vector)).
Proof.
  intros Hr. destruct (reachable_aligned st Hr) as (Hnd & Hkeys & Hstamp).
  split; [exact Hnd |]. split; [exact Hkeys |]. split.
  - intros id Hin. rewrite <- Hkeys in Hin.
    destruct (map_get_present id (metadata st) Hin) as [m Hm].
    unfold metadata_of. rewrite Hm.
    apply map_get_In in Hm. rewrite List.Forall_forall in Hstamp.
    specialize (Hstamp _ Hm). simpl in Hstamp. unfold map_has in Hstamp.
    destruct (map_get "timestamp" m) as [stamp |]; [now exists stamp | discriminate].
  - intros id vector Hget. apply map_get_In in Hget.
    pose proof (VectorStoreFacts.reachable_consistent st Hr) as Hc. unfold consistent in Hc.
    destruct (dimensions st) as [d |].
    + destruct Hc as [_ Hall]. rewrite List.Forall_forall in Hall.
      specialize (Hall _ Hget). simpl in Hall. now rewrite Hall.
    + destruct Hc as [Hv _]. rewrite Hv in Hget. contradiction.
Qed.

(** The store of the four vectors. *)
Lemma store_invariants_witness :
  List.NoDup (ids four_vectors)
  /\ map fst (metadata four_vectors) = ids four_vectors
  /\ (forall id, In id (ids four_vectors) ->
        exists stamp, map_get "timestamp" (metadata_of four_vectors id) = Some stamp)
  /\ (forall id vector,
        map_get id (vectors four_vectors) = Some vector ->
        dimensions four_vectors = Some (length vector)).
Proof.
  apply store_invariants. unfold four_vectors. repeat constructor.
Defined.

(** X2.  A call of [storeVector] that passes the checks returns
    [{id, success: true}]; afterwards the id maps to the given vector and to
    the given metadata with the [timestamp] set, every other id maps to what
    it did, an id already present keeps its place and a new one is added at
    the end, and [getAllVectors] lists the record. *)
Theorem storeVector_then_lookup st id vector meta now :
  initialized st = true -> id <> "" -> vector <> [] ->
  dimensions st = None \/ dimensions st = Some (length vector) ->
  let st' := snd (storeVector id vector meta now st) in
  fst (storeVector id vector meta now st) = Return {| stored_id := id; stored_success := true |}
  /\ map_get id (vectors st') = Some vector
  /\ metadata_of st' id = map_set "timestamp" (JNum (num_of_Z now)) meta
  /\ (forall id', id' <> id ->
        map_get id' (vectors st') = map_get id' (vectors st)
        /\ metadata_of st' id' = metadata_of st id')
  /\ ids st' = (if map_has id (vectors st) then ids st else (ids st ++ [id])%list)
  /\ size st' = (if map_has id (vectors st) then size st else S (size st))
  /\ exists records,
       getAllVectors st' = Return records
       /\ In {| record_id := id; record_vector := vector;
                record_metadata := map_set "timestamp" (JNum (num_of_Z now)) meta |} records.
Proof.
  intros Hi Hid Hv Hd st'. subst st'.
  rewrite (storeVector_success st id vector meta now Hi Hid Hv Hd). simpl.
  assert (Hmeta : metadata_of
                    {| cfg := cfg st; dimensions := Some (length vector);
                       vectors := map_set id vector (vectors st);
                       metadata := map_set id (map_set "timestamp" (JNum (num_of_Z now)) meta)
                                     (metadata st);
                       initialized := true |} id
                  = map_set "timestamp" (JNum (num_of_Z now)) meta).
  { unfold metadata_of. simpl. now rewrite map_get_set_eq. }
  split; [reflexivity |]. split; [apply map_get_set_eq |]. split; [exact Hmeta |].
  split.
  - intros id' Hne. apply not_eq_sym in Hne. split; [now apply map_get_set_ne |].
    unfold metadata_of. simpl. now rewrite map_get_set_ne.
  - split; [apply map_set_keys |]. split.
    + unfold size, ids. simpl. rewrite <- (length_map fst), map_set_keys.
      destruct (map_has id (vectors st)); [apply length_map |].
      rewrite length_app, length_map. simpl. lia.
    + eexists. unfold getAllVectors. simpl. split; [reflexivity |].
      rewrite <- Hmeta at 1.
      apply (in_map (fun e => {| record_id := fst e; record_vector := snd e;
                                record_metadata := metadata_of _ (fst e) |})
               _ (id, vector)).
      apply map_get_In, map_get_set_eq.
Qed.

(** Storing again under the id "v2" of the four vectors. *)
Lemma storeVector_then_lookup_witness :
  let st' := snd (storeVector "v2" [1; 1]%float [] 9 four_vectors) in
  map_get "v2" (vectors st') = Some [1; 1]%float
  /\ ids st' = ["v1"; "v2"; "v3"; "v4"]
  /\ size st' = 4.
Proof.
  destruct (storeVector_then_lookup four_vectors "v2" [1; 1]%float [] 9
              eq_refl ltac:(discriminate) ltac:(discriminate) (or_intror eq_refl))
    as (_ & Hget & _ & _ & Hids & Hsize & _).
  split; [exact Hget |]. split; [exact Hids | exact Hsize].
Defined.

(** X3.  On an initialized store in a reachable state [deleteVector] never
    throws and reports whether the id was stored; afterwards the id has no
    vector and no metadata, the other ids keep theirs and their order, the
    dimension is what it was, and deleting the id again reports
    [deleted: false] and changes nothing. *)
Theorem deleteVector_removes st id :
  reachable st -> initialized st = true ->
  let st' := snd (deleteVector id st) in
  fst (deleteVector id st)
  = Return {| deleted_id := id; deleted_success := true; deleted := map_has id (vectors st) |}
  /\ map_get id (vectors st') = None
  /\ metadata_of st' id = []
  /\ (forall id', id' <> id ->
        map_get id' (vectors st') = map_get id' (vectors st)
        /\ metadata_of st' id' = metadata_of st id')
  /\ ids st' = List.filter (fun id' => negb (String.eqb id id')) (ids st)
  /\ dimensions st' = dimensions st
  /\ deleteVector id st'
     = (Return {| deleted_id := id; deleted_success := true; deleted := false |}, st').
Proof.
  intros Hr Hi st'. subst st'.
  destruct (reachable_aligned st Hr) as (Hnd & Hkeys & _). unfold ids in *.
  assert (Hnd' : List.NoDup (map fst (metadata st))) by now rewrite Hkeys.
  destruct st as [c d vs ms i]. simpl in *. subst i. unfold deleteVector. simpl.
  destruct (map_has id vs) eqn:Hhas; simpl.
  - assert (Hgone : map_get id (map_delete id vs) = None) by now apply map_get_delete_eq.
    split; [reflexivity |]. split; [exact Hgone |].
    split; [unfold metadata_of; simpl; now rewrite map_get_delete_eq |].
    split.
    + intros id' Hne. apply not_eq_sym in Hne. split; [now apply map_get_delete_ne |].
      unfold metadata_of. simpl. now rewrite map_get_delete_ne.
    + split; [now apply map_delete_keys |]. split; [reflexivity |].
      unfold map_has. now rewrite Hgone.
  - assert (Hgone : map_get id vs = None)
      by (unfold map_has in Hhas; now destruct (map_get id vs)).
    split; [reflexivity |]. split; [exact Hgone |].
    split.
    + unfold metadata_of. simpl. rewrite map_get_None; [reflexivity |].
      rewrite Hkeys. now apply map_has_false.
    + split; [now intros |]. split.
      * symmetry. apply List.forallb_filter_id. apply forallb_forall. intros x Hx.
        apply negb_true_iff, String.eqb_neq. intros ->.
        apply map_has_false in Hhas. contradiction.
      * split; [reflexivity |]. now rewrite Hhas.
Qed.

(** Deleting "v2" from the four vectors, twice. *)
Lemma deleteVector_removes_witness :
  let st' := snd (deleteVector "v2" four_vectors) in
  fst (deleteVector "v2" four_vectors)
  = Return {| deleted_id := "v2"; deleted_success := true; deleted := true |}
  /\ ids st' = ["v1"; "v3"; "v4"]
  /\ deleteVector "v2" st'
     = (Return {| deleted_id := "v2"; deleted_success := true; deleted := false |}, st').
Proof.
  destruct (deleteVector_removes four_vectors "v2"
              ltac:(unfold four_vectors; repeat constructor) eq_refl)
    as (Hret & _ & _ & _ & Hids & _ & Hagain).
  split; [exact Hret |]. split; [exact Hids | exact Hagain].
Defined.

(** X4.  Once fixed, the dimension of a store is never changed or unset by
    any later call, and an initialized store stays initialized.  So a store
    emptied by [deleteVector] still refuses, in [storeVector] and in
    [findSimilar], a vector of another length than its first one. *)
Theorem dimension_is_permanent st st' D :
  later st st' -> dimensions st = Some D ->
  dimensions st' = Some D
  /\ (initialized st = true -> initialized st' = true)
  /\ (forall id vector meta now,
        initialized st = true -> id <> "" -> vector <> [] -> length vector <> D ->
        storeVector id vector meta now st'
        = (Throw (dimension_mismatch "Vector" D (length vector)), st'))
  /\ (forall queryVector limit threshold,
        initialized st = true -> queryVector <> [] -> length queryVector <> D ->
        findSimilar queryVector limit threshold st'
        = Throw (dimension_mismatch "Query vector" D (length queryVector))).
Proof.
  intros Hlater Hd.
  assert (Hkeep : dimensions st' = Some D /\ (initialized st = true -> initialized st' = true)).
  { induction Hlater as [| st' Hl IH | st' id vector meta now Hl IH | st' id Hl IH].
    - now split.
    - destruct IH as [IHd IHi]. destruct st' as [c d vs ms i]. simpl in *.
      unfold initialize. simpl. destruct i; simpl; now split.
    - destruct IH as [IHd IHi]. destruct st' as [c d vs ms i]. simpl in *. subst d.
      unfold storeVector. simpl. destruct i; simpl; [| now split].
      destruct (String.eqb id ""); [now split |].
      destruct (Nat.eqb (length vector) 0); [now split |].
      destruct (Nat.eqb (length vector) D); simpl; now split.
    - destruct IH as [IHd IHi]. destruct st' as [c d vs ms i]. simpl in *.
      unfold deleteVector. simpl. destruct i; simpl; [| now split].
      destruct (map_has id vs); now split. }
  destruct Hkeep as [Hd' Hi']. split; [exact Hd' |]. split; [exact Hi' |]. split.
  - intros id vector meta now Hi Hid Hv Hlen.
    now apply VectorStoreFacts.storeVector_mismatch; [apply Hi' | | | |].
  - intros queryVector limit threshold Hi Hq Hlen.
    unfold findSimilar. rewrite (Hi' Hi), Hd'. simpl.
    destruct queryVector as [| x rest]; [contradiction |].
    change (Nat.eqb (length (x :: rest)) 0) with false. cbv iota.
    apply Nat.eqb_neq in Hlen. now rewrite Hlen.
Qed.

(** A vector of length 3 is stored and deleted; one of length 5 is refused. *)
Lemma dimension_is_permanent_witness :
  let st := after_first_store {| similarityThreshold := None |} "a" [1; 2; 3]%float [] 1 in
  let st' := snd (deleteVector "a" st) in
  size st' = 0
  /\ dimensions st' = Some 3
  /\ storeVector "b" [1; 2; 3; 4; 5]%float [] 2 st'
     = (Throw "Vector dimension mismatch: expected 3, got 5", st')
  /\ findSimilar [1; 2; 3; 4; 5]%float None None st'
     = Throw "Query vector dimension mismatch: expected 3, got 5".
Proof.
  destruct (dimension_is_permanent
              (after_first_store {| similarityThreshold := None |} "a" [1; 2; 3]%float [] 1)
              (snd (deleteVector "a"
                      (after_first_store {| similarityThreshold := None |} "a"
                                         [1; 2; 3]%float [] 1)))
              3 ltac:(apply later_deleteVector, later_now) eq_refl)
    as (Hd & _ & Hstore & Hfind).
  split; [reflexivity |]. split; [exact Hd |]. split.
  - exact (Hstore "b" [1; 2; 3; 4; 5]%float [] 2%Z eq_refl
             ltac:(discriminate) ltac:(discriminate) ltac:(simpl; lia)).
  - exact (Hfind [1; 2; 3; 4; 5]%float None None eq_refl
             ltac:(discriminate) ltac:(simpl; lia)).
Defined.

(** *** Cosine similarity *)

Lemma SFmul_comm x y :
  SFmul FloatOps.prec FloatOps.emax x y = SFmul FloatOps.prec FloatOps.emax y x.
Proof.
  destruct x as [sx | sx | | sx mx ex], y as [sy | sy | | sy my ey]; simpl; try reflexivity;
    try (now rewrite xorb_comm).
  now rewrite xorb_comm, Pos.mul_comm, Z.add_comm.
Qed.

Lemma mul_comm (x y : float) : (x * y = y * x)%float.
Proof. apply Prim2SF_inj. rewrite !FloatAxioms.mul_spec. apply SFmul_comm. Qed.

Lemma cosine_loop_swap a : forall b dotProduct normA normB,
  cosine_loop b a dotProduct normB normA
  = let '(dotProduct', normA', normB') := cosine_loop a b dotProduct normA normB in
    (dotProduct', normB', normA').
Proof.
  induction a as [| x a IH]; intros [| y b] dotProduct normA normB; try reflexivity.
  simpl. rewrite IH. now rewrite (mul_comm y x).
Qed.

(** X5.  The similarity does not depend on the order of its two arguments,
    whatever their entries and lengths. *)
Theorem cosine_similarity_symmetric a b :
  _calculateCosineSimilarity a b = _calculateCosineSimilarity b a.
Proof.
  unfold _calculateCosineSimilarity. rewrite (cosine_loop_swap a b).
  destruct (cosine_loop a b 0 0 0) as [[dotProduct normA] normB].
  rewrite orb_comm. now rewrite mul_comm.
Qed.

Lemma eqb_zero x : PrimFloat.eqb x 0 = true -> x = 0%float \/ x = (-0)%float.
Proof.
  rewrite FloatAxioms.eqb_spec. change (Prim2SF 0) with (S754_zero false). intros H.
  destruct (Prim2SF x) as [s | s | | s m e] eqn:Hx; try discriminate.
  - destruct s; [right | left]; apply Prim2SF_inj; rewrite Hx; reflexivity.
  - destruct s; discriminate.
  - destruct s; discriminate.
Qed.

Lemma square_zero x : PrimFloat.eqb x 0 = true -> (x * x)%float = 0%float.
Proof. intros H. destruct (eqb_zero x H) as [-> | ->]; reflexivity. Qed.

Lemma cosine_loop_zero a : all_zero a -> forall b dotProduct normB,
  exists dotProduct' normB', cosine_loop a b dotProduct 0 normB = (dotProduct', 0%float, normB').
Proof.
  induction 1 as [| x a Hx Ha IH]; intros [| y b] dotProduct normB; simpl; eauto.
  rewrite (square_zero x Hx). change (0 + 0)%float with 0%float. apply IH.
Qed.

Lemma cosine_zero a b : all_zero a -> _calculateCosineSimilarity a b = 0%float.
Proof.
  intros Ha. unfold _calculateCosineSimilarity.
  now destruct (cosine_loop_zero a Ha b 0%float 0%float) as (dotProduct & normB & ->).
Qed.

Lemma cosine_loop_zero_r a : all_zero a -> forall b dotProduct normB,
  exists dotProduct' normB', cosine_loop b a dotProduct normB 0 = (dotProduct', normB', 0%float).
Proof.
  induction 1 as [| x a Hx Ha IH]; intros [| y b] dotProduct normB; simpl; eauto.
  rewrite (square_zero x Hx). change (0 + 0)%float with 0%float. apply IH.
Qed.

Lemma cosine_zero_r a b : all_zero a -> _calculateCosineSimilarity b a = 0%float.
Proof.
  intros Ha. unfold _calculateCosineSimilarity.
  destruct (cosine_loop_zero_r a Ha b 0%float 0%float) as (dotProduct & normB & ->).
  change (PrimFloat.eqb (PrimFloat.sqrt 0) 0) with true. now rewrite orb_true_r.
Qed.

Lemma rank_nil limit : rank limit [] = [].
Proof. unfold rank, slice. simpl. now rewrite firstn_nil. Qed.

Lemma findSimilar_rank st queryVector limit threshold result :
  findSimilar queryVector limit threshold st = Return result ->
  result = rank (limit_or_default limit)
             (similarities queryVector (threshold_or_default st threshold) st).
Proof.
  unfold findSimilar. destruct (negb (initialized st)); [discriminate |].
  destruct (Nat.eqb (length queryVector) 0); [discriminate |].
  destruct (dimensions st) as [d |]; [| congruence].
  destruct (negb (Nat.eqb (length queryVector) d)); [discriminate | congruence].
Qed.

Lemma similarities_none queryVector threshold st :
  (forall s, at_least threshold s = true -> In s (map (score queryVector st) (vectors st)) ->
             False) ->
  similarities queryVector threshold st = [].
Proof.
  unfold similarities.
  induction (map (score queryVector st) (vectors st)) as [| s l IH]; [reflexivity |].
  intros H. simpl. destruct (at_least threshold s) eqn:Hs.
  - exfalso. apply (H s Hs). now left.
  - apply IH. intros s' Hs' Hin. apply (H s' Hs'). now right.
Qed.

(** X6.  A vector whose entries are all zero (of either sign) has similarity
    0 to every vector, on either side; so as a query it finds nothing at a
    threshold above 0, and as a stored vector it is found by no query at
    such a threshold. *)
Theorem zero_vector_similarity a :
  all_zero a ->
  (forall b, _calculateCosineSimilarity a b = 0%float
             /\ _calculateCosineSimilarity b a = 0%float)
  /\ (forall st limit threshold t result,
        threshold_or_default st threshold = Some t -> PrimFloat.ltb 0 t = true ->
        findSimilar a limit threshold st = Return result -> result = [])
  /\ (forall st id queryVector limit threshold t result,
        List.NoDup (ids st) ->
        map_get id (vectors st) = Some a ->
        threshold_or_default st threshold = Some t -> PrimFloat.ltb 0 t = true ->
        findSimilar queryVector limit threshold st = Return result ->
        ~ In id (map scored_id result)).
Proof.
  intros Ha.
  assert (Hbelow : forall t, PrimFloat.ltb 0 t = true -> PrimFloat.leb t 0 = false).
  { intros t Ht.
    destruct (FloatFacts.leb_numbers _ _ (FloatFacts.ltb_leb _ _ Ht)) as [H0 Hn].
    rewrite (FloatFacts.ltb_negb_leb _ _ H0 Hn) in Ht. now apply negb_true_iff in Ht. }
  split; [| split].
  - intros b. split; [now apply cosine_zero | now apply cosine_zero_r].
  - intros st limit threshold t result Hth Ht Hret.
    apply findSimilar_rank in Hret. subst result. rewrite Hth.
    rewrite similarities_none; [apply rank_nil |].
    intros s Hs Hin. apply in_map_iff in Hin as (e & <- & _).
    unfold at_least, score in Hs. simpl in Hs. rewrite (cosine_zero a (snd e) Ha) in Hs.
    rewrite (Hbelow t Ht) in Hs. discriminate.
  - intros st id queryVector limit threshold t result Hnd Hget Hth Ht Hret Hin.
    apply findSimilar_rank in Hret. subst result. rewrite Hth in Hin.
    apply in_map_iff in Hin as (s & Hid & Hin).
    unfold rank, slice in Hin. rewrite Nat.sub_0_r, skipn_O in Hin.
    apply In_firstn in Hin.
    apply (Permutation_in _ (proj1 (VectorStoreFacts.array_sort_by_similarity _
             (VectorStoreFacts.similarities_numbers _ _ _)))) in Hin.
    unfold similarities in Hin. apply filter_In in Hin as [Hin Hle].
    apply in_map_iff in Hin as ([id' vector] & <- & Hin). simpl in Hid. subst id'.
    apply (In_map_get _ _ _ Hnd) in Hin. rewrite Hget in Hin. injection Hin as <-.
    unfold at_least, score in Hle. simpl in Hle.
    rewrite (cosine_zero_r a queryVector Ha) in Hle.
    rewrite (Hbelow t Ht) in Hle. discriminate.
Qed.

(** The query [0, -0] against the four vectors at their threshold 0.8. *)
Lemma zero_vector_similarity_witness :
  _calculateCosineSimilarity [0; -0]%float [0.9; 0.4358898943540672]%float = 0%float
  /\ findSimilar [0; -0]%float None None four_vectors = Return [].
Proof.
  destruct (zero_vector_similarity [0; -0]%float ltac:(repeat constructor))
    as (Hcos & Hfind & _).
  split; [apply Hcos |].
  destruct (findSimilar [0; -0]%float None None four_vectors) as [result | message] eqn:Hret;
    [| discriminate].
  now rewrite (Hfind four_vectors None None 0.8%float result eq_refl eq_refl Hret).
Defined.

(** *** Results of a search *)

Lemma scored_ids queryVector st :
  map scored_id (map (score queryVector st) (vectors st)) = ids st.
Proof. unfold ids. rewrite map_map. reflexivity. Qed.

(** X7.  In a reachable state no id occurs twice among the results of
    [findSimilar]; there are no more results than the limit or than stored
    vectors; and each result carries the id of a stored vector, the
    similarity of the query to that vector, which is at least the threshold,
    and the metadata stored under the id. *)
Theorem findSimilar_results st queryVector limit threshold result :
  reachable st ->
  findSimilar queryVector limit threshold st = Return result ->
  List.NoDup (map scored_id result)
  /\ (length result <= Nat.min (limit_or_default limit) (size st))%nat
  /\ forall s, In s result ->
       exists vector t,
         map_get (scored_id s) (vectors st) = Some vector
         /\ similarity s = _calculateCosineSimilarity queryVector vector
         /\ scored_metadata s = metadata_of st (scored_id s)
         /\ threshold_or_default st threshold = Some t
         /\ PrimFloat.leb t (similarity s) = true.
Proof.
  intros Hr Hret.
  destruct (reachable_aligned st Hr) as (Hnd & _ & _).
  apply findSimilar_rank in Hret. subst result.
  set (retained := similarities queryVector (threshold_or_default st threshold) st).
  destruct (VectorStoreFacts.array_sort_by_similarity retained
              (VectorStoreFacts.similarities_numbers _ _ _)) as [Hperm _].
  unfold rank, slice. rewrite Nat.sub_0_r, skipn_O.
  assert (Hsub : List.NoDup (map scored_id retained)).
  { unfold retained, similarities. apply NoDup_map_filter. now rewrite scored_ids. }
  split; [| split].
  - rewrite <- firstn_map. apply NoDup_firstn.
    eapply Permutation_NoDup; [| exact Hsub].
    apply Permutation_map, Permutation_sym, Hperm.
  - rewrite length_firstn. apply Nat.min_le_compat_l.
    rewrite (Permutation_length Hperm). unfold retained, similarities, size.
    etransitivity; [apply filter_length_le |]. now rewrite length_map.
  - intros s Hs. apply In_firstn in Hs. apply (Permutation_in _ Hperm) in Hs.
    unfold retained, similarities in Hs. apply filter_In in Hs as [Hin Hle].
    apply in_map_iff in Hin as ([id vector] & <- & Hin). simpl.
    unfold at_least in Hle. simpl in Hle.
    destruct (threshold_or_default st threshold) as [t |]; [| discriminate].
    exists vector, t. repeat split; try assumption.
    now apply In_map_get.
Qed.

(** The results of the query [1, 0] against the four vectors. *)
Lemma findSimilar_results_witness :
  exists result,
    findSimilar [1; 0]%float None None four_vectors = Return result
    /\ List.NoDup (map scored_id result)
    /\ (length result <= 4)%nat.
Proof.
  destruct (findSimilar [1; 0]%float None None four_vectors) as [result | message] eqn:Hret;
    [| discriminate].
  exists result. split; [reflexivity |].
  destruct (findSimilar_results four_vectors [1; 0]%float None None result
              ltac:(unfold four_vectors; repeat constructor) Hret) as (Hnd & Hlen & _).
  split; [exact Hnd | exact Hlen].
Defined.

(** X8.  The results for a limit are the first entries of the results for
    any greater limit: raising the limit only appends, and never reorders or
    replaces, what a smaller limit returned.  The limit 0 gives no result. *)
Theorem findSimilar_limit_prefix st queryVector threshold k k' result' :
  (k <= k')%nat ->
  findSimilar queryVector (Some k') threshold st = Return result' ->
  findSimilar queryVector (Some k) threshold st = Return (firstn k result')
  /\ findSimilar queryVector (Some 0%nat) threshold st = Return [].
Proof.
  intros Hk. unfold findSimilar. destruct (negb (initialized st)); [discriminate |].
  destruct (Nat.eqb (length queryVector) 0); [discriminate |].
  assert (Hcut : forall l : list scored, rank k l = firstn k (rank k' l) /\ rank 0 l = []).
  { intros l. unfold rank, slice. rewrite !Nat.sub_0_r, !skipn_O.
    rewrite firstn_firstn, Nat.min_l by exact Hk. now split. }
  simpl limit_or_default.
  destruct (dimensions st) as [d |].
  - destruct (negb (Nat.eqb (length queryVector) d)); [discriminate |].
    intros H. injection H as <-. split; f_equal; apply Hcut.
  - intros H. injection H as <-. split; f_equal; apply Hcut.
Qed.

(** The four vectors searched with the limits 1 and 3. *)
Lemma findSimilar_limit_prefix_witness :
  exists result',
    findSimilar [1; 0]%float (Some 3%nat) None four_vectors = Return result'
    /\ findSimilar [1; 0]%float (Some 1%nat) None four_vectors = Return (firstn 1 result').
Proof.
  destruct (findSimilar [1; 0]%float (Some 3%nat) None four_vectors)
    as [result' | message] eqn:Hret; [| discriminate].
  exists result'. split; [reflexivity |].
  exact (proj1 (findSimilar_limit_prefix four_vectors [1; 0]%float None 1 3 result'
                  ltac:(lia) Hret)).
Defined.

Lemma not_number_leb t x : PrimFloat.leb t t = false -> PrimFloat.leb t x = false.
Proof.
  intros Ht. destruct (PrimFloat.leb t x) eqn:H; [| reflexivity].
  apply FloatFacts.leb_numbers in H as [H _]. unfold Binary64.number in H. congruence.
Qed.

(** X9.  When no threshold is passed and the configuration has none, or
    when the threshold is not a number, every comparison with it fails and
    [findSimilar] returns no result, whatever is stored. *)
Theorem findSimilar_without_threshold st queryVector limit threshold result :
  threshold_or_default st threshold = None
  \/ (exists t, threshold_or_default st threshold = Some t /\ PrimFloat.leb t t = false) ->
  findSimilar queryVector limit threshold st = Return result ->
  result = [].
Proof.
  intros Hth Hret. apply findSimilar_rank in Hret. subst result.
  rewrite similarities_none; [apply rank_nil |].
  intros s Hs _. unfold at_least in Hs.
  destruct Hth as [Hth | (t & Hth & Ht)]; rewrite Hth in Hs; [discriminate |].
  rewrite (not_number_leb t (similarity s) Ht) in Hs. discriminate.
Qed.

(** A store configured without a threshold holds the query itself and
    still returns nothing for it. *)
Lemma findSimilar_without_threshold_witness :
  findSimilar [1; 0]%float None None
    (after_first_store {| similarityThreshold := None |} "a" [1; 0]%float [] 1)
  = Return [].
Proof.
  destruct (findSimilar [1; 0]%float None None
              (after_first_store {| similarityThreshold := None |} "a" [1; 0]%float [] 1))
    as [result | message] eqn:Hret; [| discriminate].
  now rewrite (findSimilar_without_threshold
                 (after_first_store {| similarityThreshold := None |} "a" [1; 0]%float [] 1)
                 [1; 0]%float None None result (or_introl eq_refl) Hret).
Defined.

End VectorStoreMore.

(** ** The embedding service, continued *)
Module EmbeddingServiceMore.
Import EmbeddingService EmbeddingServiceFacts.

(** *** The shape of a preprocessed text *)

Lemma non_whitespace_trimStart s : non_whitespace (trimStart s) = non_whitespace s.
Proof.
  induction s as [| c s IH]; simpl; [reflexivity |].
  destruct (is_whitespace c) eqn:Hc; [exact IH |]. simpl. now rewrite Hc.
Qed.

Lemma non_whitespace_trimEnd s : non_whitespace (trimEnd s) = non_whitespace s.
Proof.
  induction s as [| c s IH]; simpl; [reflexivity |].
  destruct (trimEnd s) as [| c' kept].
  - simpl in IH. rewrite <- IH. destruct (is_whitespace c) eqn:Hc; simpl; [reflexivity |].
    now rewrite Hc.
  - rewrite <- IH. reflexivity.
Qed.

Lemma non_whitespace_replace_runs s : forall b,
  non_whitespace (replace_runs b s) = non_whitespace s.
Proof.
  induction s as [| c s IH]; intros b; simpl; [reflexivity |].
  destruct (is_whitespace c) eqn:Hc.
  - destruct b; [apply IH |]. cbn [non_whitespace].
    change (is_whitespace " ") with true. cbv iota. apply IH.
  - cbn [non_whitespace]. rewrite Hc. now rewrite IH.
Qed.

Lemma non_whitespace_blank s : blank s = true <-> non_whitespace s = [].
Proof.
  induction s as [| c s IH]; simpl; [tauto |].
  destruct (is_whitespace c); simpl; [exact IH |]. split; discriminate.
Qed.

Lemma blank_substring s : forall n, blank s = true -> blank (String.substring 0 n s) = true.
Proof.
  induction s as [| c s IH]; intros [| n]; simpl; try reflexivity.
  intros H. apply andb_true_iff in H as [Hc Hs]. rewrite Hc. now apply IH.
Qed.

Lemma starts_clean_non_whitespace s : starts_clean s -> non_whitespace s = [] -> s = "".
Proof.
  destruct s as [| c s]; simpl; [reflexivity |]. intros ->. discriminate.
Qed.

Lemma preprocessed_clean n s : starts_clean (replace_runs false (trim (String.substring 0 n s))).
Proof.
  apply starts_clean_replace_runs. unfold trim.
  apply trimEnd_starts_clean, trimStart_starts_clean.
Qed.

Lemma preprocessed_non_whitespace n s :
  non_whitespace (replace_runs false (trim (String.substring 0 n s)))
  = non_whitespace (String.substring 0 n s).
Proof.
  unfold trim.
  now rewrite non_whitespace_replace_runs, non_whitespace_trimEnd, non_whitespace_trimStart.
Qed.

Lemma blank_preprocessed svc s : blank s = true -> _preprocessText svc (JStr s) = "".
Proof.
  intros Hblank. simpl. apply starts_clean_non_whitespace; [apply preprocessed_clean |].
  rewrite preprocessed_non_whitespace. apply non_whitespace_blank. now apply blank_substring.
Qed.

(** X10.  Whatever it is given, [_preprocessText] returns a text of at most
    [maxTextLength] code units that neither starts nor ends with white space
    and in which white space occurs only as single spaces between other
    code units.  Of a string it keeps, in their order, exactly the code
    units of the first [maxTextLength] that are not white space; so a string
    of white space only is preprocessed to the empty string. *)
Theorem _preprocessText_shape svc x :
  let text := _preprocessText svc x in
  String.length text <= maxTextLength svc
  /\ starts_clean text
  /\ trimEnd text = text
  /\ single_spaced false text
  /\ (forall s, x = JStr s ->
        String.length text <= String.length s
        /\ non_whitespace text = non_whitespace (String.substring 0 (maxTextLength svc) s)
        /\ (blank s = true -> text = "")).
Proof.
  destruct x as [| | b | f | s | items | fields];
    try (simpl; repeat split; try lia; try discriminate; exact I).
  simpl _preprocessText. set (u := String.substring 0 (maxTextLength svc) s).
  assert (Hlen : String.length (replace_runs false (trim u)) <= String.length u).
  { pose proof (replace_runs_length false (trim u)).
    pose proof (trimEnd_length (trimStart u)). pose proof (trimStart_length u).
    unfold trim in *. lia. }
  pose proof (preprocessed_clean (maxTextLength svc) s) as Hclean. fold u in Hclean.
  pose proof (preprocessed_non_whitespace (maxTextLength svc) s) as Hkept. fold u in Hkept.
  pose proof (substring_0_length (maxTextLength svc) s) as Hcut. fold u in Hcut.
  split; [lia |]. split; [exact Hclean |]. split.
  - apply trimEnd_fixes_replace_runs. unfold trim. apply trimEnd_idempotent.
  - split; [apply replace_runs_single_spaced |].
    intros s' Hs. injection Hs as <-. split; [| split; [exact Hkept |]].
    + assert (String.length u <= String.length s); [| lia].
      unfold u. clear. generalize (maxTextLength svc). 
      induction s as [| c s IH]; intros [| n]; simpl; try lia. specialize (IH n). lia.
    + intros Hblank. apply starts_clean_non_whitespace; [exact Hclean |].
      rewrite Hkept. apply non_whitespace_blank. now apply blank_substring.
Qed.

(** *** Requests *)

(** X11.  A text that is not empty but holds white space only passes the
    check of [generateEmbedding]; the empty string is what is sent for it, in
    one request, and the outcome is the answer of the backend to that
    request, a failure wrapped in the message of [generateEmbedding]. *)
Theorem generateEmbedding_blank_text backend svc s sent :
  initialized svc = true -> s <> "" -> blank s = true ->
  generateEmbedding backend svc (JStr s) sent
  = (match backend sent (One "") with
     | Answered body => Return body
     | NotOk status errorText =>
         Throw ("Failed to generate embedding: API request failed with status "
                ++ show_nat status ++ ": " ++ errorText)
     | Aborted =>
         Throw ("Failed to generate embedding: API request timed out after "
                ++ show_nat (requestTimeout svc) ++ "ms")
     | Failed message => Throw ("Failed to generate embedding: " ++ message)
     end,
     (sent ++ [One ""])%list).
Proof.
  intros Hinit Hs Hblank. unfold generateEmbedding. rewrite Hinit. cbn [negb].
  apply String.eqb_neq in Hs. cbn [not_a_text]. rewrite Hs.
  rewrite (blank_preprocessed svc s Hblank).
  unfold _callApi. destruct (backend sent (One "")); reflexivity.
Qed.

(** A text of a space, a tab and a line feed. *)
Lemma generateEmbedding_blank_text_witness :
  generateEmbedding (answering length_vector)
    {| maxBatchSize := 64; requestTimeout := 30000; maxTextLength := 8192;
       initialized := true |}
    (JStr (String " " (String (ascii_of_nat 9) (String (ascii_of_nat 10) "")))) []
  = (Return [JNum (num_of_Z 0)], [One ""]).
Proof.
  exact (generateEmbedding_blank_text (answering length_vector)
           {| maxBatchSize := 64; requestTimeout := 30000; maxTextLength := 8192;
              initialized := true |}
           (String " " (String (ascii_of_nat 9) (String (ascii_of_nat 10) ""))) []
           eq_refl ltac:(discriminate) eq_refl).
Defined.

Section Chunks.
Variable backend : list api_input -> api_input -> fetch_outcome.
Variable svc : t.
Hypothesis Hinitialized : initialized svc = true.

Lemma chunks_of_nil {A : Type} budget step : @chunks_of A budget step [] = [].
Proof. now destruct budget. Qed.

Lemma chunks_of_cons {A : Type} budget step (l : list A) :
  l <> [] ->
  chunks_of (S budget) step l = firstn step l :: chunks_of budget step (skipn step l).
Proof. now destruct l. Qed.

Lemma one_request_send_chunks items sent :
  one_request backend svc items sent
  = send_chunks backend svc [map (_preprocessText svc) items] [] sent.
Proof.
  unfold one_request. cbn [send_chunks].
  destruct (_callApi backend svc _ sent) as [[embeddings | message] sent']; reflexivity.
Qed.

(** The loop over the chunks sends them in turn. *)
Lemma chunk_loop_send_chunks depth items :
  1 <= maxBatchSize svc ->
  forall budget i results sent,
    length items - i <= budget ->
    chunk_loop (generateBatchEmbeddings backend (S depth) svc) (maxBatchSize svc)
               items budget i results sent
    = Some (send_chunks backend svc
              (chunks_of budget (maxBatchSize svc)
                 (map (_preprocessText svc) (skipn i items)))
              results sent).
Proof.
  intros Hmax.
  induction budget as [| budget IH]; intros i results sent Hbudget.
  - cbn [chunk_loop]. assert (Hi : (i <? length items)%nat = false) by (apply Nat.ltb_ge; lia).
    now rewrite Hi.
  - cbn [chunk_loop]. destruct (i <? length items)%nat eqn:Hi.
    + apply Nat.ltb_lt in Hi.
      destruct (slice_chunk items i (maxBatchSize svc) Hi Hmax) as [Hchunk [Hne Hlen]].
      rewrite (generateBatchEmbeddings_one_request backend svc Hinitialized depth _ sent
                 Hne Hlen).
      rewrite Hchunk. unfold one_request.
      rewrite chunks_of_cons.
      2:{ intros Hnil. apply (f_equal (@length string)) in Hnil.
          rewrite length_map, length_skipn in Hnil. simpl in Hnil. lia. }
      cbn [send_chunks]. rewrite <- firstn_map.
      destruct (_callApi backend svc _ sent) as [[embeddings | message] sent'];
        [| reflexivity].
      rewrite IH by lia. rewrite skipn_map, skipn_skipn.
      now replace (maxBatchSize svc + i) with (i + maxBatchSize svc) by lia.
    + apply Nat.ltb_ge in Hi. rewrite skipn_all2 by lia. cbn [map].
      now rewrite chunks_of_nil.
Qed.

End Chunks.

(** What [send_chunks] leaves sent, and where it stops. *)
Lemma send_chunks_stops backend svc chunks : forall results sent,
  exists k,
    k <= length chunks
    /\ snd (send_chunks backend svc chunks results sent)
       = (sent ++ map Many (firstn k chunks))%list
    /\ match fst (send_chunks backend svc chunks results sent) with
       | Return _ => k = length chunks
       | Throw message =>
           1 <= k
           /\ exists cause,
                message = "Failed to generate batch embeddings: " ++ cause
                /\ fst (_callApi backend svc (Many (nth (k - 1) chunks []))
                          (sent ++ map Many (firstn (k - 1) chunks))%list)
                   = Throw cause
       end.
Proof.
  induction chunks as [| chunk rest IH]; intros results sent.
  - exists 0. simpl. rewrite app_nil_r. repeat split; lia.
  - cbn [send_chunks].
    destruct (_callApi backend svc (Many chunk) sent) as [[embeddings | message] sent'] eqn:Hcall.
    + assert (Hsent : sent' = (sent ++ [Many chunk])%list)
        by (unfold _callApi in Hcall; now injection Hcall).
      destruct (IH (results ++ embeddings)%list sent') as (k & Hk & Hsnd & Hfst).
      exists (S k). split; [simpl; lia |]. split.
      * rewrite Hsnd, Hsent. simpl. now rewrite <- app_assoc.
      * destruct (fst (send_chunks backend svc rest (results ++ embeddings)%list sent'))
          as [v | m]; [simpl; lia |].
        destruct Hfst as (Hk1 & cause & Hm & Hcause). split; [lia |].
        exists cause. split; [exact Hm |].
        replace (S k - 1) with (S (k - 1)) by lia. simpl.
        rewrite Hsent in Hcause. now rewrite <- app_assoc in Hcause.
    + assert (Hsent : sent' = (sent ++ [Many chunk])%list)
        by (unfold _callApi in Hcall; now injection Hcall).
      exists 1. cbn [fst snd length firstn map Nat.sub nth].
      split; [lia |]. split; [now rewrite Hsent |].
      split; [lia |]. exists message. split; [reflexivity |].
      rewrite app_nil_r. now rewrite Hcall.
Qed.

Lemma chunks_of_concat {A : Type} step : 1 <= step -> forall budget (l : list A),
  length l <= budget -> concat (chunks_of budget step l) = l.
Proof.
  intros Hstep. induction budget as [| budget IH]; intros [| x l] Hlen; try reflexivity.
  - simpl in Hlen. lia.
  - cbn [chunks_of concat]. rewrite IH; [apply firstn_skipn |].
    rewrite length_skipn. simpl in *. lia.
Qed.

(** X12.  On an initialized service with a maximum batch size of at least 1,
    [generateBatchEmbeddings] on a non-empty array preprocesses the texts,
    cuts them into consecutive chunks of the maximum size and sends the
    chunks as requests one after the other.  It stops at the first request
    that fails: no chunk after it is sent, the vectors answered before are
    dropped, and the error is that of the failed request under the one
    prefix of [generateBatchEmbeddings].  It returns only when every chunk
    has been sent. *)
Theorem generateBatchEmbeddings_stops_at_failure backend svc items sent depth :
  initialized svc = true -> 1 <= maxBatchSize svc -> items <> [] ->
  let chunks := chunked (maxBatchSize svc) (map (_preprocessText svc) items) in
  concat chunks = map (_preprocessText svc) items
  /\ generateBatchEmbeddings backend (S (S depth)) svc (JArr items) sent
     = Some (send_chunks backend svc chunks [] sent)
  /\ exists k o,
       generateBatchEmbeddings backend (S (S depth)) svc (JArr items) sent
       = Some (o, (sent ++ map Many (firstn k chunks))%list)
       /\ k <= length chunks
       /\ match o with
          | Return _ => k = length chunks
          | Throw message =>
              1 <= k
              /\ exists cause,
                   message = "Failed to generate batch embeddings: " ++ cause
                   /\ fst (_callApi backend svc (Many (nth (k - 1) chunks []))
                             (sent ++ map Many (firstn (k - 1) chunks))%list)
                      = Throw cause
          end.
Proof.
  intros Hinit Hmax Hne chunks.
  assert (Hrun : generateBatchEmbeddings backend (S (S depth)) svc (JArr items) sent
                 = Some (send_chunks backend svc chunks [] sent)).
  { subst chunks. unfold chunked. rewrite length_map.
    destruct (le_lt_dec (length items) (maxBatchSize svc)) as [Hshort | Hlong].
    - rewrite (generateBatchEmbeddings_one_request backend svc Hinit (S depth) items sent
                 Hne Hshort).
      rewrite one_request_send_chunks. do 2 f_equal.
      destruct items as [| x rest]; [contradiction |].
      cbn [length map chunks_of].
      change (_preprocessText svc x :: map (_preprocessText svc) rest)
        with (map (_preprocessText svc) (x :: rest)).
      rewrite firstn_all2, skipn_all2 by (rewrite length_map; exact Hshort).
      now rewrite chunks_of_nil.
    - assert (Hloop : generateBatchEmbeddings backend (S (S depth)) svc (JArr items) sent
                      = chunk_loop (generateBatchEmbeddings backend (S depth) svc)
                                   (maxBatchSize svc) items (length items) 0 [] sent).
      { cbn [generateBatchEmbeddings]. rewrite Hinit. cbn [negb].
        destruct items as [| x rest]; [contradiction |].
        change (Nat.eqb (length (x :: rest)) 0) with false. cbv iota.
        apply Nat.ltb_lt in Hlong. now rewrite Hlong. }
      rewrite Hloop.
      now rewrite (chunk_loop_send_chunks backend svc Hinit depth items Hmax) by lia. }
  split; [| split; [exact Hrun |]].
  - subst chunks. unfold chunked. now apply chunks_of_concat.
  - destruct (send_chunks_stops backend svc chunks [] sent) as (k & Hk & Hsnd & Hfst).
    exists k, (fst (send_chunks backend svc chunks [] sent)).
    split; [| split; [exact Hk | exact Hfst]].
    rewrite Hrun, <- Hsnd. now destruct (send_chunks backend svc chunks [] sent).
Qed.

(** Three texts at a maximum batch size of 1, the second request refused:
    the third text is never sent. *)
Lemma generateBatchEmbeddings_stops_at_failure_witness :
  generateBatchEmbeddings (fails_after 1 length_vector) 2
    {| maxBatchSize := 1; requestTimeout := 30000; maxTextLength := 8192;
       initialized := true |}
    (JArr [JStr "a"; JStr "b"; JStr "c"]) []
  = Some (Throw ("Failed to generate batch embeddings: "
                 ++ "API request failed with status 503: Service Unavailable"),
          [Many ["a"]; Many ["b"]]).
Proof.
  exact (proj1 (proj2 (generateBatchEmbeddings_stops_at_failure
                         (fails_after 1 length_vector)
                         {| maxBatchSize := 1; requestTimeout := 30000;
                            maxTextLength := 8192; initialized := true |}
                         [JStr "a"; JStr "b"; JStr "c"] [] 0
                         eq_refl (le_n 1) ltac:(discriminate)))).
Defined.

(** X13.  With a maximum batch size of 0 every non-empty array is refused
    as if it were empty: the first chunk the loop cuts has no element, the
    call on it throws the invalid-input error, and no request is sent. *)
Theorem generateBatchEmbeddings_zero_batch_size backend svc items sent depth :
  initialized svc = true -> maxBatchSize svc = 0 -> items <> [] ->
  generateBatchEmbeddings backend (S (S depth)) svc (JArr items) sent
  = Some (Throw invalid_texts, sent).
Proof.
  intros Hinit Hmax Hne. destruct items as [| x rest]; [contradiction |].
  cbn [generateBatchEmbeddings]. rewrite Hinit, Hmax. cbn [negb].
  change (Nat.eqb (length (x :: rest)) 0) with false. cbv iota.
  change (0 <? length (x :: rest))%nat with true. cbv iota.
  cbn [length chunk_loop]. change (0 <? S (length rest))%nat with true. cbv iota.
  unfold slice. cbn [Nat.add Nat.sub]. rewrite firstn_O. reflexivity.
Qed.

(** Two texts on a service configured with the batch size 0. *)
Lemma generateBatchEmbeddings_zero_batch_size_witness :
  generateBatchEmbeddings (answering length_vector) 2
    {| maxBatchSize := 0; requestTimeout := 30000; maxTextLength := 8192;
       initialized := true |}
    (JArr [JStr "a"; JStr "b"]) []
  = Some (Throw invalid_texts, []).
Proof.
  exact (generateBatchEmbeddings_zero_batch_size (answering length_vector)
           {| maxBatchSize := 0; requestTimeout := 30000; maxTextLength := 8192;
              initialized := true |}
           [JStr "a"; JStr "b"] [] 0 eq_refl eq_refl ltac:(discriminate)).
Defined.

(** X14.  [initialize] leaves the service initialized exactly when it
    returns.  It sends nothing when the service is initialized already or no
    API key is configured, and otherwise the one request for the text
    "test connection".  When it throws, the service still refuses every
    call of [generateEmbedding] and of [generateBatchEmbeddings] without
    sending a request.  The other fields are never changed. *)
Theorem initialize_gate backend apiKey svc sent :
  let '(o, svc', sent') := initialize backend apiKey svc sent in
  (initialized svc' = true <-> o = Return tt)
  /\ (maxBatchSize svc', requestTimeout svc', maxTextLength svc')
     = (maxBatchSize svc, requestTimeout svc, maxTextLength svc)
  /\ sent' = (if (initialized svc
                  || match apiKey with Some key => String.eqb key "" | None => true end)%bool
              then sent else (sent ++ [One "test connection"])%list)
  /\ (initialized svc = false ->
      match apiKey with Some key => String.eqb key "" | None => true end = true ->
      o = Throw "Hugging Face API key not configured")
  /\ (o <> Return tt ->
      forall x depth,
        generateEmbedding backend svc' x sent'
        = (Throw "Embedding service not initialized", sent')
        /\ generateBatchEmbeddings backend (S depth) svc' x sent'
           = Some (Throw "Embedding service not initialized", sent')).
Proof.
  unfold initialize. destruct (initialized svc) eqn:Hinit.
  - cbn [orb]. repeat split; try assumption; congruence.
  - cbn [orb].
    destruct (match apiKey with Some key => String.eqb key "" | None => true end) eqn:Hkey.
    + repeat split; try congruence.
      * unfold generateEmbedding. now rewrite Hinit.
      * cbn [generateBatchEmbeddings]. now rewrite Hinit.
    + unfold _callApi.
      destruct (backend sent (One "test connection")) as [body | status errorText | | message];
        cbn [initialized maxBatchSize requestTimeout maxTextLength];
        repeat split; try congruence; try discriminate;
        try (unfold generateEmbedding; now rewrite Hinit);
        try (cbn [generateBatchEmbeddings]; now rewrite Hinit).
Qed.

End EmbeddingServiceMore.

(** ** The file agent, continued *)
Module FileAgentMore.
Import FileAgent FileAgentFacts.

(** *** The cache *)

Lemma cache_sound_insert fs_readFile path text w w' :
  cache_sound fs_readFile w -> path <> "" ->
  fs_readFile path (clock w) = FileContent text ->
  fileCache w' = <[path := entry_of text (clock w)]> (fileCache w) ->
  cache_sound fs_readFile w'.
Proof.
  intros Hsound Hpath Hread Hcache other e. rewrite Hcache.
  destruct (decide (path = other)) as [<- | Hne].
  - rewrite lookup_insert_eq. intros H. injection H as <-. simpl. now repeat split.
  - rewrite lookup_insert_ne by exact Hne. apply Hsound.
Qed.

Lemma cache_sound_delete fs_readFile path w w' :
  cache_sound fs_readFile w ->
  fileCache w' = delete path (fileCache w) ->
  cache_sound fs_readFile w'.
Proof.
  intros Hsound Hcache other e. rewrite Hcache.
  destruct (decide (path = other)) as [<- | Hne].
  - now rewrite lookup_delete_eq.
  - rewrite lookup_delete_ne by exact Hne. apply Hsound.
Qed.

(** X15.  When every cache entry holds a text that the file system gave for
    its path at the time of the entry, this is still so after [readFile],
    whatever its outcome, and no entry of another path is touched.  What
    [readFile] returns is a text the file system gave for the path at a time
    [t]: the time of the call when the file was read, and otherwise a time
    less than the time to live before the call.  The text returned is the
    one then cached for the path; and after a throw the path has no entry. *)
Theorem readFile_freshness fs_readFile agent path w :
  cache_sound fs_readFile w ->
  let o := fst (readFile fs_readFile agent path w) in
  let w' := snd (readFile fs_readFile agent path w) in
  cache_sound fs_readFile w'
  /\ (forall other, other <> path -> fileCache w' !! other = fileCache w !! other)
  /\ (forall r, o = Return r ->
        read_path r = path
        /\ exists t,
             fs_readFile path t = FileContent (read_content r)
             /\ fileCache w' !! path = Some (entry_of (read_content r) t)
             /\ read_metadata r = cached_metadata (entry_of (read_content r) t)
             /\ (if fromCache r then (clock w - t < cacheTTL agent)%Z /\ w' = w
                 else t = clock w /\ reads w' = (reads w ++ [path])%list))
  /\ (forall message, o = Throw message -> fileCache w' !! path = None).
Proof.
  intros Hsound. unfold readFile, readFile_launch.
  destruct (String.eqb_spec path "") as [-> | Hpath].
  - simpl. split; [exact Hsound |]. split; [reflexivity |]. split; [discriminate |].
    intros _ _. destruct (fileCache w !! "") as [e |] eqn:Hget; [| reflexivity].
    now destruct (Hsound "" e Hget) as [Hne _].
  - destruct (fileCache w !! path) as [e |] eqn:Hget.
    + destruct (Hsound path e Hget) as (_ & Hread & He).
      destruct (clock w - timestamp e <? cacheTTL agent)%Z eqn:Hfresh.
      * cbn [fst snd readFile_resume]. split; [exact Hsound |]. split; [reflexivity |].
        split; [| discriminate].
        intros r Hr. injection Hr as <-.
        cbn [read_path read_content read_metadata fromCache]. split; [reflexivity |].
        exists (timestamp e). rewrite <- He. apply Z.ltb_lt in Hfresh.
        repeat split; try assumption; reflexivity.
      * destruct (view_registered agent); simpl.
        -- unfold viewTool_execute. apply String.eqb_neq in Hpath. rewrite Hpath.
           apply String.eqb_neq in Hpath. simpl.
           destruct (fs_readFile path (clock w)) as [text | message] eqn:Hfs; simpl.
           ++ split.
              { eapply (cache_sound_insert fs_readFile path text
                          (with_fileCache (delete path (fileCache w)) w));
                  [eapply cache_sound_delete; [exact Hsound | reflexivity]
                  | exact Hpath | exact Hfs | reflexivity]. }
              split.
              { intros other Hne. rewrite lookup_insert_ne by congruence.
                now rewrite lookup_delete_ne by congruence. }
              split; [| discriminate].
              intros r Hr. injection Hr as <-. simpl. split; [reflexivity |].
              exists (clock w). rewrite lookup_insert_eq. repeat split. exact Hfs.
           ++ split; [eapply cache_sound_delete; [exact Hsound | reflexivity] |].
              split; [intros other Hne; now rewrite lookup_delete_ne by congruence |].
              split; [discriminate |]. intros _ _. apply lookup_delete_eq.
        -- split; [eapply cache_sound_delete; [exact Hsound | reflexivity] |].
           split; [intros other Hne; now rewrite lookup_delete_ne by congruence |].
           split; [discriminate |]. intros _ _. apply lookup_delete_eq.
    + destruct (view_registered agent); simpl.
      * unfold viewTool_execute. apply String.eqb_neq in Hpath. rewrite Hpath.
        apply String.eqb_neq in Hpath. simpl.
        destruct (fs_readFile path (clock w)) as [text | message] eqn:Hfs; simpl.
        -- split.
           { eapply (cache_sound_insert fs_readFile path text w);
               [exact Hsound | exact Hpath | exact Hfs | reflexivity]. }
           split; [intros other Hne; now rewrite lookup_insert_ne by congruence |].
           split; [| discriminate].
           intros r Hr. injection Hr as <-. simpl. split; [reflexivity |].
           exists (clock w). rewrite lookup_insert_eq. repeat split. exact Hfs.
        -- split; [exact Hsound |]. split; [reflexivity |].
           split; [discriminate |]. intros _ _. exact Hget.
      * split; [exact Hsound |]. split; [reflexivity |].
        split; [discriminate |]. intros _ _. exact Hget.
Qed.

(** A first read into an empty cache. *)
Lemma readFile_freshness_witness :
  cache_sound third_unreadable
    (snd (readFile third_unreadable indexing_agent "f1" (fresh_world 0))).
Proof.
  apply (readFile_freshness third_unreadable indexing_agent "f1" (fresh_world 0)).
  intros path e H. simpl in H. rewrite lookup_empty in H. discriminate.
Defined.

(** *** What indexing leaves behind *)

Section Effects.
Variable fs_readFile : string -> Z -> fs_result.
Variable backend :
  list EmbeddingService.api_input -> EmbeddingService.api_input -> EmbeddingService.fetch_outcome.
Variable storeMemory : list string -> string -> option string.
Variable agent : t.
Variable svc : EmbeddingService.t.

Lemma generateEmbedding_sent text sent0 :
  let o := fst (EmbeddingService.generateEmbedding backend svc text sent0) in
  let sent1 := snd (EmbeddingService.generateEmbedding backend svc text sent0) in
  length sent0 <= length sent1 <= length sent0 + 1
  /\ (forall embedding, o = Return embedding -> length sent1 = length sent0 + 1).
Proof.
  unfold EmbeddingService.generateEmbedding.
  destruct (negb (EmbeddingService.initialized svc)); [simpl; split; [lia | discriminate] |].
  destruct (EmbeddingService.not_a_text text); [simpl; split; [lia | discriminate] |].
  unfold EmbeddingService._callApi.
  destruct (backend sent0 _); simpl; rewrite length_app; simpl; split; try lia;
    try discriminate; intros; lia.
Qed.







End Effects.

(** A run of [indexFiles] that returns has got the files from the glob
    tool, and reports on them in their order. *)
Lemma indexFiles_returned
    fs_readFile glob_execute backend storeMemory agent pattern w response w' :
  indexFiles fs_readFile glob_execute backend storeMemory agent pattern w
  = Some (Return response, w') ->
  pattern <> ""
  /\ exists files,
       glob_execute pattern (clock w) = Success files
       /\ totalFiles (index_data response) = length files
       /\ map detail_path (details (index_data response)) = files.
Proof.
  intros Hrun.
  destruct (String.eqb_spec pattern "") as [Hempty | Hpattern].
  { unfold indexFiles in Hrun. rewrite Hempty in Hrun. discriminate. }
  split; [exact Hpattern |].
  destruct (embeddingService agent) as [svc |] eqn:Hsvc.
  2:{ unfold indexFiles in Hrun. apply String.eqb_neq in Hpattern.
      rewrite Hpattern, Hsvc in Hrun. discriminate. }
  destruct (memoryEngine agent) eqn:Hmemory.
  2:{ unfold indexFiles in Hrun. apply String.eqb_neq in Hpattern.
      rewrite Hpattern, Hsvc, Hmemory in Hrun. discriminate. }
  destruct (glob_registered agent) eqn:Hglob.
  2:{ unfold indexFiles, searchFiles in Hrun. apply String.eqb_neq in Hpattern.
      rewrite Hpattern, Hsvc, Hmemory, Hglob in Hrun. discriminate. }
  destruct (glob_execute pattern (clock w)) as [files | error] eqn:Hfiles.
  2:{ unfold indexFiles, searchFiles in Hrun. apply String.eqb_neq in Hpattern.
      rewrite Hpattern, Hsvc, Hmemory, Hglob, Hfiles in Hrun. discriminate. }
  destruct (indexFiles_runs fs_readFile glob_execute backend storeMemory agent svc pattern
              w files Hpattern Hsvc Hmemory Hglob Hfiles)
    as (response' & w'' & rounds & Hrun' & _ & Hmap & _ & Hpaths & _ & Ht & _ & _ & Hd).
  rewrite Hrun in Hrun'. injection Hrun' as <- <-.
  exists files. split; [reflexivity |]. split; [exact Ht |].
  rewrite Hd, detail_of_path by exact Hpaths. exact Hmap.
Qed.

(** X16.  [indexFiles] always comes to an end, and it throws only for what
    it checks before any file is touched: an empty pattern, a missing
    embedding service or memory engine, a glob tool that is not registered or
    that fails.  Then nothing has been read, sent, kept or logged.  In every
    other case it returns a report on all the files found, whatever happens
    to the single files. *)
Theorem indexFiles_throws_before_any_work
    fs_readFile glob_execute backend storeMemory agent pattern w :
  exists o w',
    indexFiles fs_readFile glob_execute backend storeMemory agent pattern w = Some (o, w')
    /\ match o with
       | Throw message =>
           w' = w
           /\ ((pattern = "" /\ message = "Missing required parameter: pattern")
               \/ (pattern <> "" /\ embeddingService agent = None
                   /\ message = "Embedding service required for file indexing")
               \/ (pattern <> "" /\ memoryEngine agent = false
                   /\ message = "Memory engine required for file indexing")
               \/ (pattern <> "" /\ glob_registered agent = false
                   /\ message = "Tool not found: glob")
               \/ (exists error,
                     glob_execute pattern (clock w) = Failure error
                     /\ message
                        = "Failed to search for files matching " ++ pattern ++ ": " ++ error))
       | Return response =>
           pattern <> "" /\ embeddingService agent <> None /\ memoryEngine agent = true
           /\ glob_registered agent = true
           /\ exists files,
                glob_execute pattern (clock w) = Success files
                /\ totalFiles (index_data response) = length files
                /\ length (details (index_data response)) = length files
       end.
Proof.
  destruct (String.eqb_spec pattern "") as [Hempty | Hpattern].
  { exists (Throw "Missing required parameter: pattern"), w. unfold indexFiles.
    rewrite Hempty. simpl. split; [reflexivity |]. split; [reflexivity |]. now left. }
  destruct (embeddingService agent) as [svc |] eqn:Hsvc.
  2:{ exists (Throw "Embedding service required for file indexing"), w. unfold indexFiles.
      apply String.eqb_neq in Hpattern. rewrite Hpattern, Hsvc. apply String.eqb_neq in Hpattern.
      split; [reflexivity |]. split; [reflexivity |]. right. left. now repeat split. }
  destruct (memoryEngine agent) eqn:Hmemory.
  2:{ exists (Throw "Memory engine required for file indexing"), w. unfold indexFiles.
      apply String.eqb_neq in Hpattern. rewrite Hpattern, Hsvc, Hmemory.
      apply String.eqb_neq in Hpattern.
      split; [reflexivity |]. split; [reflexivity |]. right. right. left. now repeat split. }
  destruct (glob_registered agent) eqn:Hglob.
  2:{ exists (Throw "Tool not found: glob"), w. unfold indexFiles, searchFiles.
      apply String.eqb_neq in Hpattern. rewrite Hpattern, Hsvc, Hmemory, Hglob.
      apply String.eqb_neq in Hpattern.
      split; [reflexivity |]. split; [reflexivity |]. right. right. right. left.
      now repeat split. }
  destruct (glob_execute pattern (clock w)) as [files | error] eqn:Hfiles.
  2:{ exists (Throw ("Failed to search for files matching " ++ pattern ++ ": " ++ error)), w.
      unfold indexFiles, searchFiles.
      apply String.eqb_neq in Hpattern. rewrite Hpattern, Hsvc, Hmemory, Hglob, Hfiles.
      split; [reflexivity |]. split; [reflexivity |]. right. right. right. right.
      now exists error. }
  destruct (indexFiles_runs fs_readFile glob_execute backend storeMemory agent svc pattern
              w files Hpattern Hsvc Hmemory Hglob Hfiles)
    as (response & w' & rounds & Hrun & _ & Hmap & _ & _ & _ & Ht & _ & _ & Hd).
  exists (Return response), w'. split; [exact Hrun |].
  repeat split; try assumption; try discriminate.
  exists files. split; [reflexivity |]. split; [exact Ht |].
  rewrite Hd, length_map, <- Hmap. now rewrite length_map.
Qed.



(** X18.  A file whose content is the empty string is read and cached, but
    it is not indexed: the operation on it is rejected with the
    invalid-input error of [generateEmbedding], no request is sent for it and
    nothing is kept for it in the memory engine. *)
Theorem empty_file_is_not_indexed fs_readFile backend storeMemory agent svc path w :
  path <> "" -> view_registered agent = true ->
  EmbeddingService.initialized svc = true ->
  stale agent path w -> fs_readFile path (clock w) = FileContent "" ->
  let o := fst (_indexSingleFile fs_readFile backend storeMemory agent svc path w) in
  let w' := snd (_indexSingleFile fs_readFile backend storeMemory agent svc path w) in
  o = Throw EmbeddingService.invalid_text
  /\ sent w' = sent w /\ memories w' = memories w
  /\ reads w' = (reads w ++ [path])%list
  /\ fileCache w' !! path = Some (entry_of "" (clock w))
  /\ events w' = (events w ++ [Launch path; Settle path (Throw EmbeddingService.invalid_text)])%list.
Proof.
  intros Hpath Hview Hinit Hstale Hfs.
  assert (Hstale' : stale agent path (log_event (Launch path) w)) by exact Hstale.
  pose proof (readFile_stale fs_readFile agent path _ Hpath Hstale' Hview) as Hread.
  cbn [clock log_event] in Hread. rewrite Hfs in Hread.
  unfold _indexSingleFile, _indexSingleFile_launch, _indexSingleFile_resume.
  unfold readFile in Hread.
  destruct (readFile_launch fs_readFile agent path (log_event (Launch path) w)) as [p w1].
  rewrite Hread. unfold index_content. cbn [read_content].
  unfold EmbeddingService.generateEmbedding. rewrite Hinit. cbn.
  repeat split; try reflexivity.
  - apply lookup_insert_eq.
  - now rewrite <- app_assoc.
Qed.

(** The file "a" in a file system of empty files. *)
Lemma empty_file_is_not_indexed_witness :
  fst (_indexSingleFile all_empty (EmbeddingService.answering EmbeddingService.length_vector)
         keeps_all indexing_agent
         {| EmbeddingService.maxBatchSize := 64; EmbeddingService.requestTimeout := 30000;
            EmbeddingService.maxTextLength := 8192; EmbeddingService.initialized := true |}
         "a" (fresh_world 0))
  = Throw EmbeddingService.invalid_text.
Proof.
  exact (proj1 (empty_file_is_not_indexed all_empty
                  (EmbeddingService.answering EmbeddingService.length_vector) keeps_all
                  indexing_agent
                  {| EmbeddingService.maxBatchSize := 64;
                     EmbeddingService.requestTimeout := 30000;
                     EmbeddingService.maxTextLength := 8192;
                     EmbeddingService.initialized := true |}
                  "a" (fresh_world 0) ltac:(discriminate) eq_refl eq_refl I eq_refl)).
Defined.

(** *** Analysis *)

Lemma count_lines_positive content : 1 <= count_lines content.
Proof.
  induction content as [| c rest IH]; simpl; [lia |].
  destruct (Ascii.eqb c "010"); lia.
Qed.

(** X23.  [analyzeFile] throws exactly when its read of the file throws,
    with the same error.  Otherwise it returns an analysis of the text read,
    with its length, its number of lines (at least 1) and the results of the
    heuristics, whether or not the content could be embedded and the
    analysis kept: [hasEmbedding] tells whether [generateEmbedding]
    returned, and is false for an empty file; at most one request is sent
    and at most the key [file_analysis:<path>] is kept. *)
Theorem analyzeFile_survives {Keywords FileType Summary : Type}
    fs_readFile backend storeMemory
    (_extractKeywords : string -> Keywords) (_determineFileType : string -> string -> FileType)
    (_summarizeContent : string -> Summary) agent path w :
  let o := fst (analyzeFile fs_readFile backend storeMemory _extractKeywords
                  _determineFileType _summarizeContent agent path w) in
  let w' := snd (analyzeFile fs_readFile backend storeMemory _extractKeywords
                   _determineFileType _summarizeContent agent path w) in
  match readFile fs_readFile agent path w with
  | (Throw message, w1) => o = Throw message /\ w' = w1
  | (Return r, w1) =>
      exists a,
        o = Return a
        /\ analysis_path a = path
        /\ analysis_size a = String.length (read_content r)
        /\ lineCount a = count_lines (read_content r) /\ 1 <= lineCount a
        /\ topKeywords a = _extractKeywords (read_content r)
        /\ fileType a = _determineFileType path (read_content r)
        /\ summary a = _summarizeContent (read_content r)
        /\ (hasEmbedding a = true <->
            exists svc vector,
              embeddingService agent = Some svc
              /\ fst (EmbeddingService.generateEmbedding backend svc (JStr (read_content r))
                        (sent w1))
                 = Return vector)
        /\ (read_content r = "" -> hasEmbedding a = false)
        /\ fileCache w' = fileCache w1 /\ reads w' = reads w1 /\ events w' = events w1
        /\ (memories w' = memories w1
            \/ (memoryEngine agent = true
                /\ memories w' = (memories w1 ++ [("file_analysis:" ++ path)%string])%list))
        /\ length (sent w1) <= length (sent w') <= length (sent w1) + 1
  end.
Proof.
  intros o w'. subst o w'. unfold analyzeFile.
  destruct (String.eqb_spec path "") as [-> | Hpath].
  { unfold readFile, readFile_launch. simpl. now split. }
  destruct (readFile fs_readFile agent path w) as [[r | message] w1]; [| now split].
  set (content := read_content r).
  assert (Hembed :
    exists embedding w2,
      match embeddingService agent with
      | Some svc =>
          match EmbeddingService.generateEmbedding backend svc (JStr content) (sent w1) with
          | (Return vector, sent') => (Some vector, with_sent sent' w1)
          | (Throw _, sent') => (None, with_sent sent' w1)
          end
      | None => (None, w1)
      end = (embedding, w2)
      /\ ((exists vector, embedding = Some vector) <->
          exists svc vector,
            embeddingService agent = Some svc
            /\ fst (EmbeddingService.generateEmbedding backend svc (JStr content) (sent w1))
               = Return vector)
      /\ (content = "" -> embedding = None)
      /\ fileCache w2 = fileCache w1 /\ reads w2 = reads w1 /\ events w2 = events w1
      /\ memories w2 = memories w1
      /\ length (sent w1) <= length (sent w2) <= length (sent w1) + 1).
  { destruct (embeddingService agent) as [svc |].
    - pose proof (generateEmbedding_sent backend svc (JStr content) (sent w1)) as [Hbound _].
      assert (Hempty : content = "" ->
                       forall vector,
                         fst (EmbeddingService.generateEmbedding backend svc (JStr content)
                                (sent w1)) <> Return vector).
      { intros -> vector. unfold EmbeddingService.generateEmbedding.
        destruct (negb (EmbeddingService.initialized svc)); discriminate. }
      destruct (EmbeddingService.generateEmbedding backend svc (JStr content) (sent w1))
        as [[vector | message] sent'] eqn:Hgen; cbn [fst snd] in *.
      + exists (Some vector), (with_sent sent' w1). split; [reflexivity |]. split.
        * split; [intros _ | intros _; now exists vector].
          exists svc, vector. split; [reflexivity | now rewrite Hgen].
        * split; [intros Hc; exfalso; exact (Hempty Hc vector eq_refl) |]. now repeat split.
      + exists None, (with_sent sent' w1). split; [reflexivity |]. split.
        * split; [intros [v Hv]; discriminate |].
          intros (svc' & v & Hsvc & Hv). injection Hsvc as <-. rewrite Hgen in Hv.
          discriminate.
        * now repeat split.
    - exists None, w1. split; [reflexivity |]. split.
      + split; [intros [v Hv]; discriminate | intros (svc' & v & Hsvc & _); discriminate].
      + repeat split; lia. }
  destruct Hembed as (embedding & w2 & -> & Hhas & Hempty & Hc & Hr & He & Hm & Hs).
  eexists. cbn [fst snd]. split; [reflexivity |].
  cbn [analysis_path analysis_size lineCount hasEmbedding topKeywords fileType summary].
  split; [reflexivity |]. split; [reflexivity |]. split; [reflexivity |].
  split; [apply count_lines_positive |].
  split; [reflexivity |]. split; [reflexivity |]. split; [reflexivity |].
  split.
  { rewrite <- Hhas. destruct embedding as [vector |]; split.
    - intros _. now exists vector.
    - reflexivity.
    - discriminate.
    - intros [v Hv]. discriminate. }
  split; [intros Hc'; now rewrite (Hempty Hc') |].
  destruct (memoryEngine agent); [| repeat split; try assumption; try lia; now left].
  destruct (storeMemory (memories w2) _); cbn [fileCache reads events memories sent with_memories].
  - repeat split; try assumption; try lia. now left.
  - repeat split; try assumption; try lia. right. split; [reflexivity |]. now rewrite Hm.
Qed.

End FileAgentMore.

(** ** The tool registry *)
Module ToolRegistryFacts.
Import ToolRegistry OrderedMapFacts.

(** Every tool is kept under its own name, and no name is kept twice. *)
Lemma reachable_named reg :
  reachable reg ->
  List.NoDup (getToolNames reg) /\ Forall (fun e => getName (snd e) = fst e) reg.
Proof.
  induction 1 as [| reg [tool |] Hreg [Hnd Hnames]].
  - split; constructor.
  - simpl. split; [now apply map_set_NoDup |].
    clear Hnd Hreg. induction reg as [| [k v] reg IH]; simpl.
    + now repeat constructor.
    + inversion Hnames as [| ? ? Hk Hrest]; subst.
      destruct (String.eqb (getName tool) k); constructor; auto.
  - simpl. now split.
Qed.

(** X19.  In a registry built by calls of [registerTool], [getTool] returns
    a tool exactly for the names [hasTool] accepts, which are the names
    [getToolNames] lists; it throws [Tool not found: <name>] for every other
    name.  No name is listed twice, the tool returned for a name is one whose
    [getName()] is that name, and [getToolInfo] lists the names in the order
    of [getToolNames], each with the description of its tool. *)
Theorem registry_lookup reg :
  reachable reg ->
  List.NoDup (getToolNames reg)
  /\ map info_name (getToolInfo reg) = getToolNames reg
  /\ forall name,
       (hasTool name reg = true <-> In name (getToolNames reg))
       /\ (hasTool name reg = true ->
           exists tool,
             getTool name reg = Return tool /\ getName tool = name
             /\ In {| info_name := name; info_description := getDescription tool |}
                   (getToolInfo reg))
       /\ (hasTool name reg = false -> getTool name reg = Throw ("Tool not found: " ++ name)).
Proof.
  intros Hreg. destruct (reachable_named reg Hreg) as [Hnd Hnames].
  split; [exact Hnd |]. split; [unfold getToolInfo, getToolNames; now rewrite map_map |].
  intros name. split; [apply map_has_In |]. unfold hasTool, map_has, getTool. split.
  - destruct (map_get name reg) as [tool |] eqn:Hget; [| discriminate]. intros _.
    exists tool. apply map_get_In in Hget.
    split; [reflexivity |]. split.
    + rewrite List.Forall_forall in Hnames. exact (Hnames _ Hget).
    + unfold getToolInfo.
      exact (in_map (fun e => {| info_name := fst e;
                                 info_description := getDescription (snd e) |}) _ _ Hget).
  - now destruct (map_get name reg).
Qed.

(** The registry of the two tools, the view tool registered twice. *)
Lemma registry_lookup_witness :
  let reg := snd (registerTool (IsTool viewTool)
                    (snd (registerTool (IsTool globTool)
                            (snd (registerTool (IsTool viewTool) create))))) in
  getToolNames reg = ["view"; "glob"] /\ List.NoDup (getToolNames reg).
Proof.
  split; [reflexivity |].
  apply (registry_lookup
           (snd (registerTool (IsTool viewTool)
                   (snd (registerTool (IsTool globTool)
                           (snd (registerTool (IsTool viewTool) create))))))).
  repeat constructor.
Defined.

(** X20.  [registerTool] on something that is no tool throws and leaves the
    registry as it is.  On a tool it returns; afterwards [getTool] returns
    that tool for its name and what it did before for every other name; a
    name registered before keeps its place in [getToolNames], its former
    tool being replaced, and a new name is added at the end. *)
Theorem registerTool_then_getTool reg :
  registerTool NotATool reg
  = (Throw "Invalid tool implementation: must have getName() and execute() methods", reg)
  /\ forall tool,
       let reg' := snd (registerTool (IsTool tool) reg) in
       fst (registerTool (IsTool tool) reg) = Return tt
       /\ getTool (getName tool) reg' = Return tool
       /\ hasTool (getName tool) reg' = true
       /\ (forall name, name <> getName tool ->
             getTool name reg' = getTool name reg /\ hasTool name reg' = hasTool name reg)
       /\ getToolNames reg'
          = (if hasTool (getName tool) reg then getToolNames reg
             else (getToolNames reg ++ [getName tool])%list).
Proof.
  split; [reflexivity |]. intros tool. simpl.
  unfold getTool, hasTool, map_has, getToolNames.
  rewrite map_get_set_eq. repeat split.
  - now rewrite map_get_set_ne by congruence.
  - now rewrite map_get_set_ne by congruence.
  - apply map_set_keys.
Qed.

End ToolRegistryFacts.

(** ** The glob tool *)
Module GlobToolFacts.
Import GlobTool.

Lemma slice_0 {A : Type} n (l : list A) : slice 0 n l = firstn n l.
Proof. unfold slice. now rewrite Nat.sub_0_r, skipn_O. Qed.

Lemma firstn_whole {A : Type} n (l : list A) :
  (length (firstn n l) <? length l)%nat = false <-> firstn n l = l.
Proof.
  rewrite Nat.ltb_ge. split.
  - intros H. rewrite length_firstn in H. apply firstn_all2. lia.
  - intros ->. lia.
Qed.

(** X21.  What [execute] returns on success is the first matches, in their
    order, up to the limit: 1000 when the options have no [maxResults], the
    entry itself when they have one, be it 0 (then nothing is returned,
    the default does not apply), and no limit when the entry is
    [undefined].  [count] is the number of matches returned, and
    [truncated] is true exactly when a match was left out. *)
Theorem execute_limit _findMatches pattern o data count truncated :
  execute _findMatches pattern o = Found data count truncated ->
  pattern <> ""
  /\ exists matches,
       _findMatches pattern = Return matches
       /\ data = match resolved_maxResults o with
                 | Some maxResults => firstn maxResults matches
                 | None => matches
                 end
       /\ count = length data
       /\ (truncated = false <-> data = matches)
       /\ match o with
          | Absent => length data = Nat.min 1000 (length matches)
          | Undefined => data = matches
          | Count n => length data = Nat.min n (length matches)
          end.
Proof.
  unfold execute. destruct (String.eqb_spec pattern "") as [| Hpattern]; [discriminate |].
  destruct (_findMatches pattern) as [matches | message]; [| discriminate].
  intros H. injection H as <- <- <-. split; [exact Hpattern |]. exists matches.
  split; [reflexivity |].
  destruct o as [| | n]; cbn [resolved_maxResults]; rewrite ?slice_0.
  - repeat split; try apply firstn_whole; apply length_firstn.
  - repeat split; try reflexivity. intros _. apply Nat.ltb_irrefl.
  - repeat split; try apply firstn_whole; apply length_firstn.
Qed.

(** Three matches and the limit 2. *)
Lemma execute_limit_witness :
  exists matches,
    finds_many 3 "*" = Return matches
    /\ ["0"; "1"] = firstn 2 matches
    /\ (true = false <-> ["0"; "1"] = matches).
Proof.
  destruct (execute_limit (finds_many 3) "*" (Count 2) ["0"; "1"] 2 true eq_refl)
    as (_ & matches & Hmatches & Hdata & _ & Htruncated & _).
  exists matches. split; [exact Hmatches |]. split; [exact Hdata | exact Htruncated].
Defined.

Lemma execute_absent _findMatches pattern now files :
  glob_execute _findMatches pattern now = FileAgent.Success files ->
  exists matches, _findMatches pattern = Return matches /\ files = firstn 1000 matches.
Proof.
  unfold glob_execute, execute. destruct (String.eqb pattern ""); [discriminate |].
  destruct (_findMatches pattern) as [matches | message]; [| discriminate].
  cbn [resolved_maxResults]. rewrite slice_0. intros H. injection H as <-.
  now exists matches.
Qed.

(** X22.  A file agent that searches with this glob tool indexes the first
    1000 matches of the pattern and no others: the report of [indexFiles]
    lists exactly these, in their order, and [totalFiles] is never more than
    1000, however many files match. *)
Theorem indexFiles_first_thousand
    fs_readFile _findMatches backend storeMemory agent pattern w response w' :
  FileAgent.indexFiles fs_readFile (glob_execute _findMatches) backend storeMemory agent
                       pattern w
  = Some (Return response, w') ->
  exists matches,
    _findMatches pattern = Return matches
    /\ map FileAgent.detail_path (FileAgent.details (FileAgent.index_data response))
       = firstn 1000 matches
    /\ FileAgent.totalFiles (FileAgent.index_data response) = Nat.min 1000 (length matches)
    /\ FileAgent.totalFiles (FileAgent.index_data response) <= 1000.
Proof.
  intros Hrun.
  destruct (FileAgentMore.indexFiles_returned _ _ _ _ _ _ _ _ _ Hrun)
    as (_ & files & Hfiles & Ht & Hpaths).
  destruct (execute_absent _ _ _ _ Hfiles) as (matches & Hmatches & ->).
  exists matches. rewrite Ht, length_firstn.
  split; [exact Hmatches |]. split; [exact Hpaths |]. split; lia.
Qed.

(** Three matching files, all of them indexed. *)
Lemma indexFiles_first_thousand_witness :
  exists response w',
    FileAgent.indexFiles FileAgent.third_unreadable (glob_execute (finds_many 3))
      (EmbeddingService.answering EmbeddingService.length_vector) FileAgent.keeps_all
      FileAgent.indexing_agent "*" (FileAgent.fresh_world 0)
    = Some (Return response, w')
    /\ map FileAgent.detail_path (FileAgent.details (FileAgent.index_data response))
       = ["0"; "1"; "2"].
Proof.
  destruct (FileAgentFacts.indexFiles_runs FileAgent.third_unreadable
              (glob_execute (finds_many 3))
              (EmbeddingService.answering EmbeddingService.length_vector) FileAgent.keeps_all
              FileAgent.indexing_agent
              {| EmbeddingService.maxBatchSize := 64;
                 EmbeddingService.requestTimeout := 30000;
                 EmbeddingService.maxTextLength := 8192;
                 EmbeddingService.initialized := true |}
              "*" (FileAgent.fresh_world 0) ["0"; "1"; "2"]
              ltac:(discriminate) eq_refl eq_refl eq_refl eq_refl)
    as (response & w' & _ & Hrun & _).
  exists response, w'. split; [exact Hrun |].
  destruct (indexFiles_first_thousand _ _ _ _ _ _ _ _ _ Hrun)
    as (matches & Hmatches & Hpaths & _).
  injection Hmatches as <-. exact Hpaths.
Defined.

End GlobToolFacts.
